(** * luxonis-train: the model graph execution engine

    A shallow embedding of [luxonis_train/utils/config.py] (graph
    validation, freezing configuration) and of
    [luxonis_train/models/luxonis_model.py] (node set-up, forward pass with
    liveness eviction, metric normalisation, ONNX output ordering, loss
    reduction, checkpoint loading), followed by the properties the
    specification states about them.

    Conventions.
    - Python exceptions are values of [exception]; a function that can raise
      returns [result A].  Code that also mutates tensors takes the tensor
      heap and returns the heap it leaves behind.
    - A Python [dict] whose iteration order is observable is an association
      list ([dict V]) with Python's update-in-place-or-append assignment;
      mappings that are only looked up are [gmap string _].
    - Tensors are objects: a tensor is named by its identity ([tid]) and its
      contents live in a heap.  The arithmetic on tensor contents is kept
      abstract ([TensorOps]), so nothing below depends on laws that floating
      point numbers do not satisfy.
    - Python floats that the code converts to integers are IEEE 754 binary64
      values ([SpecFloat]). *)

From Stdlib Require Import ZArith Lia.
From Stdlib Require Import SpecFloat.
From Stdlib Require Import QArith Qround.
From stdpp Require Import base option list strings gmap sorting pretty.

Set Warnings "-register-all,-clear-no-such-hyp".

Open Scope string_scope.
Open Scope list_scope.
Open Scope Z_scope.

(** ** Exceptions and results *)

(** The exceptions of the modelled code.  [ConfigurationError] is the name
    the specification gives to configuration failures; no path of the code
    raises it. *)
Inductive exception : Type :=
| ValueError (msg : string)
| KeyError (key : string)
| OverflowError (msg : string)
| AttributeError (msg : string)
| RuntimeError (msg : string)
| ConfigurationError (msg : string).

Definition result (A : Type) : Type := (exception + A)%type.

Abbreviation ok := (@inr exception _).
Abbreviation raise := (@inl exception _).

Definition rbind {A B : Type} (m : result A) (k : A -> result B) : result B :=
  match m with
  | inl e => inl e
  | inr a => k a
  end.

Notation "'let*' x ':=' m 'in' k" := (rbind m (fun x => k))
  (at level 10, x pattern, m at level 100, k at level 200).

(** The class of an exception, without its message. *)
Inductive exn_class : Type :=
| CValueError | CKeyError | COverflowError | CAttributeError
| CRuntimeError | CConfigurationError.

Definition class_of (e : exception) : exn_class :=
  match e with
  | ValueError _ => CValueError
  | KeyError _ => CKeyError
  | OverflowError _ => COverflowError
  | AttributeError _ => CAttributeError
  | RuntimeError _ => CRuntimeError
  | ConfigurationError _ => CConfigurationError
  end.

Definition fails_with {A : Type} (r : result A) (c : exn_class) : Prop :=
  exists e, r = inl e /\ class_of e = c.

(** ** Insertion-ordered dictionaries *)

Definition dict (V : Type) : Type := list (string * V).

Fixpoint dict_get {V : Type} (d : dict V) (k : string) : option V :=
  match d with
  | [] => None
  | (k', v) :: d' => if decide (k' = k) then Some v else dict_get d' k
  end.

(** [d[k] = v]: an existing key keeps its position, a new key goes last. *)
Fixpoint dict_set {V : Type} (d : dict V) (k : string) (v : V) : dict V :=
  match d with
  | [] => [(k, v)]
  | (k', v') :: d' =>
      if decide (k' = k) then (k, v) :: d' else (k', v') :: dict_set d' k v
  end.

(** [del d[k]] for a key that is present. *)
Fixpoint dict_del {V : Type} (d : dict V) (k : string) : dict V :=
  match d with
  | [] => []
  | (k', v') :: d' =>
      if decide (k' = k) then d' else (k', v') :: dict_del d' k
  end.

Definition dict_keys {V : Type} (d : dict V) : list string := d.*1.

(** [k in d] *)
Definition dict_mem {V : Type} (d : dict V) (k : string) : bool :=
  bool_decide (k ∈ dict_keys d).

(** [k in l] for a list or a set of strings. *)
Definition str_in (k : string) (l : list string) : bool :=
  bool_decide (k ∈ l).

(** [d[k]], raising [KeyError] for a missing key. *)
Definition dict_item {V : Type} (d : dict V) (k : string) : result V :=
  match dict_get d k with
  | Some v => ok v
  | None => raise (KeyError k)
  end.

(** A dictionary display or comprehension: the items are assigned in order. *)
Definition dict_of_items {V : Type} (items : list (string * V)) : dict V :=
  fold_left (fun d kv => dict_set d kv.1 kv.2) items [].

(** ** Python floats (IEEE 754 binary64) *)

Definition prec : Z := 53.
Definition emax : Z := 1024.

Definition pyfloat : Type := spec_float.

(** [float(z)] for a Python [int]: correctly rounded, [OverflowError] when
    the integer is too large. *)
Definition float_of_int (z : Z) : result pyfloat :=
  match binary_normalize prec emax z 0 false with
  | S754_infinity _ => raise (OverflowError "int too large to convert to float")
  | f => ok f
  end.

(** [x * z] for a float [x] and an int [z]. *)
Definition float_mul_int (x : pyfloat) (z : Z) : result pyfloat :=
  let* fz := float_of_int z in
  ok (SFmul prec emax x fz).

(** [int(x)]: truncation towards zero. *)
Definition int_of_float (x : pyfloat) : result Z :=
  match x with
  | S754_zero _ => ok 0
  | S754_infinity _ =>
      raise (OverflowError "cannot convert float infinity to integer")
  | S754_nan => raise (ValueError "cannot convert float NaN to integer")
  | S754_finite s m e => ok (cond_Zopp s (Z.shiftl (Z.pos m) e))
  end.

(** The rational number a finite float stands for. *)
Definition Q_of_float (x : pyfloat) : Q :=
  match x with
  | S754_finite s m e =>
      let a := if 0 <=? e then inject_Z (Z.pos m * 2 ^ e)
               else Qmake (Z.pos m) (Z.to_pos (2 ^ (- e))) in
      if s then Qopp a else a
  | _ => 0%Q
  end.

(** The integer part of a rational: rounding towards zero. *)
Definition Q_trunc (q : Q) : Z :=
  if Qle_bool 0 q then Qfloor q else Qceiling q.

(** The float nearest to [m * 2^e], and the correctly rounded quotient of two
    integers, for writing down literals such as [0.5] or [0.29]. *)
Definition float_lit (m e : Z) : pyfloat := binary_normalize prec emax m e false.
Definition float_ratio (a b : Z) : pyfloat :=
  SFdiv prec emax (float_lit a 0) (float_lit b 0).

(** ** Configuration ([utils/config.py]) *)

Inductive unfreeze_after_t : Type :=
| UnfreezeNone
| UnfreezeInt (n : Z)
| UnfreezeFloat (x : pyfloat).

Record FreezingConfig : Type := {
  active : bool;
  unfreeze_after : unfreeze_after_t
}.

(** [FreezingConfig()] *)
Definition FreezingConfig_default : FreezingConfig :=
  {| active := false; unfreeze_after := UnfreezeNone |}.

Record ModelNodeConfig : Type := {
  name : string;
  alias : option string;
  inputs : list string;
  loader_inputs : list string;
  freezing : FreezingConfig
}.

(** [x.alias or x.name]: an empty alias is falsy. *)
Definition alias_or_name (alias_ : option string) (name_ : string) : string :=
  match alias_ with
  | Some a => if decide (a = "") then name_ else a
  | None => name_
  end.

Definition node_key (n : ModelNodeConfig) : string :=
  alias_or_name (alias n) (name n).

Record AttachedModuleConfig : Type := {
  am_name : string;
  am_attached_to : string;
  am_alias : option string
}.

Record LossModuleConfig : Type := {
  loss_base : AttachedModuleConfig;
  weight : pyfloat
}.

(** [1.0] *)
Definition float_one : pyfloat := S754_finite false 4503599627370496 (-52).

(** A loss declared without a weight: [weight: float = 1.0]. *)
Definition LossModuleConfig_default (base : AttachedModuleConfig)
  : LossModuleConfig :=
  {| loss_base := base; weight := float_one |}.

Record MetricModuleConfig : Type := {
  metric_base : AttachedModuleConfig;
  is_main_metric : bool
}.

Definition module_key (m : AttachedModuleConfig) : string :=
  alias_or_name (am_alias m) (am_name m).

Record ModelConfig : Type := {
  model_name : string;
  weights : option string;
  nodes : list ModelNodeConfig;
  losses : list LossModuleConfig;
  metrics : list MetricModuleConfig;
  visualizers : list AttachedModuleConfig;
  outputs : list string
}.

Definition set_outputs (m : ModelConfig) (outs : list string) : ModelConfig :=
  {| model_name := model_name m; weights := weights m; nodes := nodes m;
     losses := losses m; metrics := metrics m; visualizers := visualizers m;
     outputs := outs |}.

Record TrainerConfig : Type := {
  epochs : Z;
  log_sub_losses : bool
}.

Record ExportConfig : Type := {
  output_names : option (list string)
}.

Record Config : Type := {
  model : ModelConfig;
  trainer : TrainerConfig;
  exporter : ExportConfig
}.

(** *** [ModelConfig.check_graph] *)

Definition graph_t : Type := dict (list string).

(** [{node.alias or node.name: node.inputs for node in self.nodes}] *)
Definition graph_of_nodes (ns : list ModelNodeConfig) : graph_t :=
  dict_of_items (map (fun n => (node_key n, inputs n)) ns).

(** [set(node_name for node in self.nodes for node_name in node.inputs)] *)
Definition all_inputs (ns : list ModelNodeConfig) : list string :=
  concat (map inputs ns).

(** The loop that collects the nodes which are not inputs to any node. *)
Definition derive_outputs (ns : list ModelNodeConfig) : list string :=
  let inputs_ := all_inputs ns in
  fold_left
    (fun outs node =>
       let name_ := node_key node in
       if negb (str_in name_ inputs_) then outs ++ [name_] else outs)
    ns [].

(** [is_acyclic] is imported from [luxonis_train.utils.general]; the validator
    takes it as a parameter. *)
Definition check_graph (is_acyclic : graph_t -> bool)
    (self : ModelConfig) : result ModelConfig :=
  let graph := graph_of_nodes (nodes self) in
  if negb (is_acyclic graph) then
    raise (ValueError "Model graph is not acyclic.")
  else
    let self1 :=
      match outputs self with
      | [] => set_outputs self (derive_outputs (nodes self))
      | _ :: _ => self
      end in
    match nodes self1, outputs self1 with
    | _ :: _, [] => raise (ValueError "No outputs specified.")
    | _, _ => ok self1
    end.

(** The predecessors of a node; a name without an entry has none. *)
Definition preds_of (g : graph_t) (n : string) : list string :=
  default [] (dict_get g n).

(** [dst] can be reached from [src] along at least one and at most [fuel]
    predecessor edges. *)
Fixpoint reaches (g : graph_t) (fuel : nat) (src dst : string) : bool :=
  match fuel with
  | O => false
  | S fuel' =>
      existsb (fun p => bool_decide (p = dst) || reaches g fuel' p dst)
              (preds_of g src)
  end.

(** Modelled from the spec: [is_acyclic] of [luxonis_train/utils/general.py],
    which is not among the sources.  The spec describes it as the check that
    the node-dependency mapping (node name to its list of predecessor names)
    contains no cycle: no node reaches itself by following one or more
    predecessor edges.  A path that returns to its start need not be longer
    than the number of entries, which bounds the search. *)
Definition is_acyclic (g : graph_t) : bool :=
  forallb (fun n => negb (reaches g (length g) n n)) (dict_keys g).

(** The cycle the spec speaks of, as a relation. *)
Definition edge (g : graph_t) (a b : string) : Prop := b ∈ preds_of g a.

Definition has_cycle (g : graph_t) : Prop := exists n, tc (edge g) n n.

(** A walk along predecessor edges, with the list of the nodes it leaves. *)
Inductive walk (g : graph_t) : list string -> string -> string -> Prop :=
| walk_one a b : edge g a b -> walk g [a] a b
| walk_cons a c b l : edge g a c -> walk g l c b -> walk g (a :: l) a b.

(** The declared-or-derived output set of a configuration. *)
Definition declared_or_derived (self : ModelConfig) : list string :=
  match outputs self with
  | [] => derive_outputs (nodes self)
  | o :: outs => o :: outs
  end.

(** A node that some other node names as a predecessor. *)
Definition referenced_by_other (ns : list ModelNodeConfig)
    (n : ModelNodeConfig) : Prop :=
  exists m, m ∈ ns /\ node_key m <> node_key n /\ node_key n ∈ inputs m.

Global Instance referenced_by_other_dec ns n : Decision (referenced_by_other ns n).
Proof.
  refine (cast_if (decide (Exists (fun m => node_key m <> node_key n
                                            /\ node_key n ∈ inputs m) ns)));
    unfold referenced_by_other; rewrite Exists_exists in *; naive_solver.
Defined.

(** *** [ModelConfig.check_unique_names] *)

Fixpoint first_duplicate (seen : list string) (names : list string)
  : option string :=
  match names with
  | [] => None
  | n :: rest =>
      if str_in n seen then Some n else first_duplicate (n :: seen) rest
  end.

Definition check_section (section : string) (names : list string)
  : result unit :=
  match first_duplicate [] names with
  | Some n =>
      raise (ValueError ("Duplicate name `" +:+ n +:+ "` in `" +:+ section
                         +:+ "` section."))
  | None => ok tt
  end.

Definition check_unique_names (self : ModelConfig) : result ModelConfig :=
  let* _ := check_section "nodes" (map node_key (nodes self)) in
  let* _ := check_section "losses"
              (map (fun l => module_key (loss_base l)) (losses self)) in
  let* _ := check_section "metrics"
              (map (fun m => module_key (metric_base m)) (metrics self)) in
  let* _ := check_section "visualizers" (map module_key (visualizers self)) in
  ok self.

(** ** Tensors *)

(** The operations of the tensor runtime that the model code calls, on the
    contents of a tensor.  [t_copy dst src] is [None] when [dst.copy_(src)]
    raises. *)
Class TensorOps (T : Type) : Type := {
  t_zeros : T;
  t_iadd : T -> T -> T;
  t_imul : T -> pyfloat -> T;
  t_copy : T -> T -> option T
}.

(** Tensor identities and the heap that holds their contents. *)
Definition tid : Type := nat.
Definition heap (T : Type) : Type := tid -> T.

(** The heap after an in-place operation has changed the contents of [t]. *)
Definition heap_set {T : Type} (h : heap T) (t : tid) (v : T) : heap T :=
  fun t' => if decide (t' = t) then v else h t'.

(** A Packet: named output slot to sequence of tensors. *)
Definition Packet (T : Type) : Type := dict (list T).

(** ** Model set-up ([LuxonisModel.__init__]) *)

Definition Size : Type := list Z.

Record InitState : Type := {
  st_frozen_nodes : list (string * Z);
  st_nodes : list string;
  st_input_shapes : dict (list Size);
  st_graph : graph_t
}.

Definition init_state0 : InitState :=
  {| st_frozen_nodes := []; st_nodes := []; st_input_shapes := [];
     st_graph := [] |}.

(** The epoch at which a frozen node is released. *)
Definition unfreeze_epoch (epochs_ : Z) (f : FreezingConfig) : result Z :=
  match unfreeze_after f with
  | UnfreezeNone => ok epochs_
  | UnfreezeInt n => ok n
  | UnfreezeFloat x =>
      let* p := float_mul_int x epochs_ in
      int_of_float p
  end.

(** [[self.original_in_shape[i] for i in node_cfg.loader_inputs]] *)
Fixpoint lookup_all {V : Type} (d : dict V) (ks : list string)
  : result (list V) :=
  match ks with
  | [] => ok []
  | k :: ks' =>
      let* v := dict_item d k in
      let* vs := lookup_all d ks' in
      ok (v :: vs)
  end.

(** One iteration of the loop over [self.cfg.model.nodes].  [registered] tells
    whether [BaseNode.REGISTRY] knows a node type. *)
Definition init_node (registered : string -> bool) (epochs_ : Z)
    (original_in_shape : dict Size) (st : InitState)
    (node_cfg : ModelNodeConfig) : result InitState :=
  if negb (registered (name node_cfg)) then raise (KeyError (name node_cfg))
  else
    let node_name := node_key node_cfg in
    let* frozen :=
      (if active (freezing node_cfg) then
         let* e := unfreeze_epoch epochs_ (freezing node_cfg) in
         ok (st_frozen_nodes st ++ [(node_name, e)])
       else ok (st_frozen_nodes st)) in
    let nodes_ :=
      if str_in node_name (st_nodes st) then st_nodes st
      else st_nodes st ++ [node_name] in
    let* shapes :=
      (match inputs node_cfg with
       | [] =>
           let* l := lookup_all original_in_shape (loader_inputs node_cfg) in
           ok (dict_set (st_input_shapes st) node_name l)
       | _ :: _ => ok (st_input_shapes st)
       end) in
    ok {| st_frozen_nodes := frozen; st_nodes := nodes_;
          st_input_shapes := shapes;
          st_graph := dict_set (st_graph st) node_name (inputs node_cfg) |}.

Fixpoint init_nodes (registered : string -> bool) (epochs_ : Z)
    (original_in_shape : dict Size) (st : InitState)
    (cfgs : list ModelNodeConfig) : result InitState :=
  match cfgs with
  | [] => ok st
  | c :: cfgs' =>
      let* st' := init_node registered epochs_ original_in_shape st c in
      init_nodes registered epochs_ original_in_shape st' cfgs'
  end.

(** What the Frozen-Node Schedule is to record for an active node [c]: the
    configured integer; the integer part of the float times the epochs; or
    the epochs, when nothing is configured. *)
Definition frozen_entry_ok (epochs_ : Z) (c : ModelNodeConfig)
    (entry : string * Z) : Prop :=
  entry.1 = node_key c /\
  match unfreeze_after (freezing c) with
  | UnfreezeInt n => entry.2 = n
  | UnfreezeFloat x =>
      exists fe, float_of_int epochs_ = ok fe /\
        entry.2 = Q_trunc (Q_of_float (SFmul prec emax x fe))
  | UnfreezeNone => entry.2 = epochs_
  end.

Definition is_active (c : ModelNodeConfig) : Prop := active (freezing c) = true.

Global Instance is_active_dec (c : ModelNodeConfig) : Decision (is_active c).
Proof. unfold is_active. apply _. Defined.

(** ** The forward pass ([LuxonisModel.forward]) *)

(** One item produced by [traverse_graph]: the node name, its declared inputs
    and the list of unprocessed nodes as the loop body sees it. *)
Record Visit : Type := {
  v_node : string;
  v_inputs : list string;
  v_unprocessed : list string
}.

(** [f"__{node_name}_input__"] *)
Definition input_key (node_name : string) : string :=
  "__" +:+ node_name +:+ "_input__".

Section Forward.

Context {T : Type}.

(** [node.run] of the node registered under a name. *)
Variable run : string -> list (Packet T) -> result (Packet T).

(** The losses, metric updates and visualizers attached to a node, as far as
    the cache is concerned: they are run on the outputs of the node (when
    labels are given), they can raise, and they do not touch [computed].
    What they produce goes to the other two fields of the result. *)
Variable attached : string -> Packet T -> result unit.

(** [self.graph], [self.outputs], [self.input_shapes] and
    [self.cfg.model.nodes]. *)
Variable graph : graph_t.
Variable outputs_ : list string.
Variable input_shapes : dict (list Size).
Variable node_cfgs : list ModelNodeConfig.

(** The loop that fills [input_dict] from the batch. *)
Fixpoint build_input_dict (inputs_ : dict T) (cfgs : list ModelNodeConfig)
    (input_dict : dict (list T)) : result (dict (list T)) :=
  match cfgs with
  | [] => ok input_dict
  | c :: cfgs' =>
      if str_in (name c) (dict_keys input_shapes) then
        let* ts := lookup_all inputs_ (loader_inputs c) in
        build_input_dict inputs_ cfgs' (dict_set input_dict (name c) ts)
      else build_input_dict inputs_ cfgs' input_dict
  end.

(** The initial [computed] dictionary. *)
Definition initial_computed (input_dict : dict (list T)) : dict (Packet T) :=
  dict_of_items
    (map (fun kv => (input_key kv.1, [("features", kv.2)])) input_dict).

(** The inner [for node_name in unprocessed: ... break] loop: [true] when the
    loop leaves through [break]. *)
Fixpoint required_by (computed_name : string) (unprocessed : list string)
  : result bool :=
  match unprocessed with
  | [] => ok false
  | node_name :: rest =>
      let* preds := dict_item graph node_name in
      if str_in computed_name preds then ok true
      else required_by computed_name rest
  end.

(** The body of the eviction loop for one name of [list(computed.keys())]. *)
Definition evict_one (is_input_node : bool) (input_names unprocessed : list string)
    (computed : dict (Packet T)) (computed_name : string)
  : result (dict (Packet T)) :=
  if str_in computed_name outputs_ then ok computed
  else if is_input_node && negb (str_in computed_name input_names) then
    ok computed
  else
    let* needed := required_by computed_name unprocessed in
    if needed then ok computed else ok (dict_del computed computed_name).

Fixpoint evict_loop (is_input_node : bool) (input_names unprocessed : list string)
    (names : list string) (computed : dict (Packet T))
  : result (dict (Packet T)) :=
  match names with
  | [] => ok computed
  | n :: names' =>
      let* computed' :=
        evict_one is_input_node input_names unprocessed computed n in
      evict_loop is_input_node input_names unprocessed names' computed'
  end.

(** [is_input_node] and the rebound [input_names] of one iteration. *)
Definition visit_is_input (v : Visit) : bool := bool_decide (v_inputs v = []).

Definition visit_input_names (v : Visit) : list string :=
  if visit_is_input v then [input_key (v_node v)] else v_inputs v.

(** One iteration of the loop over [traverse_graph]: run the node, store its
    outputs, run what is attached to the node, evict. *)
Definition forward_step (computed : dict (Packet T)) (v : Visit)
  : result (dict (Packet T)) :=
  let is_input_node := visit_is_input v in
  let input_names := visit_input_names v in
  let* node_inputs := lookup_all computed input_names in
  let* outputs := run (v_node v) node_inputs in
  let computed1 := dict_set computed (v_node v) outputs in
  let* _ := attached (v_node v) outputs in
  evict_loop is_input_node input_names (v_unprocessed v)
    (dict_keys computed1) computed1.

Fixpoint forward_loop (computed : dict (Packet T)) (visits : list Visit)
  : result (dict (Packet T)) :=
  match visits with
  | [] => ok computed
  | v :: visits' =>
      let* computed' := forward_step computed v in
      forward_loop computed' visits'
  end.

(** The cache after each completed iteration, up to the first one that
    raises. *)
Fixpoint forward_trace (computed : dict (Packet T)) (visits : list Visit)
  : list (Visit * dict (Packet T)) :=
  match visits with
  | [] => []
  | v :: visits' =>
      match forward_step computed v with
      | inl _ => []
      | inr computed' => (v, computed') :: forward_trace computed' visits'
      end
  end.

(** [outputs_dict] *)
Definition outputs_dict (computed : dict (Packet T)) : dict (Packet T) :=
  filter (fun kv => str_in kv.1 outputs_ = true) computed.

(** [forward], given the items that [traverse_graph(self.graph, self.nodes)]
    yields: the [outputs] field of the result. *)
Definition forward (visits : list Visit) (inputs_ : dict T)
  : result (dict (Packet T)) :=
  let* input_dict := build_input_dict inputs_ node_cfgs [] in
  let* computed := forward_loop (initial_computed input_dict) visits in
  ok (outputs_dict computed).

(** The caches of a whole pass. *)
Definition forward_caches (visits : list Visit) (inputs_ : dict T)
  : list (Visit * dict (Packet T)) :=
  match build_input_dict inputs_ node_cfgs [] with
  | inl _ => []
  | inr input_dict => forward_trace (initial_computed input_dict) visits
  end.

(** What the eviction loop lets stay, for one name. *)
Definition kept_by_eviction (v : Visit) (computed_name : string) : Prop :=
  computed_name ∈ outputs_
  \/ (v_inputs v = [] /\ computed_name <> input_key (v_node v))
  \/ (exists n, n ∈ v_unprocessed v /\ computed_name ∈ preds_of graph n).

(** The three exemptions of the liveness invariant as the specification words
    them: a declared output, the batch Packet of an input node that has not
    run yet, or a predecessor of a node that has not run yet. *)
Definition is_input_cfg (n : string) : Prop :=
  dict_get graph n = Some [].

Definition live_by_spec (v : Visit) (computed_name : string) : Prop :=
  computed_name ∈ outputs_
  \/ (exists n, n ∈ v_unprocessed v /\ is_input_cfg n
                /\ computed_name = input_key n)
  \/ (exists n, n ∈ v_unprocessed v /\ computed_name ∈ preds_of graph n).

End Forward.

(** A node all of whose predecessors have been visited. *)
Definition ready (g : graph_t) (processed : list string) (n : string) : bool :=
  forallb (fun p => str_in p processed) (preds_of g n).

(** The traversal proper: visit the first pending node that is ready, until
    none is pending. *)
Fixpoint traverse_loop (fuel : nat) (g : graph_t)
    (unprocessed processed : list string) : result (list Visit) :=
  match unprocessed, fuel with
  | [], _ => ok []
  | _ :: _, O => raise (RuntimeError "Malformed graph.")
  | _ :: _, S fuel' =>
      match List.find (ready g processed) unprocessed with
      | None => raise (RuntimeError "Malformed graph.")
      | Some n =>
          let pending := List.filter (fun m => bool_decide (m <> n)) unprocessed in
          let* rest := traverse_loop fuel' g pending (n :: processed) in
          ok ({| v_node := n; v_inputs := preds_of g n;
                 v_unprocessed := pending |} :: rest)
      end
  end.

(** Modelled from the spec: [traverse_graph] of
    [luxonis_train/utils/general.py], which is not among the sources.  The
    spec asks for a topological order in which every predecessor of a node is
    visited before the node, ties broken by declaration order: each step
    visits the first declared node that is still pending and whose
    predecessors have all been visited.  With each node come its predecessors
    and the nodes that are still pending once it has been computed.  The spec
    does not say what happens to a graph without a topological order; the
    model raises. *)
Definition traverse_graph (g : graph_t) : result (list Visit) :=
  traverse_loop (length g) g (dict_keys g) [].

(** ** Metric computation ([LuxonisModel.compute_metrics]) *)

Section Metrics.

Context {T : Type}.

(** The values a metric's [compute()] can hand back, as far as the [match]
    statement tells them apart. *)
Inductive pyval : Type :=
| PyTensor (data : T)
| PyDict (d : gmap string T)
| PyTuple (items : list pyval)
| PyList (items : list pyval)
| PyInt (z : Z)
| PyFloat (x : pyfloat)
| PyStr (s : string)
| PyNone.

(** [type(unknown)] as the error message shows it. *)
Definition type_repr (r : pyval) : string :=
  match r with
  | PyTensor _ => "<class 'torch.Tensor'>"
  | PyDict _ => "<class 'dict'>"
  | PyTuple _ => "<class 'tuple'>"
  | PyList _ => "<class 'list'>"
  | PyInt _ => "<class 'int'>"
  | PyFloat _ => "<class 'float'>"
  | PyStr _ => "<class 'str'>"
  | PyNone => "<class 'NoneType'>"
  end.

(** A metric object: its accumulator state and its two methods. *)
Record Metric (S : Type) : Type := {
  m_state : S;
  m_compute : S -> pyval * S;
  m_reset : S -> S
}.
Arguments m_state {S}.
Arguments m_compute {S}.
Arguments m_reset {S}.

Definition with_state {S : Type} (m : Metric S) (s : S) : Metric S :=
  {| m_state := s; m_compute := m_compute m; m_reset := m_reset m |}.

(** The [match metric.compute(): ...] statement.  A sequence pattern accepts
    tuples and lists of the right length, not strings. *)
Definition match_computed (metric_name : string) (r : pyval)
  : result (gmap string T) :=
  match r with
  | PyTuple [PyTensor metric_value; PyDict submetrics]
  | PyList [PyTensor metric_value; PyDict submetrics] =>
      ok (submetrics ∪ {[metric_name := metric_value]})
  | PyTensor metric_value => ok {[metric_name := metric_value]}
  | PyDict submetrics => ok submetrics
  | unknown =>
      raise (ValueError ("Metric " +:+ metric_name
                         +:+ " returned unexpected value of type "
                         +:+ type_repr unknown +:+ "."))
  end.

Definition results_t : Type := gmap string (gmap string T).

(** [metric_results[node_name] |= computed_submetrics] on a
    [defaultdict(dict)]. *)
Definition merge_results (metric_results : results_t) (node_name : string)
    (computed_submetrics : gmap string T) : results_t :=
  <[node_name := computed_submetrics ∪ default ∅ (metric_results !! node_name)]>
    metric_results.

(** The inner loop, over the metrics of one node.  The metrics already visited
    keep their new state when a later one raises. *)
Fixpoint compute_node_metrics {S : Type} (node_name : string)
    (ms : dict (Metric S)) (metric_results : results_t)
  : result results_t * dict (Metric S) :=
  match ms with
  | [] => (ok metric_results, [])
  | (metric_name, metric) :: ms' =>
      let (r, s1) := m_compute metric (m_state metric) in
      match match_computed metric_name r with
      | inl e => (inl e, (metric_name, with_state metric s1) :: ms')
      | inr computed_submetrics =>
          let metric' := with_state metric (m_reset metric s1) in
          let (res, ms'') :=
            compute_node_metrics node_name ms'
              (merge_results metric_results node_name computed_submetrics) in
          (res, (metric_name, metric') :: ms'')
      end
  end.

Fixpoint compute_metrics_loop {S : Type} (METRICS : dict (dict (Metric S)))
    (metric_results : results_t)
  : result results_t * dict (dict (Metric S)) :=
  match METRICS with
  | [] => (ok metric_results, [])
  | (node_name, ms) :: rest =>
      match compute_node_metrics node_name ms metric_results with
      | (inl e, ms') => (inl e, (node_name, ms') :: rest)
      | (inr metric_results', ms') =>
          let (res, rest') := compute_metrics_loop rest metric_results' in
          (res, (node_name, ms') :: rest')
      end
  end.

Definition compute_metrics {S : Type} (metrics_ train_metrics : dict (dict (Metric S)))
    (use_train_metrics : bool)
  : result results_t * dict (dict (Metric S)) :=
  let METRICS := if use_train_metrics then train_metrics else metrics_ in
  compute_metrics_loop METRICS ∅.

(** All the metric objects of a model, in iteration order. *)
Definition all_metrics {S : Type} (METRICS : dict (dict (Metric S)))
  : list (string * string * Metric S) :=
  concat (map (fun nm => map (fun km => (nm.1, km.1, km.2)) nm.2) METRICS).

(** A returned value of one of the three shapes: a bare tensor, a pair of a
    tensor and a mapping, or a bare mapping. *)
Definition normalizable (r : pyval) : bool :=
  match r with
  | PyTuple [PyTensor _; PyDict _] | PyList [PyTensor _; PyDict _]
  | PyTensor _ | PyDict _ => true
  | _ => false
  end.

(** What [compute()] returns for a metric in its current state, and the
    metric once it has been computed and reset. *)
Definition computed_value {S : Type} (m : Metric S) : pyval :=
  (m_compute m (m_state m)).1.

Definition reset_metric {S : Type} (m : Metric S) : Metric S :=
  with_state m (m_reset m (m_compute m (m_state m)).2).

Definition reset_all {S : Type} (METRICS : dict (dict (Metric S)))
  : dict (dict (Metric S)) :=
  map (fun nm => (nm.1, map (fun km => (km.1, reset_metric km.2)) nm.2)) METRICS.

(** The accumulator states of the metric objects, in iteration order, each
    with its node and its name. *)
Definition metric_states {S : Type} (METRICS : dict (dict (Metric S)))
  : list (string * string * S) :=
  map (fun x => (x.1.1, x.1.2, m_state x.2)) (all_metrics METRICS).

(** The flat mapping the specification asks for, shape by shape. *)
Definition normalized_spec (metric_name : string) (r : pyval)
  : option (gmap string T) :=
  match r with
  | PyTensor v => Some {[metric_name := v]}
  | PyTuple [PyTensor v; PyDict sub] | PyList [PyTensor v; PyDict sub] =>
      Some (sub ∪ {[metric_name := v]})
  | PyDict sub => Some sub
  | _ => None
  end.

(** The results of a run in which every metric returns one of the three
    shapes: each normalised mapping merged into the entry of its node. *)
Definition merged_results {S : Type} (ms : list (string * string * Metric S))
    (metric_results : results_t) : results_t :=
  fold_left
    (fun res x =>
       merge_results res x.1.1
         (default ∅ (normalized_spec x.1.2 (computed_value x.2))))
    ms metric_results.

End Metrics.

Arguments pyval : clear implicits.
Arguments Metric : clear implicits.
Arguments m_state {T S} _.
Arguments m_compute {T S} _ _.
Arguments m_reset {T S} _ _.
Arguments results_t : clear implicits.

(** ** ONNX export ([LuxonisModel.export_onnx]) *)

Definition out_key : Type := string * string * nat.

(** Python's order on [(str, str, int)] tuples: the first component that
    differs decides; strings compare by code point. *)
Definition out_key_compare (a b : out_key) : comparison :=
  match String.compare a.1.1 b.1.1 with
  | Eq =>
      match String.compare a.1.2 b.1.2 with
      | Eq => Nat.compare a.2 b.2
      | c => c
      end
  | c => c
  end.

Definition out_key_le (a b : out_key) : Prop := out_key_compare a b <> Gt.

Global Instance out_key_le_dec (a b : out_key) : Decision (out_key_le a b).
Proof. unfold out_key_le. destruct (out_key_compare a b); [left|left|right]; congruence. Defined.

Section OnnxExport.

Context {T : Type}.

(** The list comprehension over [outputs.items()]. *)
Definition enumerate_outputs (outputs : dict (Packet T)) : list out_key :=
  concat (map (fun no =>
    concat (map (fun so =>
      map (fun i => (no.1, so.1, i)) (seq 0 (length so.2))) no.2)) outputs).

(** [sorted(...)] *)
Definition output_order (outputs : dict (Packet T)) : list out_key :=
  merge_sort out_key_le (enumerate_outputs outputs).

(** [f"{node_name}/{output_name}/{i}"] *)
Definition default_output_name (k : out_key) : string :=
  k.1.1 +:+ "/" +:+ k.1.2 +:+ "/" +:+ pretty k.2.

(** The names that [export_onnx] returns.  Configured names of the wrong
    number are dropped (with a warning) for the default ones. *)
Definition export_output_names (configured : option (list string))
    (order : list out_key) : list string :=
  let configured1 :=
    match configured with
    | Some names =>
        if bool_decide (length names <> length order) then None else Some names
    | None => None
    end in
  match configured1 with
  | Some (n :: names) => n :: names
  | _ => map default_output_name order
  end.

(** What [export_onnx] returns for the outputs of the forward pass on the
    zero inputs. *)
Definition export_onnx (configured : option (list string))
    (outputs : dict (Packet T)) : list string :=
  export_output_names configured (output_order outputs).

(** [outputs[node_name][output_name][i]] *)
Definition output_tensor (outputs : dict (Packet T)) (k : out_key) : result T :=
  let* packet := dict_item outputs k.1.1 in
  let* out := dict_item packet k.1.2 in
  match out !! k.2 with
  | Some t => ok t
  | None => raise (KeyError "list index out of range")
  end.

(** The tuple that [export_forward] returns. *)
Fixpoint export_forward (outputs : dict (Packet T)) (order : list out_key)
  : result (list T) :=
  match order with
  | [] => ok []
  | k :: order' =>
      let* t := output_tensor outputs k in
      let* ts := export_forward outputs order' in
      ok (t :: ts)
  end.

End OnnxExport.

(** ** Loss reduction ([LuxonisModel.process_losses]) *)

(** A loss as [forward] hands it over: a tensor, or a tuple of a tensor and
    named sublosses.  The tensors are objects, named by their identity. *)
Inductive loss_value : Type :=
| LossTensor (loss : tid)
| LossTuple (loss : tid) (sublosses : dict tid).

Definition losses_dict_t : Type := dict (dict loss_value).

Definition loss_tensor (lv : loss_value) : tid :=
  match lv with
  | LossTensor t => t
  | LossTuple t _ => t
  end.

Definition loss_sublosses (lv : loss_value) : dict tid :=
  match lv with
  | LossTensor _ => []
  | LossTuple _ s => s
  end.

Section Losses.

Context {T : Type} `{TensorOps T}.

(** [self.loss_weights] and [self.cfg.trainer.log_sub_losses]. *)
Variable loss_weights : gmap string pyfloat.
Variable log_sub_losses_ : bool.

(** The accumulator of the two loops: the contents of [final_loss] (a fresh
    tensor that nothing else refers to) and [training_step_output].  A logged
    value [x.detach().cpu()] is the contents of [x] at that moment. *)
Definition loss_acc : Type := (T * gmap string T)%type.

(** The loop over [sublosses.items()]. *)
Definition log_sublosses (h : heap T) (prefix : string) (sublosses : dict tid)
    (out : gmap string T) : gmap string T :=
  fold_left (fun o kv => <[prefix +:+ "/" +:+ kv.1 := h kv.2]> o) sublosses out.

(** The body of the inner loop. *)
Definition process_loss (node_name loss_name : string) (loss_values : loss_value)
    (acc : loss_acc) (h : heap T) : result loss_acc * heap T :=
  let loss := loss_tensor loss_values in
  let sublosses := loss_sublosses loss_values in
  match loss_weights !! loss_name with
  | None => (raise (KeyError loss_name), h)
  | Some w =>
      (* loss *= self.loss_weights[loss_name] *)
      let h1 := heap_set h loss (t_imul (h loss) w) in
      (* final_loss += loss *)
      let final_loss := t_iadd acc.1 (h1 loss) in
      let key := "loss/" +:+ node_name +:+ "/" +:+ loss_name in
      let out1 := <[key := h1 loss]> acc.2 in
      let out2 :=
        if log_sub_losses_ && negb (bool_decide (sublosses = [])) then
          log_sublosses h1 key sublosses out1
        else out1 in
      (ok (final_loss, out2), h1)
  end.

Fixpoint process_node_losses (node_name : string) (losses_ : dict loss_value)
    (acc : loss_acc) (h : heap T) : result loss_acc * heap T :=
  match losses_ with
  | [] => (ok acc, h)
  | (loss_name, loss_values) :: rest =>
      match process_loss node_name loss_name loss_values acc h with
      | (inl e, h') => (inl e, h')
      | (inr acc', h') => process_node_losses node_name rest acc' h'
      end
  end.

Fixpoint process_losses_loop (losses_dict : losses_dict_t)
    (acc : loss_acc) (h : heap T) : result loss_acc * heap T :=
  match losses_dict with
  | [] => (ok acc, h)
  | (node_name, losses_) :: rest =>
      match process_node_losses node_name losses_ acc h with
      | (inl e, h') => (inl e, h')
      | (inr acc', h') => process_losses_loop rest acc' h'
      end
  end.

(** [process_losses]: the final loss, the logging mapping, and the heap it
    leaves behind. *)
Definition process_losses (losses_dict : losses_dict_t) (h : heap T)
  : result (T * gmap string T) * heap T :=
  match process_losses_loop losses_dict (t_zeros, ∅) h with
  | (inl e, h') => (inl e, h')
  | (inr (final_loss, out), h') =>
      (ok (final_loss, <["loss" := final_loss]> out), h')
  end.

(** The individual losses of a mapping, in iteration order. *)
Definition flat_losses (losses_dict : losses_dict_t)
  : list (string * string * loss_value) :=
  concat (map (fun nl => map (fun kv => (nl.1, kv.1, kv.2)) nl.2) losses_dict).

(** The two loops as one loop over the individual losses. *)
Fixpoint process_flat (ls : list (string * string * loss_value))
    (acc : loss_acc) (h : heap T) : result loss_acc * heap T :=
  match ls with
  | [] => (ok acc, h)
  | l :: rest =>
      match process_loss l.1.1 l.1.2 l.2 acc h with
      | (inl e, h') => (inl e, h')
      | (inr acc', h') => process_flat rest acc' h'
      end
  end.

(** An individual loss together with its configured weight. *)
Definition weighted_loss : Type := (string * string * loss_value * pyfloat)%type.

Definition with_weights (ls : list (string * string * loss_value))
  : option (list weighted_loss) :=
  mapM (fun l => w ← loss_weights !! l.1.2; Some (l, w)) ls.

Definition wl_tensor (x : weighted_loss) : tid := loss_tensor x.1.2.
Definition wl_sublosses (x : weighted_loss) : dict tid := loss_sublosses x.1.2.

(** The specification's total, for the tensor contents [h]: starting from
    zero, add each loss scaled by its weight. *)
Definition weighted_sum (h : heap T) (wl : list weighted_loss) (start : T) : T :=
  fold_left (fun total x => t_iadd total (t_imul (h (wl_tensor x)) x.2)) wl start.

(** The logging mapping, for the tensor contents [h]: each scaled loss under
    [loss/node/name]; with sub-loss logging on, each subloss as it is under
    [loss/node/name/subloss]. *)
Definition loss_key (x : weighted_loss) : string :=
  "loss/" +:+ x.1.1.1 +:+ "/" +:+ x.1.1.2.

Definition log_entries (h : heap T) (x : weighted_loss) (out : gmap string T)
  : gmap string T :=
  let out1 := <[loss_key x := t_imul (h (wl_tensor x)) x.2]> out in
  if log_sub_losses_ && negb (bool_decide (wl_sublosses x = [])) then
    log_sublosses h (loss_key x) (wl_sublosses x) out1
  else out1.

Definition log_pure (h : heap T) (wl : list weighted_loss) (out : gmap string T)
  : gmap string T :=
  fold_left (fun o x => log_entries h x o) wl out.

(** The tensor contents after a reduction: every loss tensor scaled by its
    weight, everything else as it was. *)
Definition scale_heap (h : heap T) (wl : list weighted_loss) : heap T :=
  fun t =>
    match List.find (fun x => bool_decide (wl_tensor x = t)) wl with
    | Some x => t_imul (h t) x.2
    | None => h t
    end.

(** The loss tensors of a mapping are distinct objects, and no subloss is one
    of them. *)
Definition loss_tensors (wl : list weighted_loss) : list tid := map wl_tensor wl.

Definition subloss_tensors (wl : list weighted_loss) : list tid :=
  concat (map (fun x => (wl_sublosses x).*2) wl).

Definition separate_tensors (wl : list weighted_loss) : Prop :=
  NoDup (loss_tensors wl)
  /\ (forall t, t ∈ subloss_tensors wl -> t ∉ loss_tensors wl).

(** What the reduction assigns to [training_step_output] for one loss, in
    order: the scaled loss, then, with sub-loss logging on, the sublosses. *)
Definition entry_items (h : heap T) (x : weighted_loss) : list (string * T) :=
  (loss_key x, t_imul (h (wl_tensor x)) x.2)
  :: (if log_sub_losses_ then
        map (fun kv => (loss_key x +:+ "/" +:+ kv.1, h kv.2)) (wl_sublosses x)
      else []).

Definition log_items (h : heap T) (wl : list weighted_loss) : list (string * T) :=
  concat (map (entry_items h) wl).

(** Two outcomes of a reduction with the same total (or the same exception)
    and the same tensor contents afterwards. *)
Definition same_total (r1 r2 : result (T * gmap string T) * heap T) : Prop :=
  r1.2 = r2.2
  /\ match r1.1, r2.1 with
     | inr a1, inr a2 => a1.1 = a2.1
     | inl e1, inl e2 => e1 = e2
     | _, _ => False
     end.

(** A mapping without its sublosses. *)
Definition strip_sublosses (losses_dict : losses_dict_t) : losses_dict_t :=
  map (fun nl => (nl.1, map (fun kv => (kv.1, LossTensor (loss_tensor kv.2))) nl.2))
      losses_dict.

End Losses.

(** ** Checkpoint loading ([LuxonisModel.load_checkpoint]) *)

Inductive log_record : Type :=
| LogWarning (msg : string)
| LogInfo (msg : string).

Section Checkpoint.

Context {T : Type} `{TensorOps T}.

(** What [torch.load] returns: a dictionary whose ["state_dict"] entry, when
    it is as expected, maps parameter names to tensors. *)
Inductive ckpt_entry : Type :=
| CkStateDict (sd : dict T)
| CkOther.

Definition checkpoint_t : Type := dict ckpt_entry.

Definition warn_not_in_model (key : string) : log_record :=
  LogWarning ("Key `" +:+ key +:+ "` from checkpoint not found in model state dict.").
Definition warn_not_in_checkpoint (key : string) : log_record :=
  LogWarning ("Key `" +:+ key +:+ "` was not found in checkpoint.").
Definition warn_not_loaded (key : string) : log_record :=
  LogWarning ("Key `" +:+ key +:+ "` from checkpoint could not be loaded into model.").

(** The first loop: the saved entries whose key the model knows. *)
Fixpoint filter_saved (self_state_dict : dict tid) (saved : dict T)
    (state_dict : dict T) (log : list log_record)
  : dict T * list log_record :=
  match saved with
  | [] => (state_dict, log)
  | (key, value) :: rest =>
      if negb (dict_mem self_state_dict key) then
        filter_saved self_state_dict rest state_dict
          (log ++ [warn_not_in_model key])
      else
        filter_saved self_state_dict rest (dict_set state_dict key value) log
  end.

(** The second loop: copy in place, key by key.  [self.state_dict()] maps a
    parameter name to the parameter tensor itself. *)
Fixpoint copy_params (self_state_dict : dict tid) (keys : list string)
    (state_dict : dict T) (h : heap T) (log : list log_record)
  : result (heap T * list log_record) :=
  match keys with
  | [] => ok (h, log)
  | key :: rest =>
      match dict_get state_dict key with
      | None =>
          copy_params self_state_dict rest state_dict h
            (log ++ [warn_not_in_checkpoint key])
      | Some value =>
          let* param := dict_item self_state_dict key in
          match t_copy (h param) value with
          | Some new =>
              copy_params self_state_dict rest state_dict (heap_set h param new) log
          | None =>
              copy_params self_state_dict rest state_dict h
                (log ++ [warn_not_loaded key])
          end
      end
  end.

(** [load_checkpoint].  [torch_load path] is the loaded artifact. *)
Definition load_checkpoint (torch_load : string -> checkpoint_t)
    (self_state_dict : dict tid) (path : option string) (h : heap T)
  : result (heap T * list log_record) :=
  match path with
  | None => ok (h, [])
  | Some p =>
      let checkpoint := torch_load p in
      if negb (dict_mem checkpoint "state_dict") then
        raise (ValueError "Checkpoint does not contain state_dict.")
      else
        let* entry := dict_item checkpoint "state_dict" in
        match entry with
        | CkOther => raise (AttributeError "items")
        | CkStateDict saved =>
            let (state_dict, log1) := filter_saved self_state_dict saved [] [] in
            let* r := copy_params self_state_dict (dict_keys self_state_dict)
                        state_dict h log1 in
            ok (r.1, r.2 ++ [LogInfo ("Loaded checkpoint from " +:+ p +:+ ".")])
        end
  end.

(** What loading does to one parameter of the live model. *)
Definition param_loaded (saved : dict T) (h h' : heap T) (log : list log_record)
    (key : string) (param : tid) : Prop :=
  match dict_get saved key with
  | None => h' param = h param /\ warn_not_in_checkpoint key ∈ log
  | Some value =>
      match t_copy (h param) value with
      | Some new => h' param = new
      | None => h' param = h param /\ warn_not_loaded key ∈ log
      end
  end.

End Checkpoint.

Arguments ckpt_entry : clear implicits.
Arguments checkpoint_t : clear implicits.

(** * The rest of the configuration and of the model class *)

(** ** More of [utils/config.py] *)

(** The list that [check_unique_names] walks through: each section with the
    alias-or-name of its objects. *)
Definition name_sections (self : ModelConfig) : list (string * list string) :=
  [ ("nodes", map node_key (nodes self));
    ("losses", map (fun l => module_key (loss_base l)) (losses self));
    ("metrics", map (fun m => module_key (metric_base m)) (metrics self));
    ("visualizers", map module_key (visualizers self)) ].

(** The message of the [ValueError] that [check_unique_names] raises. *)
Definition duplicate_name_error (n section : string) : exception :=
  ValueError ("Duplicate name `" +:+ n +:+ "` in `" +:+ section +:+ "` section.").

(** *** [ExportConfig.check_values] *)

(** What [scale_values] or [mean_values] can hold: the field is declared
    [list[float] | None]; the helper also looks for a bare float. *)
Inductive values_t : Type :=
| ValuesNone
| ValuesFloat (x : pyfloat)
| ValuesList (l : list pyfloat).

(** The nested helper.  It has a [return] for [None] and one for a float; a
    list falls off the end of the function, which returns [None]. *)
Definition pad_values (values : values_t) : values_t :=
  match values with
  | ValuesNone => ValuesNone
  | ValuesFloat x => ValuesList (replicate 3 x)
  | ValuesList _ => ValuesNone
  end.

Record ExportValues : Type := {
  scale_values : values_t;
  mean_values : values_t
}.

Definition check_values (self : ExportValues) : ExportValues :=
  {| scale_values := pad_values (scale_values self);
     mean_values := pad_values (mean_values self) |}.

(** A field that holds what its annotation declares. *)
Definition as_declared (v : values_t) : Prop :=
  match v with
  | ValuesFloat _ => False
  | _ => True
  end.

(** ** More of [LuxonisModel.__init__] *)

Section AttachedModules.

Context {M : Type}.

(** The call of the module class on the configured parameters and the node,
    which can raise; whether a registry knows a module type; the keys of
    [self.nodes]. *)
Variable build : AttachedModuleConfig -> result M.
Variable registered : string -> bool.
Variable node_names : list string.

(** [self.losses], [self.metrics], ...: node name to module name to module. *)
Definition storage_t : Type := dict (dict M).

(** [storage[node_name][module_name]] *)
Definition storage_get (storage : storage_t) (node_name module_name : string)
  : option M :=
  d ← dict_get storage node_name; dict_get d module_name.

(** [storage[node_name][module_name] = module] on a [defaultdict(dict)]. *)
Definition storage_set (storage : storage_t) (node_name module_name : string)
    (module : M) : storage_t :=
  dict_set storage node_name
    (dict_set (default [] (dict_get storage node_name)) module_name module).

(** [_init_attached_module] *)
Definition init_attached_module (cfg : AttachedModuleConfig)
    (storage : storage_t) : result (string * string * storage_t) :=
  if negb (registered (am_name cfg)) then raise (KeyError (am_name cfg))
  else
    let module_name := module_key cfg in
    let node_name := am_attached_to cfg in
    if negb (str_in node_name node_names) then raise (KeyError node_name)
    else
      let* module := build cfg in
      ok (module_name, node_name,
          storage_set storage node_name module_name module).

(** The loop over [self.cfg.model.losses]: [_init_attached_module] into
    [self.losses], then the assignment to [self.loss_weights]. *)
Fixpoint init_losses (cfgs : list LossModuleConfig) (storage : storage_t)
    (loss_weights : gmap string pyfloat)
  : result (storage_t * gmap string pyfloat) :=
  match cfgs with
  | [] => ok (storage, loss_weights)
  | loss_cfg :: rest =>
      let* r := init_attached_module (loss_base loss_cfg) storage in
      let loss_name := r.1.1 in
      init_losses rest r.2 (<[loss_name := weight loss_cfg]> loss_weights)
  end.

(** The first loop over [self.cfg.model.metrics], which also settles
    [self.main_metric]. *)
Fixpoint init_metrics (cfgs : list MetricModuleConfig) (storage : storage_t)
    (main_metric : option string) : result (storage_t * option string) :=
  match cfgs with
  | [] => ok (storage, main_metric)
  | metric_cfg :: rest =>
      let* r := init_attached_module (metric_base metric_cfg) storage in
      let metric_name := r.1.1 in
      let node_name := r.1.2 in
      if is_main_metric metric_cfg then
        match main_metric with
        | Some _ =>
            raise (ValueError "Multiple main metrics defined. Only one is allowed.")
        | None =>
            init_metrics rest r.2 (Some (node_name +:+ "/" +:+ metric_name))
        end
      else init_metrics rest r.2 main_metric
  end.

(** A module that [_init_attached_module] can set up. *)
Definition initialisable (cfg : AttachedModuleConfig) : Prop :=
  registered (am_name cfg) = true
  /\ am_attached_to cfg ∈ node_names
  /\ exists module, build cfg = ok module.

End AttachedModules.

(** [f"{node_name}/{metric_name}"] for a metric configuration. *)
Definition main_metric_key (c : MetricModuleConfig) : string :=
  am_attached_to (metric_base c) +:+ "/" +:+ module_key (metric_base c).

(** The name a loss goes by: its alias, or else its type. *)
Definition loss_name_of (c : LossModuleConfig) : string :=
  module_key (loss_base c).

(** ** More on the forward pass *)

(** Whether the eviction loop that follows the visit [v] lets the name [k]
    stay: a declared output; with an input node, any name but that of its own
    batch Packet; a name that the graph lists among the inputs of a node
    still to be processed. *)
Definition keeps (graph : graph_t) (outputs_ : list string) (v : Visit)
    (k : string) : bool :=
  str_in k outputs_
  || (visit_is_input v && negb (str_in k (visit_input_names v)))
  || existsb (fun n => str_in k (preds_of graph n)) (v_unprocessed v).

(** The items of a traversal that the forward pass can work with.  With each
    node come its inputs as the graph has them, all computed by then; the
    unprocessed nodes are nodes of the graph and among them are all the nodes
    still to come, each of which comes once; and the nodes without inputs
    come before the others. *)
Fixpoint ordered_visits (graph : graph_t) (computed_before : list string)
    (visits : list Visit) : bool :=
  match visits with
  | [] => true
  | v :: rest =>
      bool_decide (v_inputs v = preds_of graph (v_node v))
      && forallb (fun p => str_in p computed_before) (v_inputs v)
      && forallb (fun n => str_in n (dict_keys graph)) (v_unprocessed v)
      && forallb (fun w => str_in (v_node w) (v_unprocessed v)
                           && negb (bool_decide (v_node w = v_node v))) rest
      && (visit_is_input v || forallb (fun w => negb (visit_is_input w)) rest)
      && ordered_visits graph (v_node v :: computed_before) rest
  end.

(** ** Epochs, averages and logged images *)

(** The exceptions of the built-in operations that only the code below can
    meet, next to those above. *)
Inductive error : Type :=
| ZeroDivisionError
| IndexError
| AssertionError
| Exn (e : exception).

Definition outcome (A : Type) : Type := (error + A)%type.

Global Instance exception_eq_dec : EqDecision exception.
Proof. solve_decision. Defined.

Global Instance error_eq_dec : EqDecision error.
Proof. solve_decision. Defined.

Definition obind {A B : Type} (m : outcome A) (k : A -> outcome B) : outcome B :=
  match m with
  | inl e => inl e
  | inr a => k a
  end.

(** [_is_train_eval_epoch]: the [and] does not evaluate the modulo when the
    interval is [-1]; Python's [%] takes the sign of the divisor, as
    [Z.modulo] does, and raises for a zero divisor. *)
Definition is_train_eval_epoch (train_metrics_interval current_epoch : Z)
  : outcome bool :=
  if bool_decide (train_metrics_interval <> -1) then
    if bool_decide (train_metrics_interval = 0) then inl ZeroDivisionError
    else inr (bool_decide ((current_epoch + 1) `mod` train_metrics_interval = 0))
  else inr false.

(** The epochs of a run of [epochs_] epochs at which the train metrics are
    computed. *)
Definition train_eval_epochs (train_metrics_interval epochs_ : Z) : list Z :=
  filter (fun e => is_train_eval_epoch train_metrics_interval e = inr true)
         (seqZ 0 epochs_).

(** *** [_average_losses] *)

(** [0.0], the default of a [defaultdict(float)]. *)
Definition float_zero : pyfloat := S754_zero false.

(** [x / n] for a float [x] and an int [n]. *)
Definition float_div_int (x : pyfloat) (n : Z) : outcome pyfloat :=
  if bool_decide (n = 0) then inl ZeroDivisionError
  else match float_of_int n with
       | inl e => inl (Exn e)
       | inr fn => inr (SFdiv prec emax x fn)
       end.

Section AverageLosses.

Context {V : Type}.

(** [float(value)] for a logged value. *)
Variable to_float : V -> outcome pyfloat.

(** [avg_losses[key] += float(value)] on a [defaultdict(float)]. *)
Definition add_value (avg_losses : dict pyfloat) (key : string) (x : pyfloat)
  : dict pyfloat :=
  dict_set avg_losses key
    (SFadd prec emax (default float_zero (dict_get avg_losses key)) x).

Fixpoint add_step_output (step_output : dict V) (avg_losses : dict pyfloat)
  : outcome (dict pyfloat) :=
  match step_output with
  | [] => inr avg_losses
  | (key, value) :: rest =>
      obind (to_float value) (fun x =>
      add_step_output rest (add_value avg_losses key x))
  end.

Fixpoint add_step_outputs (step_outputs : list (dict V))
    (avg_losses : dict pyfloat) : outcome (dict pyfloat) :=
  match step_outputs with
  | [] => inr avg_losses
  | step_output :: rest =>
      obind (add_step_output step_output avg_losses) (add_step_outputs rest)
  end.

(** The loop [for key in avg_losses: avg_losses[key] /= len(step_outputs)]. *)
Fixpoint divide_all (keys : list string) (avg_losses : dict pyfloat) (n : Z)
  : outcome (dict pyfloat) :=
  match keys with
  | [] => inr avg_losses
  | key :: rest =>
      obind (float_div_int (default float_zero (dict_get avg_losses key)) n)
        (fun q => divide_all rest (dict_set avg_losses key q) n)
  end.

Definition average_losses (step_outputs : list (dict V))
  : outcome (dict pyfloat) :=
  obind (add_step_outputs step_outputs []) (fun avg_losses =>
  divide_all (dict_keys avg_losses) avg_losses (Z.of_nat (length step_outputs))).

(** The values logged under a key, step by step, in order. *)
Definition key_values (key : string) (step_outputs : list (dict V)) : list V :=
  (filter (fun kv => kv.1 = key) (concat step_outputs)).*2.

End AverageLosses.

(** *** The image log of [_evaluation_step] *)

Section EvaluationStep.

Context {I : Type}.

(** [f"{mode}/visualizations/{node_name}/{viz_name}/{logged_images}"] *)
Definition image_key (mode node_name viz_name : string) (logged_images : Z)
  : string :=
  mode +:+ "/visualizations/" +:+ node_name +:+ "/" +:+ viz_name +:+ "/"
  +:+ pretty logged_images.

(** A call of [self.logger.log_image]: the key, the image and the step. *)
Definition image_record : Type := (string * I * Z)%type.

(** The loop over one batch of visualizations; the [break] leaves it. *)
Fixpoint log_viz_batch (mode node_name viz_name : string)
    (num_log_images current_epoch : Z) (viz_batch : list I)
    (logged_images : Z) (log : list image_record) : Z * list image_record :=
  match viz_batch with
  | [] => (logged_images, log)
  | viz :: rest =>
      if bool_decide (num_log_images <= logged_images) then (logged_images, log)
      else
        log_viz_batch mode node_name viz_name num_log_images current_epoch rest
          (logged_images + 1)
          (log ++ [(image_key mode node_name viz_name logged_images, viz,
                    current_epoch)])
  end.

(** The loop over the visualizations of one node: every batch starts again
    from [self._logged_images]. *)
Fixpoint log_node_visualizations (mode node_name : string)
    (num_log_images current_epoch self_logged_images : Z)
    (visualizations : dict (list I))
    (logged_images : Z) (log : list image_record) : Z * list image_record :=
  match visualizations with
  | [] => (logged_images, log)
  | (viz_name, viz_batch) :: rest =>
      let r := log_viz_batch mode node_name viz_name num_log_images
                 current_epoch viz_batch self_logged_images log in
      log_node_visualizations mode node_name num_log_images current_epoch
        self_logged_images rest r.1 r.2
  end.

Fixpoint log_all_visualizations (mode : string)
    (num_log_images current_epoch self_logged_images : Z)
    (visualizations : dict (dict (list I)))
    (logged_images : Z) (log : list image_record) : Z * list image_record :=
  match visualizations with
  | [] => (logged_images, log)
  | (node_name, node_visualizations) :: rest =>
      let r := log_node_visualizations mode node_name num_log_images
                 current_epoch self_logged_images node_visualizations
                 logged_images log in
      log_all_visualizations mode num_log_images current_epoch
        self_logged_images rest r.1 r.2
  end.

(** The part of [_evaluation_step] that logs the visualizations: the new
    [self._logged_images] and the images logged. *)
Definition log_visualizations (mode : string)
    (num_log_images current_epoch self_logged_images : Z)
    (visualizations : dict (dict (list I))) : Z * list image_record :=
  log_all_visualizations mode num_log_images current_epoch self_logged_images
    visualizations self_logged_images [].

(** The batches of all visualizations, in iteration order. *)
Definition all_batches (visualizations : dict (dict (list I)))
  : list (string * string * list I) :=
  concat (map (fun nv => map (fun vb => (nv.1, vb.1, vb.2)) nv.2) visualizations).

(** What one batch contributes to the log. *)
Definition batch_records (mode : string)
    (num_log_images current_epoch self_logged_images : Z)
    (b : string * string * list I) : list image_record :=
  imap (fun i viz =>
          (image_key mode b.1.1 b.1.2 (self_logged_images + Z.of_nat i), viz,
           current_epoch))
       (take (Z.to_nat (num_log_images - self_logged_images)) b.2).

End EvaluationStep.

(** ** Printing the results ([_print_results]) *)

(** The character of the string ["/"]. *)
Definition slash : Ascii.ascii :=
  Ascii.Ascii true true true true false true false false.

(** [s.split(sep)] for a separator of one character. *)
Fixpoint split_on (sep : Ascii.ascii) (s : string) : list string :=
  match s with
  | EmptyString => [""]
  | String c s' =>
      if decide (c = sep) then "" :: split_on sep s'
      else match split_on sep s' with
           | [] => [String c ""]
           | part :: parts => String c part :: parts
           end
  end.

(** The character occurs in the string. *)
Fixpoint has_char (c : Ascii.ascii) (s : string) : bool :=
  match s with
  | EmptyString => false
  | String c' s' => bool_decide (c' = c) || has_char c s'
  end.

Section PrintResults.

Context {F : Type}.

(** [f"{x:.4f}"] *)
Variable fmt4 : F -> string.

(** What [_print_results] does to the outside: a line for the logger, or the
    call of the progress bar. *)
Inductive print_event : Type :=
| LoggerInfo (msg : string)
| ProgressBarResults (stage : string) (loss : F) (metrics : dict (dict F)).

(** The lines of the plain listing of the metrics. *)
Definition metric_lines (stage : string) (metrics : dict (dict F))
  : list print_event :=
  concat (map (fun nm =>
    map (fun mv => LoggerInfo (stage +:+ " metric: " +:+ nm.1 +:+ "/" +:+ mv.1
                               +:+ ": " +:+ fmt4 mv.2)) nm.2) metrics).

(** [main_metric_node, main_metric_name = self.main_metric.split("/")];
    [metrics[main_metric_node][main_metric_name]].  The [metrics] that
    [_evaluation_epoch_end] hands over is a [defaultdict(dict)]: a node it
    does not hold is answered with a new empty dictionary, so the look-up
    that can fail is the one of the metric name. *)
Definition main_metric_value (main_metric : string) (metrics : dict (dict F))
  : result F :=
  match split_on slash main_metric with
  | [main_metric_node; main_metric_name] =>
      let node_metrics := default [] (dict_get metrics main_metric_node) in
      dict_item node_metrics main_metric_name
  | [] | [_] =>
      raise (ValueError "not enough values to unpack (expected 2, got 1)")
  | _ => raise (ValueError "too many values to unpack (expected 2)")
  end.

(** [_print_results]: what has been printed, and how the call ends. *)
Definition print_results (use_rich_text : bool) (main_metric : option string)
    (stage : string) (loss : F) (metrics : dict (dict F))
  : list print_event * result unit :=
  let printed1 := [LoggerInfo (stage +:+ " loss: " +:+ fmt4 loss)] in
  let printed2 :=
    if use_rich_text then printed1 ++ [ProgressBarResults stage loss metrics]
    else printed1 ++ metric_lines stage metrics in
  match main_metric with
  | None => (printed2, ok tt)
  | Some mm =>
      match main_metric_value mm metrics with
      | inl e => (printed2, raise e)
      | inr value =>
          (printed2 ++ [LoggerInfo (stage +:+ " main metric (" +:+ mm +:+ "): "
                                    +:+ fmt4 value)],
           ok tt)
      end
  end.

End PrintResults.

(** ** Command-line overrides ([Core.__init__]) *)

Section Overrides.

Context {V : Type}.

(** A string of the command line as a value of the overrides. *)
Variable of_str : string -> V.

(** [opts]: [None], a dictionary, or a list or tuple of strings. *)
Inductive opts_t : Type :=
| OptsNone
| OptsDict (d : dict V)
| OptsSeq (l : list string).

(** The loop [for i in range(0, len(opts), 2): overrides[opts[i]] = opts[i + 1]]
    for a sequence of even length. *)
Fixpoint override_pairs (opts : list string) (overrides : dict V) : dict V :=
  match opts with
  | key :: value :: rest => override_pairs rest (dict_set overrides key (of_str value))
  | _ => overrides
  end.

(** The overrides that [Core.__init__] hands to [Config.get_config]. *)
Definition parse_overrides (opts : opts_t) : result (dict V) :=
  match opts with
  | OptsNone => ok []
  | OptsDict d => ok d
  | OptsSeq [] => ok []
  | OptsSeq l =>
      if bool_decide (length l `mod` 2 <> 0)%nat then
        raise (ValueError "Override options should be a list of key-value pairs")
      else ok (override_pairs l [])
  end.

(** Key-value pairs laid out as the command line has them. *)
Definition flatten_pairs (items : list (string * string)) : list string :=
  concat (map (fun kv => [kv.1; kv.2]) items).

End Overrides.

Arguments opts_t : clear implicits.
Arguments print_event : clear implicits.

(** ** Node set-up ([_initiate_nodes]) *)

Section InitiateNodes.

Context {T N : Type}.

(** [torch.zeros] for a size; [get_shape_packet], imported from
    [luxonis_train.utils.general]; the call of the node class registered for
    a node on the shapes of its inputs (with the model's other arguments);
    [node.run]. *)
Variable zeros : Size -> T.
Variable get_shape_packet : Packet T -> Packet Size.
Variable construct : string -> list (Packet Size) -> result N.
Variable run_node : N -> list (Packet T) -> result (Packet T).

(** [torch.zeros(2, *shape[1:])] *)
Definition dummy_tensor (shape : Size) : T := zeros (2 :: tail shape).

(** The initial [dummy_outputs]. *)
Definition initial_dummy_outputs (input_shapes : dict (list Size))
  : dict (Packet T) :=
  dict_of_items
    (map (fun ns => (input_key ns.1, [("features", map dummy_tensor ns.2)]))
         input_shapes).

(** One iteration of the loop over [traverse_graph]. *)
Definition initiate_step (state : dict (Packet T) * dict N) (v : Visit)
  : result (dict (Packet T) * dict N) :=
  let dummy_outputs := state.1 in
  let initiated_nodes := state.2 in
  let node_input_names := visit_input_names v in
  let* node_dummy_inputs := lookup_all dummy_outputs node_input_names in
  let node_input_shapes := map get_shape_packet node_dummy_inputs in
  let* node := construct (v_node v) node_input_shapes in
  let* node_outputs := run_node node node_dummy_inputs in
  ok (dict_set dummy_outputs (v_node v) node_outputs,
      dict_set initiated_nodes (v_node v) node).

Fixpoint initiate_loop (state : dict (Packet T) * dict N) (visits : list Visit)
  : result (dict (Packet T) * dict N) :=
  match visits with
  | [] => ok state
  | v :: rest =>
      let* state' := initiate_step state v in
      initiate_loop state' rest
  end.

(** [_initiate_nodes], given the items that the traversal yields. *)
Definition initiate_nodes (input_shapes : dict (list Size))
    (visits : list Visit) : result (dict N) :=
  let* state := initiate_loop (initial_dummy_outputs input_shapes, []) visits in
  ok state.2.

End InitiateNodes.

(** Every node is visited after the nodes it takes its inputs from. *)
Fixpoint inputs_before (computed_before : list string) (visits : list Visit)
  : bool :=
  match visits with
  | [] => true
  | v :: rest =>
      forallb (fun p => str_in p computed_before) (v_inputs v)
      && inputs_before (v_node v :: computed_before) rest
  end.

(** ** A metric that raises ([LuxonisModel.compute_metrics]) *)

(** A metric whose [compute()] has run and whose [reset()] has not. *)
Definition computed_metric {T S : Type} (m : Metric T S) : Metric T S :=
  with_state m (m_compute m (m_state m)).2.

(** The metrics of a model after a run that stopped at [metric_name] of
    [node_name]: [before] are the nodes iterated earlier, [ms_before] the
    earlier metrics of the node. *)
Definition stopped_at {T S : Type} (before : dict (dict (Metric T S)))
    (node_name : string) (ms_before : dict (Metric T S))
    (metric_name : string) (metric : Metric T S)
    (ms_after : dict (Metric T S)) (after : dict (dict (Metric T S)))
  : dict (dict (Metric T S)) :=
  reset_all before
  ++ (node_name,
      map (fun km => (km.1, reset_metric km.2)) ms_before
      ++ (metric_name, computed_metric metric) :: ms_after)
  :: after.

(** ** Sample configurations *)

(** A detection model with a frozen backbone, neck and head. *)
Definition demo_frozen_nodes : list ModelNodeConfig :=
  [ {| name := "EfficientRep"; alias := Some "backbone"; inputs := [];
       loader_inputs := ["image"];
       freezing := {| active := true;
                      unfreeze_after := UnfreezeFloat (float_ratio 29 100) |} |};
    {| name := "RepPANNeck"; alias := None; inputs := ["backbone"];
       loader_inputs := [];
       freezing := {| active := true; unfreeze_after := UnfreezeInt 7 |} |};
    {| name := "EfficientBBoxHead"; alias := Some "head";
       inputs := ["RepPANNeck"]; loader_inputs := [];
       freezing := {| active := true; unfreeze_after := UnfreezeNone |} |};
    {| name := "SegmentationHead"; alias := None;
       inputs := ["RepPANNeck"]; loader_inputs := [];
       freezing := FreezingConfig_default |} ].

Definition demo_in_shape : dict Size := [("image", [1; 3; 256; 256])].

Definition demo_init_state : InitState :=
  {| st_frozen_nodes := [("backbone", 28); ("RepPANNeck", 7); ("head", 100)];
     st_nodes := ["backbone"; "RepPANNeck"; "head"; "SegmentationHead"];
     st_input_shapes := [("backbone", [[1; 3; 256; 256]])];
     st_graph :=
       [("backbone", []); ("RepPANNeck", ["backbone"]);
        ("head", ["RepPANNeck"]); ("SegmentationHead", ["RepPANNeck"])] |}.

Definition mk_node (name_ : string) (inputs_ : list string) : ModelNodeConfig :=
  {| name := name_; alias := None; inputs := inputs_; loader_inputs := [];
     freezing := FreezingConfig_default |}.

Definition mk_model (nodes_ : list ModelNodeConfig) (outputs__ : list string)
  : ModelConfig :=
  {| model_name := "model"; weights := None; nodes := nodes_; losses := [];
     metrics := []; visualizers := []; outputs := outputs__ |}.

(** Two nodes that feed each other. *)
Definition demo_cyclic : ModelConfig :=
  mk_model [mk_node "A" ["B"]; mk_node "B" ["A"]] [].

(** The diamond of the specification: [{A: [], B: [A], C: [A], D: [B, C]}]. *)
Definition demo_diamond : ModelConfig :=
  mk_model [mk_node "A" []; mk_node "B" ["A"]; mk_node "C" ["A"];
            mk_node "D" ["B"; "C"]] [].

(** A model with two input nodes.  Only [head] is declared an output;
    [depth_encoder] feeds no other node. *)
Definition demo_two_inputs : list ModelNodeConfig :=
  [ {| name := "rgb_encoder"; alias := None; inputs := [];
       loader_inputs := ["rgb"]; freezing := FreezingConfig_default |};
    {| name := "depth_encoder"; alias := None; inputs := [];
       loader_inputs := ["depth"]; freezing := FreezingConfig_default |};
    {| name := "head"; alias := None; inputs := ["rgb_encoder"];
       loader_inputs := []; freezing := FreezingConfig_default |} ].

Definition demo_two_graph : graph_t := graph_of_nodes demo_two_inputs.

Definition demo_two_shapes : dict (list Size) :=
  [("rgb_encoder", [[1; 3; 64; 64]]); ("depth_encoder", [[1; 1; 64; 64]])].

(** Tensors that only carry a label, and nodes that label what they produce. *)
Definition demo_run (node_name : string) (_ : list (Packet string))
  : result (Packet string) :=
  ok [("features", [node_name +:+ ".out"])].

Definition demo_attached (_ : string) (_ : Packet string) : result unit := ok tt.

Definition demo_batch : dict string := [("rgb", "rgb.in"); ("depth", "depth.in")].

Definition demo_two_visits : list Visit :=
  [ {| v_node := "rgb_encoder"; v_inputs := [];
       v_unprocessed := ["depth_encoder"; "head"] |};
    {| v_node := "depth_encoder"; v_inputs := []; v_unprocessed := ["head"] |};
    {| v_node := "head"; v_inputs := ["rgb_encoder"]; v_unprocessed := [] |} ].

(** The outputs of a model with a detection head and a segmentation head. *)
Definition demo_outputs : dict (Packet string) :=
  [ ("seg_head", [("segmentation", ["mask"])]);
    ("bbox_head", [("features", ["f0"; "f1"]); ("boxes", ["b0"])]) ].

(** The same outputs, gathered in another order. *)
Definition demo_outputs_reordered : dict (Packet string) :=
  [ ("bbox_head", [("boxes", ["b0"]); ("features", ["f0"; "f1"])]);
    ("seg_head", [("segmentation", ["mask"])]) ].

(** Two metrics on one node.  The accumulator counts the updates; [compute]
    reports it, alone or with a submetric. *)
Definition demo_accuracy (updates : nat) : Metric Z nat :=
  {| m_state := updates;
     m_compute := fun s => (PyTensor (Z.of_nat s), s);
     m_reset := fun _ => 0%nat |}.

Definition demo_map (updates : nat) : Metric Z nat :=
  {| m_state := updates;
     m_compute := fun s =>
       (PyTuple [PyTensor (Z.of_nat s); PyDict {["mAP50" := 2 * Z.of_nat s]}], s);
     m_reset := fun _ => 0%nat |}.

(** A metric that breaks the contract: a bare Python float. *)
Definition demo_bare_number (updates : nat) : Metric Z nat :=
  {| m_state := updates;
     m_compute := fun s => (PyFloat (float_lit (Z.of_nat s) 0), s);
     m_reset := fun _ => 0%nat |}.

Definition demo_metrics : dict (dict (Metric Z nat)) :=
  [("head", [("accuracy", demo_accuracy 3); ("mAP", demo_map 4)])].

(** The accuracy together with the metric that breaks the contract. *)
Definition demo_unreset_metrics : dict (dict (Metric Z nat)) :=
  [("head", [("accuracy", demo_accuracy 3); ("count", demo_bare_number 2)])].

(** Tensors for the examples: flat sequences of binary64 numbers.  In-place
    addition and multiplication work element by element (a one-element
    right operand is broadcast); [copy_] succeeds when the sizes agree. *)
Definition demo_tensor : Type := list pyfloat.

Global Instance demo_tensor_ops : TensorOps demo_tensor := {|
  t_zeros := [S754_zero false];
  t_iadd := fun a b =>
    match b with
    | [y] => map (fun x => SFadd prec emax x y) a
    | _ => zip_with (SFadd prec emax) a b
    end;
  t_imul := fun a w => map (fun x => SFmul prec emax x w) a;
  t_copy := fun dst src =>
    if decide (length src = length dst) then Some src else None
|}.

(** [fl z] is the float [z.0]. *)
Definition fl (z : Z) : pyfloat := float_lit z 0.

(** A model with three parameters and a checkpoint that fits only in part:
    one entry has another shape, one belongs to a layer that is gone, and
    [head.bias] was never saved. *)
Definition demo_state_dict : dict tid :=
  [("backbone.weight", 0%nat); ("head.weight", 1%nat); ("head.bias", 2%nat)].

Definition demo_heap : heap demo_tensor :=
  fun t =>
    match t with
    | 0%nat => [fl 1; fl 1]
    | 1%nat => [fl 2]
    | _ => [fl 0]
    end.

Definition demo_saved : dict demo_tensor :=
  [("backbone.weight", [fl 5; fl 6]); ("head.weight", [fl 7; fl 8]);
   ("old.layer", [fl 9])].

Definition demo_torch_load (path : string) : checkpoint_t demo_tensor :=
  if decide (path = "model.ckpt") then
    [("epoch", CkOther); ("state_dict", CkStateDict demo_saved)]
  else [("epoch", CkOther)].

(** A model whose encoder and decoder share one weight tensor, and a
    checkpoint that has it under the name of the encoder only. *)
Definition demo_tied_state_dict : dict tid :=
  [("encoder.weight", 0%nat); ("decoder.weight", 0%nat)].

Definition demo_tied_load (path : string) : checkpoint_t demo_tensor :=
  [("state_dict", CkStateDict [("encoder.weight", [fl 7; fl 8])])].

(** One loss with a subloss on node [head], weighted by 2.0; the loss tensor
    holds 3.0 and the subloss tensor 5.0. *)
Definition demo_loss_weights : gmap string pyfloat := {["bbox" := fl 2]}.

Definition demo_losses : losses_dict_t :=
  [("head", [("bbox", LossTuple 0%nat [("iou", 1%nat)])])].

Definition demo_loss_heap : heap demo_tensor :=
  fun t => match t with 0%nat => [fl 3] | _ => [fl 5] end.

(** The same loss with the default weight 1.0. *)
Definition demo_unit_weights : gmap string pyfloat := {["bbox" := float_one]}.

(** One tensor, holding 3.0, that is the loss under two names. *)
Definition demo_shared_weights : gmap string pyfloat :=
  {["bbox" := fl 2; "cls" := fl 3]}.

Definition demo_shared_losses : losses_dict_t :=
  [("head", [("bbox", LossTensor 0%nat); ("cls", LossTensor 0%nat)])].

(** The diamond with [D] as its output, and the items of its traversal. *)
Definition demo_diamond_graph : graph_t := graph_of_nodes (nodes demo_diamond).

Definition demo_diamond_cfgs : list ModelNodeConfig :=
  [ {| name := "A"; alias := None; inputs := []; loader_inputs := ["rgb"];
       freezing := FreezingConfig_default |};
    mk_node "B" ["A"]; mk_node "C" ["A"]; mk_node "D" ["B"; "C"] ].

Definition demo_diamond_visits : list Visit :=
  [ {| v_node := "A"; v_inputs := []; v_unprocessed := ["B"; "C"; "D"] |};
    {| v_node := "B"; v_inputs := ["A"]; v_unprocessed := ["C"; "D"] |};
    {| v_node := "C"; v_inputs := ["A"]; v_unprocessed := ["D"] |};
    {| v_node := "D"; v_inputs := ["B"; "C"]; v_unprocessed := [] |} ].

(** ** More sample configurations *)

(** Two losses under the same name. *)
Definition demo_duplicate_loss : ModelConfig :=
  {| model_name := "model"; weights := None; nodes := [mk_node "A" []];
     losses :=
       [ LossModuleConfig_default
           {| am_name := "bbox"; am_attached_to := "A"; am_alias := None |};
         LossModuleConfig_default
           {| am_name := "cls"; am_attached_to := "A"; am_alias := None |};
         LossModuleConfig_default
           {| am_name := "BboxLoss"; am_attached_to := "A";
              am_alias := Some "bbox" |} ];
     metrics := []; visualizers := []; outputs := [] |}.

(** [scale_values: [255.0, 255.0, 255.0]], no [mean_values]. *)
Definition demo_export_values : ExportValues :=
  {| scale_values := ValuesList [fl 255; fl 255; fl 255];
     mean_values := ValuesNone |}.

(** Two losses attached to [head], one of them under an alias and with a
    weight of its own. *)
Definition demo_loss_cfgs : list LossModuleConfig :=
  [ {| loss_base := {| am_name := "BboxLoss"; am_attached_to := "head";
                       am_alias := Some "bbox" |};
       weight := fl 2 |};
    LossModuleConfig_default
      {| am_name := "ClsLoss"; am_attached_to := "head"; am_alias := None |} ].

Definition demo_init_weights : gmap string pyfloat :=
  <["ClsLoss" := float_one]> (<["bbox" := fl 2]> ∅).

(** Modules that are just the name of their class. *)
Definition demo_build (cfg : AttachedModuleConfig) : result string :=
  ok (am_name cfg).

(** Two metrics on [head]; the mean average precision is the main one. *)
Definition demo_metric_cfgs : list MetricModuleConfig :=
  [ {| metric_base := {| am_name := "Accuracy"; am_attached_to := "head";
                         am_alias := Some "acc" |};
       is_main_metric := false |};
    {| metric_base := {| am_name := "MeanAveragePrecision";
                         am_attached_to := "head"; am_alias := Some "mAP" |};
       is_main_metric := true |} ].

(** The items that follow the backbone in the traversal of the detection
    model. *)
Definition demo_frozen_visits : list Visit :=
  [ {| v_node := "RepPANNeck"; v_inputs := ["backbone"];
       v_unprocessed := ["head"; "SegmentationHead"] |};
    {| v_node := "head"; v_inputs := ["RepPANNeck"];
       v_unprocessed := ["SegmentationHead"] |};
    {| v_node := "SegmentationHead"; v_inputs := ["RepPANNeck"];
       v_unprocessed := [] |} ].

(** A bounding-box loss with a configured weight and a classification loss
    without one. *)
Definition demo_two_losses : losses_dict_t :=
  [("head", [("bbox", LossTensor 0%nat); ("cls", LossTensor 1%nat)])].

(** The outputs of two validation steps; the second has no bounding-box
    loss. *)
Definition demo_step_outputs : list (dict pyfloat) :=
  [ [("loss", fl 3); ("loss/head/bbox", fl 1)];
    [("loss", fl 1)] ].

Definition demo_average : dict pyfloat :=
  [("loss", fl 2); ("loss/head/bbox", float_ratio 1 2)].

(** Two visualizers on [head], each with a batch of two images (images that
    only carry a label). *)
Definition demo_visualizations : dict (dict (list string)) :=
  [("head", [("bbox", ["bbox.0"; "bbox.1"]);
             ("keypoints", ["kpt.0"; "kpt.1"])])].

(** Two metrics on [head] that both report under [mAP50]: the mean average
    precision among its submetrics, and another metric registered under that
    very name. *)
Definition demo_clashing_metrics : dict (dict (Metric Z nat)) :=
  [("head", [("mAP", demo_map 4); ("mAP50", demo_accuracy 3)])].

Definition demo_clashing_results : results_t Z :=
  {["head" := {["mAP" := 4; "mAP50" := 3]}]}.

(** A model whose second input node [C] is declared after [B], a node with a
    predecessor. *)
Definition demo_late_cfgs : list ModelNodeConfig :=
  [ {| name := "A"; alias := None; inputs := []; loader_inputs := ["rgb"];
       freezing := FreezingConfig_default |};
    mk_node "B" ["A"];
    {| name := "C"; alias := None; inputs := []; loader_inputs := ["depth"];
       freezing := FreezingConfig_default |};
    mk_node "D" ["B"; "C"] ].

Definition demo_late_graph : graph_t := graph_of_nodes demo_late_cfgs.

Definition demo_late_shapes : dict (list Size) :=
  [("A", [[1; 3; 64; 64]]); ("C", [[1; 1; 64; 64]])].

Definition demo_late_visits : list Visit :=
  [ {| v_node := "A"; v_inputs := []; v_unprocessed := ["B"; "C"; "D"] |};
    {| v_node := "B"; v_inputs := ["A"]; v_unprocessed := ["C"; "D"] |};
    {| v_node := "C"; v_inputs := []; v_unprocessed := ["D"] |};
    {| v_node := "D"; v_inputs := ["B"; "C"]; v_unprocessed := [] |} ].

(** Nodes that are just their name and label what they produce. *)
Definition demo_construct (node_name : string) (_ : list (Packet Size))
  : result string := ok node_name.

Definition demo_run_node (node : string) (_ : list (Packet string))
  : result (Packet string) :=
  ok [("features", [node +:+ ".out"])].

(** Two input nodes of the same type, told apart by their aliases. *)
Definition demo_same_type_nodes : list ModelNodeConfig :=
  [ {| name := "ResNet"; alias := Some "rgb_encoder"; inputs := [];
       loader_inputs := ["rgb"]; freezing := FreezingConfig_default |};
    {| name := "ResNet"; alias := Some "depth_encoder"; inputs := [];
       loader_inputs := ["depth"]; freezing := FreezingConfig_default |} ].

(** A model whose second metric breaks the contract. *)
Definition demo_broken_metrics : dict (dict (Metric Z nat)) :=
  [("head", [("accuracy", demo_accuracy 3); ("count", demo_bare_number 2);
             ("mAP", demo_map 4)]);
   ("seg", [("mIoU", demo_accuracy 5)])].

(** [self.losses] after the two losses of [demo_loss_cfgs] have been set
    up. *)
Definition demo_loss_storage : dict (dict string) :=
  [("head", [("bbox", "BboxLoss"); ("ClsLoss", "ClsLoss")])].

(** * Properties *)

(** ** Results *)

Lemma rbind_ok {A B : Type} (m : result A) (k : A -> result B) (b : B) :
  rbind m k = inr b -> exists a, m = inr a /\ k a = inr b.
Proof. destruct m as [e|a]; simpl; [discriminate | eauto]. Qed.

Lemma rbind_err {A B : Type} (m : result A) (k : A -> result B) (e : exception) :
  rbind m k = inl e -> m = inl e \/ exists a, m = inr a /\ k a = inl e.
Proof. destruct m as [e'|a]; simpl; [intros [= ->]; by left | eauto]. Qed.

(** ** Floats and the integer part *)

Lemma shiftl_pos_as_Q (m : positive) (e : Z) :
  Z.shiftl (Z.pos m) e =
  Qfloor (if 0 <=? e then inject_Z (Z.pos m * 2 ^ e)
          else Qmake (Z.pos m) (Z.to_pos (2 ^ (- e)))).
Proof.
  destruct (Z.leb_spec 0 e) as [He|He].
  - rewrite Qfloor_Z. by rewrite Z.shiftl_mul_pow2.
  - unfold Qfloor. rewrite Z2Pos.id by (apply Z.pow_pos_nonneg; lia).
    rewrite <- Z.shiftr_div_pow2 by lia.
    rewrite <- Z.shiftr_opp_r. f_equal.
Qed.

Lemma float_magnitude_pos (m : positive) (e : Z) :
  (0 < (if 0 <=? e then inject_Z (Z.pos m * 2 ^ e)
        else Qmake (Z.pos m) (Z.to_pos (2 ^ (- e)))))%Q.
Proof.
  destruct (Z.leb_spec 0 e) as [He|He].
  - unfold Qlt, inject_Z. cbn [Qnum Qden].
    assert (0 < 2 ^ e) by (apply Z.pow_pos_nonneg; lia). nia.
  - unfold Qlt; simpl. lia.
Qed.

(** [int(x)] is the integer part of the number that [x] stands for. *)
Lemma int_of_float_trunc (x : pyfloat) (z : Z) :
  int_of_float x = ok z -> z = Q_trunc (Q_of_float x).
Proof.
  destruct x as [s|s| |s m e]; simpl; try discriminate.
  - intros [= <-]. reflexivity.
  - intros [= <-]. unfold Q_trunc.
    pose proof (float_magnitude_pos m e) as Hpos.
    pose proof (shiftl_pos_as_Q m e) as Hfl.
    set (a := if 0 <=? e then _ else _) in *.
    destruct s; simpl.
    + assert (Qle_bool 0 (- a) = false) as ->.
      { apply not_true_is_false. rewrite Qle_bool_iff.
        intros Hle. apply Qopp_le_compat in Hle.
        rewrite Qopp_opp in Hle. change (- 0)%Q with 0%Q in Hle.
        apply (Qlt_not_le _ _ Hpos Hle). }
      unfold Qceiling. rewrite Qopp_opp. by rewrite Hfl.
    + assert (Qle_bool 0 a = true) as ->.
      { rewrite Qle_bool_iff. by apply Qlt_le_weak. }
      exact Hfl.
Qed.

(** ** The Frozen-Node Schedule *)

Lemma unfreeze_epoch_ok (epochs_ : Z) (c : ModelNodeConfig) (e : Z) :
  unfreeze_epoch epochs_ (freezing c) = ok e ->
  frozen_entry_ok epochs_ c (node_key c, e).
Proof.
  unfold unfreeze_epoch, frozen_entry_ok. intros He. split; [done|].
  destruct (unfreeze_after (freezing c)) as [|n|x]; simpl in *.
  - by injection He.
  - by injection He.
  - apply rbind_ok in He as (p & Hp & He).
    unfold float_mul_int in Hp. apply rbind_ok in Hp as (fe & Hfe & Hp).
    injection Hp as <-.
    exists fe. split; [done|]. by apply int_of_float_trunc.
Qed.

Lemma init_nodes_frozen registered epochs_ shape cfgs :
  forall st st',
    init_nodes registered epochs_ shape st cfgs = ok st' ->
    exists new,
      st_frozen_nodes st' = st_frozen_nodes st ++ new /\
      Forall2 (frozen_entry_ok epochs_) (filter is_active cfgs) new.
Proof.
  induction cfgs as [|c cfgs IH]; intros st st' Hrun; simpl in Hrun.
  - injection Hrun as <-. exists []. rewrite app_nil_r. split; [done|constructor].
  - apply rbind_ok in Hrun as (st1 & Hnode & Hrest).
    apply IH in Hrest as (new & Heq & Hall).
    unfold init_node in Hnode.
    destruct (negb (registered (name c))); [discriminate|].
    apply rbind_ok in Hnode as (frozen & Hfrozen & Hnode).
    apply rbind_ok in Hnode as (shapes & _ & Hnode).
    injection Hnode as <-. simpl in Heq.
    destruct (active (freezing c)) eqn:Hact.
    + apply rbind_ok in Hfrozen as (e & He & Hfrozen).
      injection Hfrozen as <-.
      exists ((node_key c, e) :: new). rewrite Heq, <- app_assoc. split; [done|].
      rewrite filter_cons, decide_True by exact Hact.
      constructor; [by apply unfreeze_epoch_ok | done].
    + injection Hfrozen as <-. exists new. split; [done|].
      rewrite filter_cons, decide_False; [done|].
      unfold is_active. by rewrite Hact.
Qed.

(** C10.  For every node whose freeze spec is active, the epoch recorded in
    the Frozen-Node Schedule is the configured [unfreeze_after] when it is an
    integer, the integer part of [unfreeze_after] times the configured epochs
    when it is a float, and the configured epochs when it is [None]; the
    schedule has one entry per active node, in declaration order, and none
    for an inactive node. *)
Theorem frozen_schedule_epochs registered epochs_ shape cfgs st :
  init_nodes registered epochs_ shape init_state0 cfgs = ok st ->
  Forall2 (frozen_entry_ok epochs_) (filter is_active cfgs) (st_frozen_nodes st).
Proof.
  intros Hrun. apply init_nodes_frozen in Hrun as (new & Heq & Hall).
  simpl in Heq. by rewrite Heq.
Qed.

Lemma frozen_schedule_epochs_witness :
  Forall2 (frozen_entry_ok 100) (filter is_active demo_frozen_nodes)
    [("backbone", 28); ("RepPANNeck", 7); ("head", 100)].
Proof.
  apply (frozen_schedule_epochs (fun _ => true) 100 demo_in_shape
           demo_frozen_nodes demo_init_state).
  vm_compute. reflexivity.
Defined.

(** [int(0.29 * 100)] is 28, not 29: the product is rounded before it is
    truncated. *)
Example unfreeze_epoch_rounds_then_truncates :
  unfreeze_epoch 100 {| active := true;
                        unfreeze_after := UnfreezeFloat (float_ratio 29 100) |}
  = ok 28.
Proof. vm_compute. reflexivity. Qed.

Example unfreeze_epoch_half :
  unfreeze_epoch 100 {| active := true;
                        unfreeze_after := UnfreezeFloat (float_lit 1 (-1)) |}
  = ok 50.
Proof. vm_compute. reflexivity. Qed.

(** The freezing branch returns for every integer and for [None], and for a
    float whenever the product is a finite number. *)
Lemma unfreeze_epoch_total (epochs_ : Z) (f : FreezingConfig) :
  match unfreeze_after f with
  | UnfreezeNone => unfreeze_epoch epochs_ f = ok epochs_
  | UnfreezeInt n => unfreeze_epoch epochs_ f = ok n
  | UnfreezeFloat x =>
      forall fe s m e,
        float_of_int epochs_ = ok fe ->
        SFmul prec emax x fe = S754_finite s m e ->
        unfreeze_epoch epochs_ f = ok (cond_Zopp s (Z.shiftl (Z.pos m) e))
  end.
Proof.
  unfold unfreeze_epoch. destruct (unfreeze_after f) as [|n|x]; try done.
  intros fe s m e Hfe Hmul. unfold float_mul_int. rewrite Hfe. simpl.
  by rewrite Hmul.
Qed.

(** ** Dictionaries *)

Lemma dict_get_Some_key {V : Type} (d : dict V) (k : string) (v : V) :
  dict_get d k = Some v -> k ∈ dict_keys d.
Proof.
  induction d as [|[k' v'] d IH]; simpl; [discriminate|].
  destruct (decide (k' = k)) as [->|Hne]; intros Hget.
  - apply elem_of_cons. by left.
  - apply elem_of_cons. right. by apply IH.
Qed.

Lemma dict_get_None_key {V : Type} (d : dict V) (k : string) :
  dict_get d k = None <-> k ∉ dict_keys d.
Proof.
  induction d as [|[k' v'] d IH]; simpl.
  - split; [intros _; apply not_elem_of_nil | done].
  - rewrite not_elem_of_cons. destruct (decide (k' = k)) as [->|Hne].
    + split; [discriminate | intros [? _]; done].
    + rewrite IH. split; [intros ?; split; [congruence | done] | by intros [_ ?]].
Qed.

Lemma dict_get_elem {V : Type} (d : dict V) (k : string) (v : V) :
  NoDup (dict_keys d) -> (k, v) ∈ d -> dict_get d k = Some v.
Proof.
  induction d as [|[k' v'] d IH]; simpl; intros Hnd Hin.
  - by apply elem_of_nil in Hin.
  - apply NoDup_cons in Hnd as [Hk' Hnd].
    apply elem_of_cons in Hin as [[= <- <-]|Hin].
    + by rewrite decide_True.
    + rewrite decide_False; [by apply IH|].
      intros ->. apply Hk'. apply list_elem_of_fmap. by exists (k, v).
Qed.

Lemma dict_set_fresh {V : Type} (d : dict V) (k : string) (v : V) :
  k ∉ dict_keys d -> dict_set d k v = d ++ [(k, v)].
Proof.
  induction d as [|[k' v'] d IH]; simpl; [done|].
  rewrite not_elem_of_cons. intros [Hne Hk].
  rewrite decide_False by congruence. by rewrite IH.
Qed.

Lemma dict_of_items_NoDup_acc {V : Type} (items acc : dict V) :
  NoDup (dict_keys (acc ++ items)) ->
  fold_left (fun d kv => dict_set d kv.1 kv.2) items acc = acc ++ items.
Proof.
  revert acc. induction items as [|[k v] items IH]; intros acc Hnd; simpl.
  - by rewrite app_nil_r.
  - rewrite dict_set_fresh.
    + rewrite IH; rewrite <- app_assoc; done.
    + unfold dict_keys in Hnd. rewrite fmap_app in Hnd.
      apply NoDup_app in Hnd as (_ & Hdisj & _).
      intros Hin. apply (Hdisj k Hin). simpl. apply elem_of_cons. by left.
Qed.

Lemma dict_of_items_NoDup {V : Type} (items : dict V) :
  NoDup (dict_keys items) -> dict_of_items items = items.
Proof. intros Hnd. unfold dict_of_items. by rewrite dict_of_items_NoDup_acc. Qed.

Lemma str_in_true (k : string) (l : list string) : str_in k l = true <-> k ∈ l.
Proof. unfold str_in. apply bool_decide_eq_true. Qed.

Lemma str_in_false (k : string) (l : list string) : str_in k l = false <-> k ∉ l.
Proof. unfold str_in. apply bool_decide_eq_false. Qed.

(** ** Cycles *)

Lemma walk_tc g l a b : walk g l a b -> tc (edge g) a b.
Proof.
  induction 1 as [a b Hab|a c b l Hac _ IH].
  - by apply tc_once.
  - by eapply tc_l.
Qed.

Lemma tc_walk g a b : tc (edge g) a b -> exists l, walk g l a b.
Proof.
  induction 1 as [a b Hab|a c b Hac _ [l IH]].
  - exists [a]. by constructor.
  - exists (a :: l). by econstructor.
Qed.

Lemma walk_from g l a b :
  walk g l a b -> forall x, x ∈ l ->
  exists l1 l2, l = l1 ++ x :: l2 /\ walk g (x :: l2) x b.
Proof.
  induction 1 as [a b Hab|a c b l Hac Hw IH]; intros x Hx.
  - apply list_elem_of_singleton in Hx as ->.
    exists [], []. split; [done | by constructor].
  - apply elem_of_cons in Hx as [->|Hx].
    + exists [], l. split; [done | by econstructor].
    + destruct (IH x Hx) as (l1 & l2 & -> & Hw').
      exists (a :: l1), l2. split; done.
Qed.

Lemma walk_simple g l a b :
  walk g l a b -> exists l', walk g l' a b /\ NoDup l' /\ l' ⊆ l.
Proof.
  induction 1 as [a b Hab|a c b l Hac Hw (l' & Hw' & Hnd & Hsub)].
  - exists [a]. split; [by constructor|]. split; [|done].
    apply NoDup_singleton.
  - destruct (decide (a ∈ l')) as [Hin|Hnin].
    + destruct (walk_from _ _ _ _ Hw' a Hin) as (l1 & l2 & -> & Hw'').
      exists (a :: l2). split; [done|]. split.
      * by apply NoDup_app in Hnd as (_ & _ & ?).
      * intros x Hx. apply elem_of_cons. right. apply Hsub.
        apply elem_of_app. by right.
    + exists (a :: l'). split; [by econstructor|]. split.
      * by apply NoDup_cons.
      * intros x Hx. apply elem_of_cons in Hx as [->|Hx]; apply elem_of_cons;
          [by left | right; by apply Hsub].
Qed.

Lemma edge_source_key g a b : edge g a b -> a ∈ dict_keys g.
Proof.
  unfold edge, preds_of. destruct (dict_get g a) as [ps|] eqn:Hget; simpl.
  - intros _. by eapply dict_get_Some_key.
  - intros Hin. by apply elem_of_nil in Hin.
Qed.

Lemma walk_sources g l a b : walk g l a b -> forall x, x ∈ l -> x ∈ dict_keys g.
Proof.
  induction 1 as [a b Hab|a c b l Hac _ IH]; intros x Hx.
  - apply list_elem_of_singleton in Hx as ->. by eapply edge_source_key.
  - apply elem_of_cons in Hx as [->|Hx]; [by eapply edge_source_key | by apply IH].
Qed.

Lemma walk_reaches g l a b :
  walk g l a b -> forall fuel, (length l <= fuel)%nat -> reaches g fuel a b = true.
Proof.
  induction 1 as [a b Hab|a c b l Hac _ IH]; intros fuel Hlen;
    (destruct fuel as [|fuel]; simpl in Hlen; [lia|]); simpl;
    apply existsb_exists.
  - exists b. split; [by apply list_elem_of_In|].
    by rewrite bool_decide_eq_true_2.
  - exists c. split; [by apply list_elem_of_In|].
    rewrite IH by lia. apply orb_true_r.
Qed.

Lemma reaches_walk g fuel :
  forall a b, reaches g fuel a b = true -> exists l, walk g l a b.
Proof.
  induction fuel as [|fuel IH]; intros a b; simpl; [discriminate|].
  intros (p & Hp & Hor)%existsb_exists. apply list_elem_of_In in Hp.
  apply orb_true_iff in Hor as [Heq|Hrec].
  - apply bool_decide_eq_true in Heq as ->. exists [a]. by constructor.
  - destruct (IH _ _ Hrec) as [l Hl]. exists (a :: l). by econstructor.
Qed.

(** The bounded search decides the existence of a cycle. *)
Lemma is_acyclic_spec (g : graph_t) : is_acyclic g = true <-> ~ has_cycle g.
Proof.
  unfold is_acyclic, has_cycle. split.
  - intros Hall [n Hcyc].
    apply tc_walk in Hcyc as [l Hw].
    apply walk_simple in Hw as (l' & Hw & Hnd & _).
    assert (n ∈ dict_keys g) as Hn.
    { inversion Hw; subst; by eapply edge_source_key. }
    assert (length l' <= length g)%nat as Hlen.
    { replace (length g) with (length (dict_keys g))
        by (unfold dict_keys; apply length_fmap).
      apply submseteq_length, NoDup_submseteq; [done|].
      by apply (walk_sources _ _ _ _ Hw). }
    pose proof (walk_reaches _ _ _ _ Hw _ Hlen) as Hreach.
    rewrite forallb_forall in Hall.
    specialize (Hall n (proj1 (list_elem_of_In _ _) Hn)).
    by rewrite Hreach in Hall.
  - intros Hno. apply forallb_forall. intros n _.
    apply negb_true_iff, not_true_is_false. intros Hreach.
    apply reaches_walk in Hreach as [l Hw].
    apply Hno. exists n. by eapply walk_tc.
Qed.

Lemma is_acyclic_false (g : graph_t) : is_acyclic g = false -> has_cycle g.
Proof.
  unfold is_acyclic. induction (dict_keys g) as [|n ks IH]; simpl; [discriminate|].
  intros [Hn|Hks]%andb_false_iff; [|by apply IH].
  apply negb_false_iff, reaches_walk in Hn as [l Hw].
  exists n. by eapply walk_tc.
Qed.

(** ** Graph validation *)

Lemma derive_outputs_acc (inputs_ : list string) (ns : list ModelNodeConfig)
    (acc : list string) :
  fold_left
    (fun outs node =>
       let name_ := node_key node in
       if negb (str_in name_ inputs_) then outs ++ [name_] else outs)
    ns acc
  = acc ++ map node_key (filter (fun n => node_key n ∉ inputs_) ns).
Proof.
  revert acc. induction ns as [|n ns IH]; intros acc; simpl.
  - by rewrite app_nil_r.
  - rewrite IH, filter_cons. destruct (str_in (node_key n) inputs_) eqn:Hin; simpl.
    + apply str_in_true in Hin. by rewrite decide_False by (intros ?; done).
    + apply str_in_false in Hin. rewrite decide_True by done.
      simpl. by rewrite <- app_assoc.
Qed.

(** The derived outputs are the nodes that no node names as an input, in
    declaration order. *)
Lemma derive_outputs_filter (ns : list ModelNodeConfig) :
  derive_outputs ns
  = map node_key (filter (fun n => node_key n ∉ all_inputs ns) ns).
Proof. unfold derive_outputs. by rewrite derive_outputs_acc. Qed.

Lemma set_outputs_same (self : ModelConfig) : set_outputs self (outputs self) = self.
Proof. by destruct self. Qed.

(** What [check_graph] does, case by case. *)
Lemma check_graph_cases (acyclic : graph_t -> bool) (self : ModelConfig) :
  check_graph acyclic self =
  if acyclic (graph_of_nodes (nodes self)) then
    match nodes self, declared_or_derived self with
    | _ :: _, [] => raise (ValueError "No outputs specified.")
    | _, outs => ok (set_outputs self outs)
    end
  else raise (ValueError "Model graph is not acyclic.").
Proof.
  unfold check_graph, declared_or_derived.
  destruct (acyclic _); simpl; [|done].
  destruct (outputs self) as [|o outs] eqn:Hout; simpl.
  - generalize (derive_outputs (nodes self)). intros d.
    by destruct (nodes self), d.
  - rewrite Hout. rewrite <- Hout, set_outputs_same. by destruct (nodes self).
Qed.

Lemma check_section_NoDup (section : string) (names : list string) :
  check_section section names = ok tt <-> NoDup names.
Proof.
  unfold check_section.
  assert (forall seen, NoDup seen ->
            first_duplicate seen names = None <->
            NoDup (names ++ seen)) as Hgen.
  { induction names as [|n names IH]; intros seen Hseen; simpl; [done|].
    destruct (str_in n seen) eqn:Hin.
    - apply str_in_true in Hin. split; [discriminate|].
      intros [Hn _]%NoDup_cons. exfalso. apply Hn, elem_of_app. by right.
    - apply str_in_false in Hin. rewrite IH by (by apply NoDup_cons).
      rewrite NoDup_cons, !NoDup_app, NoDup_cons.
      setoid_rewrite elem_of_app. setoid_rewrite elem_of_cons. naive_solver. }
  specialize (Hgen [] (NoDup_nil_2)). rewrite app_nil_r in Hgen.
  rewrite <- Hgen. destruct (first_duplicate [] names); naive_solver.
Qed.

Lemma check_unique_names_nodes (self : ModelConfig) :
  check_unique_names self = ok self -> NoDup (map node_key (nodes self)).
Proof.
  unfold check_unique_names. intros Hcheck.
  apply rbind_ok in Hcheck as ([] & Hnodes & _).
  by apply check_section_NoDup in Hnodes.
Qed.

Lemma graph_of_nodes_unique (ns : list ModelNodeConfig) :
  NoDup (map node_key ns) ->
  graph_of_nodes ns = map (fun n => (node_key n, inputs n)) ns.
Proof.
  intros Hnd. unfold graph_of_nodes. apply dict_of_items_NoDup.
  unfold dict_keys. rewrite <- list_fmap_compose. exact Hnd.
Qed.

Lemma preds_of_graph_of_nodes (ns : list ModelNodeConfig) (n : ModelNodeConfig) :
  NoDup (map node_key ns) -> n ∈ ns ->
  preds_of (graph_of_nodes ns) (node_key n) = inputs n.
Proof.
  intros Hnd Hin. unfold preds_of.
  rewrite graph_of_nodes_unique by done.
  rewrite (dict_get_elem _ _ (inputs n)); [done| |].
  - unfold dict_keys. rewrite <- list_fmap_compose. exact Hnd.
  - apply list_elem_of_fmap. by exists n.
Qed.

(** In a graph without a cycle no node is its own predecessor. *)
Lemma acyclic_no_self_input (ns : list ModelNodeConfig) (n : ModelNodeConfig) :
  NoDup (map node_key ns) -> ~ has_cycle (graph_of_nodes ns) ->
  n ∈ ns -> node_key n ∉ inputs n.
Proof.
  intros Hnd Hac Hin Hself. apply Hac.
  exists (node_key n). apply tc_once. unfold edge.
  by rewrite preds_of_graph_of_nodes.
Qed.

Lemma elem_of_all_inputs (ns : list ModelNodeConfig) (k : string) :
  k ∈ all_inputs ns <-> exists m, m ∈ ns /\ k ∈ inputs m.
Proof.
  unfold all_inputs. rewrite list_elem_of_In, in_concat.
  setoid_rewrite in_map_iff. setoid_rewrite <- list_elem_of_In.
  naive_solver.
Qed.

Lemma filter_ext_in {A : Type} (P Q : A -> Prop)
    `{!forall x, Decision (P x)} `{!forall x, Decision (Q x)} (l : list A) :
  (forall x, x ∈ l -> P x <-> Q x) -> filter P l = filter Q l.
Proof.
  induction l as [|x l IH]; intros Hext; [done|].
  rewrite !filter_cons.
  assert (P x <-> Q x) as Hx by (apply Hext, elem_of_cons; by left).
  rewrite IH by (intros y Hy; apply Hext, elem_of_cons; by right).
  destruct (decide (P x)), (decide (Q x)); tauto.
Qed.

Lemma NoDup_key_inj (ns : list ModelNodeConfig) (m n : ModelNodeConfig) :
  NoDup (map node_key ns) -> m ∈ ns -> n ∈ ns -> node_key m = node_key n -> m = n.
Proof.
  induction ns as [|c ns IH]; simpl; intros Hnd Hm Hn Hkey.
  - by apply elem_of_nil in Hm.
  - apply NoDup_cons in Hnd as [Hc Hnd].
    apply elem_of_cons in Hm as [->|Hm]; apply elem_of_cons in Hn as [->|Hn].
    + done.
    + exfalso. apply Hc. rewrite Hkey. by apply list_elem_of_fmap_2.
    + exfalso. apply Hc. rewrite <- Hkey. by apply list_elem_of_fmap_2.
    + by apply IH.
Qed.

(** C6 (as the code has it).  Validation raises [ValueError] for every graph
    that contains a cycle and for every non-empty graph whose
    declared-or-derived output set is empty; for every acyclic graph with a
    non-empty declared-or-derived output set it succeeds and returns the
    configuration with those output node names. *)
Theorem check_graph_outcome (self : ModelConfig) :
  (has_cycle (graph_of_nodes (nodes self)) ->
     check_graph is_acyclic self = raise (ValueError "Model graph is not acyclic."))
  /\ (nodes self <> [] -> declared_or_derived self = [] ->
        fails_with (check_graph is_acyclic self) CValueError)
  /\ (~ has_cycle (graph_of_nodes (nodes self)) ->
        declared_or_derived self <> [] ->
        check_graph is_acyclic self
        = ok (set_outputs self (declared_or_derived self))).
Proof.
  rewrite check_graph_cases.
  destruct (is_acyclic (graph_of_nodes (nodes self))) eqn:Hac.
  - apply is_acyclic_spec in Hac. split; [done|]. split.
    + intros Hnodes ->. destruct (nodes self); [done|].
      eexists. split; [reflexivity | done].
    + intros _ Hout. destruct (declared_or_derived self); [done|].
      by destruct (nodes self).
  - apply is_acyclic_false in Hac.
    split; [done|]. split; [|done].
    intros _ _. eexists. split; [reflexivity | done].
Qed.

Lemma check_graph_outcome_witness :
  check_graph is_acyclic demo_diamond = ok (set_outputs demo_diamond ["D"])
  /\ check_graph is_acyclic demo_cyclic
     = raise (ValueError "Model graph is not acyclic.").
Proof.
  split.
  - apply (proj2 (proj2 (check_graph_outcome demo_diamond))).
    + apply is_acyclic_spec. vm_compute. reflexivity.
    + vm_compute. discriminate.
  - apply (proj1 (check_graph_outcome demo_cyclic)).
    exists "A". apply (tc_l _ "A" "B"); [|apply tc_once]; unfold edge.
    + change ("B" ∈ ["B"]). apply elem_of_cons. by left.
    + change ("A" ∈ ["A"]). apply elem_of_cons. by left.
Defined.

(** C6 as the specification words it does not hold: a graph with a cycle is
    rejected, but the exception is a [ValueError]; no path of the validator
    raises an exception of another class. *)
Lemma check_graph_cycle_not_ConfigurationError :
  has_cycle (graph_of_nodes (nodes demo_cyclic))
  /\ ~ fails_with (check_graph is_acyclic demo_cyclic) CConfigurationError.
Proof.
  split.
  - exists "A". apply (tc_l _ "A" "B"); [|apply tc_once]; unfold edge.
    + change ("B" ∈ ["B"]). apply elem_of_cons. by left.
    + change ("A" ∈ ["A"]). apply elem_of_cons. by left.
  - intros (e & Heq & Hclass). vm_compute in Heq.
    injection Heq as <-. discriminate Hclass.
Qed.

(** C8.  With no explicit output list, a configuration that passes the
    validators gets as outputs exactly the nodes, by alias-or-name, that no
    other node names as a predecessor, in declaration order.  The imported
    acyclicity check is a parameter: all that is used of it is that it
    accepts no graph with a cycle. *)
Theorem derived_outputs_are_sinks (acyclic : graph_t -> bool)
    (self self' : ModelConfig) :
  (forall g, acyclic g = true -> ~ has_cycle g) ->
  outputs self = [] ->
  check_unique_names self = ok self ->
  check_graph acyclic self = ok self' ->
  outputs self'
  = map node_key
      (filter (fun n => ~ referenced_by_other (nodes self) n) (nodes self)).
Proof.
  intros Hsound Hout Huniq Hcheck.
  apply check_unique_names_nodes in Huniq.
  rewrite check_graph_cases in Hcheck.
  destruct (acyclic (graph_of_nodes (nodes self))) eqn:Hac; [|discriminate].
  apply Hsound in Hac.
  unfold declared_or_derived in Hcheck. rewrite Hout in Hcheck.
  assert (outputs self' = derive_outputs (nodes self)) as ->.
  { destruct (nodes self), (derive_outputs _); try discriminate;
      by injection Hcheck as <-. }
  rewrite derive_outputs_filter. f_equal.
  apply filter_ext_in. intros n Hn.
  rewrite elem_of_all_inputs. unfold referenced_by_other.
  split.
  - intros Hnone (m & Hm & _ & Hin). apply Hnone. by exists m.
  - intros Hnone (m & Hm & Hin). apply Hnone. exists m.
    split; [done|]. split; [|done].
    intros Hkey. assert (m = n) as -> by by eapply NoDup_key_inj.
    by eapply acyclic_no_self_input.
Qed.

Lemma derived_outputs_are_sinks_witness :
  outputs (set_outputs demo_diamond ["D"])
  = map node_key
      (filter (fun n => ~ referenced_by_other (nodes demo_diamond) n)
              (nodes demo_diamond)).
Proof.
  apply (derived_outputs_are_sinks is_acyclic demo_diamond).
  - intros g. apply is_acyclic_spec.
  - reflexivity.
  - vm_compute. reflexivity.
  - vm_compute. reflexivity.
Defined.

(** ** More on dictionaries *)

Lemma dict_set_keys {V : Type} (d : dict V) (k : string) (v : V) :
  dict_keys (dict_set d k v)
  = if decide (k ∈ dict_keys d) then dict_keys d else dict_keys d ++ [k].
Proof.
  induction d as [|[k' v'] d IH].
  - destruct (decide (k ∈ dict_keys [])) as [Hin|_]; [|done].
    by apply elem_of_nil in Hin.
  - cbn [dict_set]. destruct (decide (k' = k)) as [->|Hne].
    + destruct (decide (k ∈ dict_keys ((k, v') :: d))) as [_|Hnin]; [done|].
      exfalso. apply Hnin, elem_of_cons. by left.
    + change (dict_keys ((k', v') :: dict_set d k v))
        with (k' :: dict_keys (dict_set d k v)).
      rewrite IH.
      change (dict_keys ((k', v') :: d)) with (k' :: dict_keys d).
      destruct (decide (k ∈ dict_keys d)) as [Hin|Hnin];
        destruct (decide (k ∈ k' :: dict_keys d)) as [Hin'|Hnin']; try done.
      * exfalso. apply Hnin', elem_of_cons. by right.
      * apply elem_of_cons in Hin' as [->|Hin']; done.
Qed.

Lemma dict_set_NoDup {V : Type} (d : dict V) (k : string) (v : V) :
  NoDup (dict_keys d) -> NoDup (dict_keys (dict_set d k v)).
Proof.
  intros Hnd. rewrite dict_set_keys. case_decide; [done|].
  apply NoDup_app. split; [done|]. split; [|apply NoDup_singleton].
  intros x Hx ->%list_elem_of_singleton. done.
Qed.

Lemma dict_of_items_keys_NoDup {V : Type} (items : list (string * V)) :
  NoDup (dict_keys (dict_of_items items)).
Proof.
  unfold dict_of_items.
  assert (forall acc : dict V, NoDup (dict_keys acc) ->
            NoDup (dict_keys (fold_left (fun d kv => dict_set d kv.1 kv.2) items acc)))
    as Hgen.
  { induction items as [|kv items IH]; intros acc Hacc; simpl; [done|].
    by apply IH, dict_set_NoDup. }
  apply Hgen. constructor.
Qed.

Lemma dict_del_keys {V : Type} (d : dict V) (k x : string) :
  NoDup (dict_keys d) ->
  x ∈ dict_keys (dict_del d k) <-> x ∈ dict_keys d /\ x <> k.
Proof.
  induction d as [|[k' v'] d IH]; simpl; intros Hnd.
  - rewrite elem_of_nil. tauto.
  - apply NoDup_cons in Hnd as [Hk' Hnd].
    destruct (decide (k' = k)) as [->|Hne]; simpl.
    + rewrite elem_of_cons. split.
      * intros Hx. split; [by right | by intros ->].
      * intros [[->|Hx] Hxk]; done.
    + rewrite !elem_of_cons, IH by done. split.
      * intros [->|[Hx Hxk]]; [split; [by left | done] | split; [by right | done]].
      * intros [[->|Hx] Hxk]; [by left | by right].
Qed.

Lemma dict_del_NoDup {V : Type} (d : dict V) (k : string) :
  NoDup (dict_keys d) -> NoDup (dict_keys (dict_del d k)).
Proof.
  induction d as [|[k' v'] d IH]; simpl; intros Hnd; [done|].
  apply NoDup_cons in Hnd as [Hk' Hnd].
  destruct (decide (k' = k)) as [->|Hne]; simpl; [done|].
  apply NoDup_cons. split; [|by apply IH].
  intros Hin. apply dict_del_keys in Hin as [Hin _]; done.
Qed.

(** ** Liveness eviction *)

Section ForwardProps.

Context {T : Type}.
Variable run : string -> list (Packet T) -> result (Packet T).
Variable attached : string -> Packet T -> result unit.
Variable graph : graph_t.
Variable outputs_ : list string.

Lemma required_by_true (k : string) (unprocessed : list string) :
  required_by graph k unprocessed = ok true ->
  exists n, n ∈ unprocessed /\ k ∈ preds_of graph n.
Proof.
  induction unprocessed as [|n rest IH]; simpl; [discriminate|].
  intros Hreq. apply rbind_ok in Hreq as (preds & Hpreds & Hreq).
  unfold dict_item in Hpreds.
  destruct (dict_get graph n) as [ps|] eqn:Hget; [|discriminate].
  injection Hpreds as ->.
  destruct (str_in k preds) eqn:Hin.
  - apply str_in_true in Hin. exists n. split; [apply elem_of_cons; by left|].
    unfold preds_of. by rewrite Hget.
  - destruct (IH Hreq) as (m & Hm & Hk). exists m.
    split; [apply elem_of_cons; by right | done].
Qed.

Lemma required_by_false (k : string) (unprocessed : list string) :
  required_by graph k unprocessed = ok false ->
  forall n, n ∈ unprocessed -> k ∉ preds_of graph n.
Proof.
  induction unprocessed as [|n rest IH]; simpl; intros Hreq m Hm.
  - by apply elem_of_nil in Hm.
  - apply rbind_ok in Hreq as (preds & Hpreds & Hreq).
    unfold dict_item in Hpreds.
    destruct (dict_get graph n) as [ps|] eqn:Hget; [|discriminate].
    injection Hpreds as ->.
    destruct (str_in k preds) eqn:Hin; [discriminate|].
    apply str_in_false in Hin.
    apply elem_of_cons in Hm as [->|Hm]; [|by apply IH].
    unfold preds_of. by rewrite Hget.
Qed.

Local Abbreviation kept := (kept_by_eviction graph outputs_).

Lemma evict_one_spec (v : Visit) (computed computed' : dict (Packet T)) (k : string) :
  NoDup (dict_keys computed) ->
  evict_one graph outputs_ (visit_is_input v) (visit_input_names v)
    (v_unprocessed v) computed k = ok computed' ->
  NoDup (dict_keys computed')
  /\ (forall x, x ∈ dict_keys computed' ->
        x ∈ dict_keys computed /\ (x = k -> kept v k))
  /\ (forall x, x ∈ dict_keys computed -> x <> k -> x ∈ dict_keys computed').
Proof.
  intros Hnd. unfold evict_one, kept_by_eviction.
  destruct (str_in k outputs_) eqn:Hout.
  { intros [= <-]. apply str_in_true in Hout. naive_solver. }
  unfold visit_input_names, visit_is_input.
  destruct (bool_decide (v_inputs v = [])) eqn:Hinp; simpl.
  - apply bool_decide_eq_true in Hinp.
    destruct (str_in k [input_key (v_node v)]) eqn:Hown; simpl.
    + intros Hreq. apply rbind_ok in Hreq as ([] & Hreq & Hres).
      * injection Hres as <-. apply required_by_true in Hreq. naive_solver.
      * injection Hres as <-. split; [by apply dict_del_NoDup|].
        split; intros x Hx.
        -- apply dict_del_keys in Hx as [Hx Hne]; [|done]. naive_solver.
        -- intros Hne. by apply dict_del_keys.
    + intros [= <-]. apply str_in_false in Hown.
      rewrite list_elem_of_singleton in Hown. naive_solver.
  - intros Hreq. apply rbind_ok in Hreq as ([] & Hreq & Hres).
    + injection Hres as <-. apply required_by_true in Hreq. naive_solver.
    + injection Hres as <-. split; [by apply dict_del_NoDup|].
      split; intros x Hx.
      * apply dict_del_keys in Hx as [Hx Hne]; [|done]. naive_solver.
      * intros Hne. by apply dict_del_keys.
Qed.

Lemma evict_loop_spec (v : Visit) (names : list string) :
  forall computed computed' : dict (Packet T),
    NoDup (dict_keys computed) ->
    evict_loop graph outputs_ (visit_is_input v) (visit_input_names v)
      (v_unprocessed v) names computed = ok computed' ->
    NoDup (dict_keys computed')
    /\ (forall x, x ∈ dict_keys computed' ->
          x ∈ dict_keys computed /\ (x ∈ names -> kept v x)).
Proof.
  induction names as [|n names IH]; simpl; intros computed computed' Hnd Hrun.
  - injection Hrun as <-. split; [done|]. intros x Hx. split; [done|].
    intros Hin. by apply elem_of_nil in Hin.
  - apply rbind_ok in Hrun as (c1 & Hone & Hrest).
    apply evict_one_spec in Hone as (Hnd1 & Hsub1 & _); [|done].
    apply IH in Hrest as (Hnd' & Hsub'); [|done].
    split; [done|]. intros x Hx.
    destruct (Hsub' x Hx) as [Hx1 Hkept].
    destruct (Hsub1 x Hx1) as [Hx0 Hkn].
    split; [done|]. intros [->|Hin]%elem_of_cons; [by apply Hkn | by apply Hkept].
Qed.

Lemma forward_step_spec (v : Visit) (computed computed' : dict (Packet T)) :
  NoDup (dict_keys computed) ->
  forward_step run attached graph outputs_ computed v = ok computed' ->
  NoDup (dict_keys computed')
  /\ (forall x, x ∈ dict_keys computed' -> kept v x).
Proof.
  intros Hnd. unfold forward_step.
  intros Hstep. apply rbind_ok in Hstep as (node_inputs & _ & Hstep).
  apply rbind_ok in Hstep as (outputs & _ & Hstep).
  apply rbind_ok in Hstep as ([] & _ & Hstep).
  apply evict_loop_spec in Hstep as (Hnd' & Hsub); [|by apply dict_set_NoDup].
  split; [done|]. intros x Hx. destruct (Hsub x Hx) as [Hx1 Hk]. by apply Hk.
Qed.

Lemma forward_trace_spec (visits : list Visit) :
  forall (computed : dict (Packet T)) v computed',
    NoDup (dict_keys computed) ->
    (v, computed') ∈ forward_trace run attached graph outputs_ computed visits ->
    forall x, x ∈ dict_keys computed' -> kept v x.
Proof.
  induction visits as [|w visits IH]; simpl; intros computed v computed' Hnd Hin.
  - by apply elem_of_nil in Hin.
  - destruct (forward_step run attached graph outputs_ computed w) as [e|c1] eqn:Hstep.
    + by apply elem_of_nil in Hin.
    + apply forward_step_spec in Hstep as (Hnd1 & Hkept); [|done].
      apply elem_of_cons in Hin as [[= -> ->]|Hin]; [done|].
      by eapply IH.
Qed.

End ForwardProps.

Lemma kept_live (graph : graph_t) (outputs_ : list string) (v : Visit)
    (k : string) :
  v_inputs v <> [] ->
  kept_by_eviction graph outputs_ v k -> live_by_spec graph outputs_ v k.
Proof.
  unfold kept_by_eviction, live_by_spec. naive_solver.
Qed.

(** C1 (as the code has it).  During every forward pass, after the eviction
    step of each node, every entry that the Computed Cache still holds is a
    declared model output, or a predecessor of a node in the list of
    unprocessed nodes, or, when the node just computed is an input node, any
    entry other than that node's own input Packet.  After the step of a node
    that has predecessors the cache therefore holds nothing but declared
    outputs and predecessors of unprocessed nodes. *)
Theorem eviction_invariant {T : Type}
    (run : string -> list (Packet T) -> result (Packet T))
    (attached : string -> Packet T -> result unit)
    (graph : graph_t) (outputs_ : list string) (input_shapes : dict (list Size))
    (node_cfgs : list ModelNodeConfig) (visits : list Visit) (inputs_ : dict T)
    (v : Visit) (computed : dict (Packet T)) (computed_name : string) :
  (v, computed)
    ∈ forward_caches run attached graph outputs_ input_shapes node_cfgs visits inputs_ ->
  computed_name ∈ dict_keys computed ->
  kept_by_eviction graph outputs_ v computed_name
  /\ (v_inputs v <> [] -> live_by_spec graph outputs_ v computed_name).
Proof.
  unfold forward_caches.
  destruct (build_input_dict input_shapes inputs_ node_cfgs []) as [e|input_dict];
    intros Hin Hk.
  - by apply elem_of_nil in Hin.
  - assert (kept_by_eviction graph outputs_ v computed_name) as Hkept.
    { eapply forward_trace_spec; [| exact Hin | exact Hk].
      unfold initial_computed. apply dict_of_items_keys_NoDup. }
    split; [done|]. intros Hne. by apply kept_live.
Qed.

Lemma eviction_invariant_witness :
  kept_by_eviction demo_two_graph ["head"]
    {| v_node := "head"; v_inputs := ["rgb_encoder"]; v_unprocessed := [] |}
    "head"
  /\ (["rgb_encoder"] <> [] ->
      live_by_spec demo_two_graph ["head"]
        {| v_node := "head"; v_inputs := ["rgb_encoder"]; v_unprocessed := [] |}
        "head").
Proof.
  apply (eviction_invariant demo_run demo_attached demo_two_graph ["head"] demo_two_shapes
           demo_two_inputs demo_two_visits demo_batch
           {| v_node := "head"; v_inputs := ["rgb_encoder"]; v_unprocessed := [] |}
           [("head", [("features", ["head.out"])])] "head").
  - vm_compute. do 2 apply list_elem_of_further. apply list_elem_of_here.
  - vm_compute. apply list_elem_of_here.
Defined.

(** The traversal of the two-input model visits the nodes in the order of
    [demo_two_visits]. *)
Example demo_two_traversal : traverse_graph demo_two_graph = ok demo_two_visits.
Proof. vm_compute. reflexivity. Qed.

(** The two-input model is a valid configuration. *)
Example demo_two_valid :
  check_graph is_acyclic (mk_model demo_two_inputs ["head"])
  = ok (mk_model demo_two_inputs ["head"])
  /\ check_unique_names (mk_model demo_two_inputs ["head"])
     = ok (mk_model demo_two_inputs ["head"]).
Proof. split; vm_compute; reflexivity. Qed.

(** C1 as the specification words it does not hold.  In the two-input model,
    after the eviction step of [depth_encoder] the cache still holds the
    output of [depth_encoder]: it is not a declared output, it is not the
    batch Packet of an input node that has yet to run (it is no batch Packet
    at all), and the only unprocessed node, [head], does not have it as a
    predecessor (no node has). *)
Lemma eviction_keeps_dead_entry :
  forward_caches demo_run demo_attached demo_two_graph ["head"] demo_two_shapes
    demo_two_inputs demo_two_visits demo_batch !! 1%nat
  = Some ({| v_node := "depth_encoder"; v_inputs := [];
             v_unprocessed := ["head"] |},
          [("rgb_encoder", [("features", ["rgb_encoder.out"])]);
           ("depth_encoder", [("features", ["depth_encoder.out"])])])
  /\ ~ live_by_spec demo_two_graph ["head"]
         {| v_node := "depth_encoder"; v_inputs := []; v_unprocessed := ["head"] |}
         "depth_encoder"
  /\ (forall n, "depth_encoder" <> input_key n)
  /\ (forall n, "depth_encoder" ∉ preds_of demo_two_graph n).
Proof.
  split; [vm_compute; reflexivity|]. split; [|split].
  - unfold live_by_spec. simpl.
    intros [Hout|[(n & Hn & _ & Hkey)|(n & Hn & Hpred)]].
    + apply list_elem_of_singleton in Hout. discriminate.
    + apply list_elem_of_singleton in Hn as ->. discriminate.
    + apply list_elem_of_singleton in Hn as ->.
      change ("depth_encoder" ∈ ["rgb_encoder"]) in Hpred.
      apply list_elem_of_singleton in Hpred. discriminate.
  - intros n. unfold input_key. simpl. discriminate.
  - intros n. unfold preds_of, demo_two_graph.
    change (graph_of_nodes demo_two_inputs)
      with [("rgb_encoder", @nil string); ("depth_encoder", []);
            ("head", ["rgb_encoder"])].
    simpl. repeat case_decide; simpl;
      rewrite ?elem_of_nil, ?list_elem_of_singleton; try tauto; discriminate.
Qed.

(** The scenario of the specification: in the diamond, the Packet of [A]
    stays cached while [B] and then [C] run and is gone once [C], its last
    consumer, has run; only [D] is left at the end. *)
Example demo_diamond_traversal :
  traverse_graph demo_diamond_graph = ok demo_diamond_visits.
Proof. vm_compute. reflexivity. Qed.

Example demo_diamond_cache_keys :
  map (fun vc => (v_node vc.1, dict_keys vc.2))
    (forward_caches demo_run demo_attached demo_diamond_graph ["D"] [("A", [[1; 3; 64; 64]])]
       demo_diamond_cfgs demo_diamond_visits demo_batch)
  = [("A", ["A"]); ("B", ["A"; "B"]); ("C", ["B"; "C"]); ("D", ["D"])].
Proof. vm_compute. reflexivity. Qed.

Example demo_diamond_forward :
  forward demo_run demo_attached demo_diamond_graph ["D"] [("A", [[1; 3; 64; 64]])]
    demo_diamond_cfgs demo_diamond_visits demo_batch
  = ok [("D", [("features", ["D.out"])])].
Proof. vm_compute. reflexivity. Qed.

(** An input node that comes after a node with predecessors finds its batch
    Packet gone: the eviction step of [B] has removed it. *)
Example demo_late_input_node :
  forward demo_run demo_attached
    [("A", []); ("B", ["A"]); ("C", []); ("D", ["B"; "C"])] ["D"]
    [("A", [[1; 3; 64; 64]]); ("C", [[1; 1; 64; 64]])]
    [ {| name := "A"; alias := None; inputs := []; loader_inputs := ["rgb"];
         freezing := FreezingConfig_default |};
      mk_node "B" ["A"];
      {| name := "C"; alias := None; inputs := []; loader_inputs := ["depth"];
         freezing := FreezingConfig_default |};
      mk_node "D" ["B"; "C"] ]
    [ {| v_node := "A"; v_inputs := []; v_unprocessed := ["B"; "C"; "D"] |};
      {| v_node := "B"; v_inputs := ["A"]; v_unprocessed := ["C"; "D"] |};
      {| v_node := "C"; v_inputs := []; v_unprocessed := ["D"] |};
      {| v_node := "D"; v_inputs := ["B"; "C"]; v_unprocessed := [] |} ]
    demo_batch
  = raise (KeyError "__C_input__").
Proof. vm_compute. reflexivity. Qed.

(** The fuel of the traversal never runs out: each step takes a node off the
    pending list, which is no longer than the fuel. *)
Lemma traverse_loop_fuel (g : graph_t) (fuel : nat) :
  forall unprocessed processed,
    (length unprocessed <= fuel)%nat ->
    traverse_loop fuel g unprocessed processed
    = traverse_loop (length unprocessed) g unprocessed processed.
Proof.
  induction fuel as [fuel IH] using lt_wf_ind.
  intros unprocessed processed Hlen.
  destruct unprocessed as [|u unprocessed]; [by destruct fuel|].
  destruct fuel as [|fuel']; [simpl in Hlen; lia|].
  cbn [traverse_loop length].
  destruct (List.find (ready g processed) (u :: unprocessed)) as [n|] eqn:Hfind;
    [|done].
  set (pending := List.filter (fun m => bool_decide (m <> n)) (u :: unprocessed)).
  assert (length pending <= length unprocessed)%nat as Hpending.
  { apply find_some in Hfind as [Hin _].
    assert (length pending < length (u :: unprocessed))%nat; [|simpl in *; lia].
    clear -Hin. subst pending.
    induction (u :: unprocessed) as [|m l IHl]; [done|].
    simpl. destruct (decide (m = n)) as [->|Hne].
    - rewrite bool_decide_eq_false_2 by (intros ?; done).
      pose proof (List.filter_length_le (fun m => bool_decide (m <> n)) l).
      simpl. lia.
    - rewrite bool_decide_eq_true_2 by done. simpl.
      destruct Hin as [?|Hin]; [done|]. specialize (IHl Hin). lia. }
  simpl in Hlen.
  rewrite (IH fuel') by lia.
  rewrite (IH (length unprocessed)) by lia. done.
Qed.

(** ** The order of exported outputs *)

Lemma ascii_compare_refl (c : Ascii.ascii) : Ascii.compare c c = Eq.
Proof. unfold Ascii.compare. apply N.compare_refl. Qed.

Lemma ascii_compare_lt_trans (a b c : Ascii.ascii) :
  Ascii.compare a b = Lt -> Ascii.compare b c = Lt -> Ascii.compare a c = Lt.
Proof.
  unfold Ascii.compare. rewrite !N.compare_lt_iff. apply N.lt_trans.
Qed.

Lemma string_compare_refl (s : string) : String.compare s s = Eq.
Proof.
  induction s as [|c s IH]; simpl; [done|]. by rewrite ascii_compare_refl.
Qed.

Lemma string_compare_lt_trans (s1 : string) :
  forall s2 s3,
    String.compare s1 s2 = Lt -> String.compare s2 s3 = Lt ->
    String.compare s1 s3 = Lt.
Proof.
  induction s1 as [|c1 s1 IH]; intros [|c2 s2] [|c3 s3]; simpl; try done.
  destruct (Ascii.compare c1 c2) eqn:H12; try done;
    destruct (Ascii.compare c2 c3) eqn:H23; try done.
  - apply Ascii.compare_eq_iff in H12 as ->. rewrite H23. apply IH.
  - apply Ascii.compare_eq_iff in H12 as ->. by rewrite H23.
  - apply Ascii.compare_eq_iff in H23 as <-. by rewrite H12.
  - by rewrite (ascii_compare_lt_trans _ _ _ H12 H23).
Qed.

Lemma out_key_compare_refl (a : out_key) : out_key_compare a a = Eq.
Proof.
  unfold out_key_compare. rewrite !string_compare_refl. apply Nat.compare_refl.
Qed.

Lemma out_key_compare_eq (a b : out_key) : out_key_compare a b = Eq -> a = b.
Proof.
  destruct a as [[n1 o1] i1], b as [[n2 o2] i2]. unfold out_key_compare. simpl.
  destruct (String.compare n1 n2) eqn:Hn; try done.
  destruct (String.compare o1 o2) eqn:Ho; try done.
  intros Hi. apply String.compare_eq_iff in Hn, Ho.
  apply Nat.compare_eq in Hi. by subst.
Qed.

Lemma out_key_compare_antisym (a b : out_key) :
  out_key_compare b a = CompOpp (out_key_compare a b).
Proof.
  destruct a as [[n1 o1] i1], b as [[n2 o2] i2]. unfold out_key_compare. simpl.
  rewrite (String.compare_antisym n2 n1), (String.compare_antisym o2 o1),
    (Nat.compare_antisym i1 i2).
  destruct (String.compare n1 n2); simpl; try done.
  destruct (String.compare o1 o2); simpl; done.
Qed.

Lemma out_key_compare_lt_trans (a b c : out_key) :
  out_key_compare a b = Lt -> out_key_compare b c = Lt -> out_key_compare a c = Lt.
Proof.
  destruct a as [[n1 o1] i1], b as [[n2 o2] i2], c as [[n3 o3] i3].
  unfold out_key_compare. simpl.
  destruct (String.compare n1 n2) eqn:Hn12; try done;
    destruct (String.compare n2 n3) eqn:Hn23; try done.
  - apply String.compare_eq_iff in Hn12 as ->, Hn23 as ->.
    rewrite string_compare_refl.
    destruct (String.compare o1 o2) eqn:Ho12; try done;
      destruct (String.compare o2 o3) eqn:Ho23; try done.
    + apply String.compare_eq_iff in Ho12 as ->, Ho23 as ->.
      rewrite string_compare_refl, !Nat.compare_lt_iff. lia.
    + apply String.compare_eq_iff in Ho12 as ->. by rewrite Ho23.
    + apply String.compare_eq_iff in Ho23 as <-. by rewrite Ho12.
    + by rewrite (string_compare_lt_trans _ _ _ Ho12 Ho23).
  - apply String.compare_eq_iff in Hn12 as ->. by rewrite Hn23.
  - apply String.compare_eq_iff in Hn23 as <-. by rewrite Hn12.
  - by rewrite (string_compare_lt_trans _ _ _ Hn12 Hn23).
Qed.

Global Instance out_key_le_total : Total out_key_le.
Proof.
  intros a b. unfold out_key_le. rewrite (out_key_compare_antisym a b).
  destruct (out_key_compare a b); simpl; [left|left|right]; done.
Qed.

Global Instance out_key_le_trans : Transitive out_key_le.
Proof.
  intros a b c. unfold out_key_le.
  destruct (out_key_compare a b) eqn:Hab; [| |done].
  - apply out_key_compare_eq in Hab as ->. done.
  - destruct (out_key_compare b c) eqn:Hbc; [| |done].
    + apply out_key_compare_eq in Hbc as <-. by rewrite Hab.
    + by rewrite (out_key_compare_lt_trans _ _ _ Hab Hbc).
Qed.

Global Instance out_key_le_antisym : AntiSymm (=) out_key_le.
Proof.
  intros a b. unfold out_key_le. rewrite (out_key_compare_antisym a b).
  destruct (out_key_compare a b) eqn:Hab; simpl; try done.
  intros _ _. by apply out_key_compare_eq.
Qed.

Section ExportProps.

Context {T : Type}.

Lemma elem_of_enumerate_outputs (outputs : dict (Packet T)) (k : out_key) :
  k ∈ enumerate_outputs outputs <->
  exists packet out,
    (k.1.1, packet) ∈ outputs /\ (k.1.2, out) ∈ packet /\ (k.2 < length out)%nat.
Proof.
  unfold enumerate_outputs. rewrite list_elem_of_In, in_concat.
  destruct k as [[n o] i]. simpl. split.
  - intros (l & Hl & Hk). apply in_map_iff in Hl as ([n' packet] & <- & Hno).
    apply in_concat in Hk as (l' & Hl' & Hk).
    apply in_map_iff in Hl' as ([o' out] & <- & Hso).
    apply in_map_iff in Hk as (i' & [= -> -> ->] & Hi).
    apply in_seq in Hi. simpl in *.
    exists packet, out.
    split; [by apply list_elem_of_In|]. split; [by apply list_elem_of_In|lia].
  - intros (packet & out & Hno & Hso & Hi).
    apply list_elem_of_In in Hno. apply list_elem_of_In in Hso.
    eexists. split.
    { apply in_map_iff. exists (n, packet). split; [reflexivity|done]. }
    apply in_concat. eexists. split.
    { apply in_map_iff. exists (o, out). split; [reflexivity|done]. }
    apply in_map_iff. exists i. split; [done|]. apply in_seq. simpl. lia.
Qed.


End ExportProps.


Example demo_output_order :
  output_order demo_outputs
  = [("bbox_head", "boxes", 0%nat); ("bbox_head", "features", 0%nat);
     ("bbox_head", "features", 1%nat); ("seg_head", "segmentation", 0%nat)].
Proof. vm_compute. reflexivity. Qed.

Example demo_output_names :
  export_onnx None demo_outputs
  = ["bbox_head/boxes/0"; "bbox_head/features/0"; "bbox_head/features/1";
     "seg_head/segmentation/0"].
Proof. vm_compute. reflexivity. Qed.

Example demo_export_forward :
  export_forward demo_outputs (output_order demo_outputs)
  = ok ["b0"; "f0"; "f1"; "mask"].
Proof. vm_compute. reflexivity. Qed.

(** The tensors that the exported forward returns are those of the triples,
    in the order of the triples. *)
Lemma export_forward_order {T : Type} (outputs : dict (Packet T))
    (order : list out_key) :
  forall ts,
    export_forward outputs order = ok ts ->
    Forall2 (fun k t => output_tensor outputs k = ok t) order ts.
Proof.
  induction order as [|k order IH]; intros ts; simpl.
  - intros [= <-]. constructor.
  - intros Hrun. apply rbind_ok in Hrun as (t & Ht & Hrun).
    apply rbind_ok in Hrun as (ts' & Hts & Hrun). injection Hrun as <-.
    constructor; [done | by apply IH].
Qed.

(** ** Metric normalisation *)

Section MetricProps.

Context {T S : Type}.

Lemma match_computed_spec (metric_name : string) (r : pyval T) :
  match normalized_spec metric_name r with
  | Some flat => match_computed metric_name r = ok flat
  | None => fails_with (match_computed metric_name r) CValueError
  end.
Proof.
  assert (forall msg : string, fails_with (A := gmap string T)
            (raise (ValueError msg)) CValueError) as Hfail.
  { intros msg. eexists. split; [reflexivity | done]. }
  destruct r as [v|d|items|items|z|x|s|]; simpl; try done; try apply Hfail.
  - destruct items as [|[v|?|?|?|?|?|?|] [|[?|sub|?|?|?|?|?|] [|? ?]]]; simpl;
      try done; apply Hfail.
  - destruct items as [|[v|?|?|?|?|?|?|] [|[?|sub|?|?|?|?|?|] [|? ?]]]; simpl;
      try done; apply Hfail.
Qed.

Lemma normalizable_spec (metric_name : string) (r : pyval T) :
  normalizable r = true <-> is_Some (normalized_spec metric_name r).
Proof.
  destruct r as [v|d|items|items|z|x|s|]; simpl;
    try (split; [done | by intros [? ?]]); try (split; [eauto | done]).
  - destruct items as [|[v|?|?|?|?|?|?|] [|[?|sub|?|?|?|?|?|] [|? ?]]]; simpl;
      try (split; [done | by intros [? ?]]); (split; [eauto | done]).
  - destruct items as [|[v|?|?|?|?|?|?|] [|[?|sub|?|?|?|?|?|] [|? ?]]]; simpl;
      try (split; [done | by intros [? ?]]); (split; [eauto | done]).
Qed.

Lemma compute_node_metrics_ok (node_name : string) (ms : dict (Metric T S)) :
  forall metric_results,
    Forall (fun km => normalizable (computed_value km.2) = true) ms ->
    compute_node_metrics node_name ms metric_results
    = (ok (merged_results (map (fun km => (node_name, km.1, km.2)) ms)
             metric_results),
       map (fun km => (km.1, reset_metric km.2)) ms).
Proof.
  induction ms as [|[metric_name metric] ms IH]; intros res Hall; [done|].
  apply Forall_cons in Hall as [Hm Hall]. simpl in Hm.
  cbn [compute_node_metrics]. unfold computed_value in Hm.
  destruct (m_compute metric (m_state metric)) as [r s1] eqn:Hc. simpl in Hm.
  apply (normalizable_spec metric_name) in Hm as [flat Hflat].
  pose proof (match_computed_spec metric_name r) as Hmatch.
  rewrite Hflat in Hmatch. rewrite Hmatch.
  rewrite IH by done. simpl. unfold merged_results at 2. simpl.
  unfold computed_value, reset_metric. rewrite Hc. simpl. by rewrite Hflat.
Qed.

Lemma compute_node_metrics_err (node_name : string) (ms : dict (Metric T S)) :
  forall metric_results,
    Exists (fun km => normalizable (computed_value km.2) = false) ms ->
    fails_with (compute_node_metrics node_name ms metric_results).1 CValueError.
Proof.
  induction ms as [|[metric_name metric] ms IH]; intros res Hex.
  { by apply Exists_nil in Hex. }
  cbn [compute_node_metrics].
  destruct (m_compute metric (m_state metric)) as [r s1] eqn:Hc.
  pose proof (match_computed_spec metric_name r) as Hmatch.
  destruct (normalized_spec metric_name r) as [flat|] eqn:Hflat.
  - rewrite Hmatch. apply Exists_cons in Hex as [Hm|Hex].
    + exfalso. simpl in Hm. unfold computed_value in Hm.
      rewrite Hc in Hm. simpl in Hm.
      apply not_true_iff_false in Hm. apply Hm.
      apply (normalizable_spec metric_name). by rewrite Hflat.
    + specialize (IH (merge_results res node_name flat) Hex).
      by destruct (compute_node_metrics _ _ _).
  - destruct Hmatch as (e & -> & He). simpl. by exists e.
Qed.

Lemma compute_metrics_loop_ok (METRICS : dict (dict (Metric T S))) :
  forall metric_results,
    Forall (fun x => normalizable (computed_value x.2) = true)
           (all_metrics METRICS) ->
    compute_metrics_loop METRICS metric_results
    = (ok (merged_results (all_metrics METRICS) metric_results),
       reset_all METRICS).
Proof.
  induction METRICS as [|[node_name ms] rest IH]; intros res Hall; [done|].
  unfold all_metrics in Hall. simpl in Hall.
  apply Forall_app in Hall as [Hms Hrest].
  cbn [compute_metrics_loop].
  rewrite compute_node_metrics_ok by (by rewrite Forall_fmap in Hms).
  rewrite IH by done. simpl. f_equal. f_equal.
  unfold all_metrics, merged_results. simpl. by rewrite fold_left_app.
Qed.

Lemma compute_metrics_loop_err (METRICS : dict (dict (Metric T S))) :
  forall metric_results,
    Exists (fun x => normalizable (computed_value x.2) = false)
           (all_metrics METRICS) ->
    fails_with (compute_metrics_loop METRICS metric_results).1 CValueError.
Proof.
  induction METRICS as [|[node_name ms] rest IH]; intros res Hex.
  { by apply Exists_nil in Hex. }
  unfold all_metrics in Hex. simpl in Hex.
  cbn [compute_metrics_loop].
  destruct (decide (Forall (fun km => normalizable (computed_value km.2) = true) ms))
    as [Hall|Hnall].
  - rewrite compute_node_metrics_ok by done.
    apply Exists_app in Hex as [Hex|Hex].
    + exfalso. rewrite Exists_fmap in Hex. simpl in Hex.
      apply Exists_exists in Hex as (km & Hkm & Hfalse).
      rewrite Forall_forall in Hall. specialize (Hall km Hkm).
      simpl in Hfalse, Hall. congruence.
    + specialize (IH (merged_results (map (fun km => (node_name, km.1, km.2)) ms) res) Hex).
      by destruct (compute_metrics_loop rest _).
  - apply not_Forall_Exists in Hnall; [|intros x; apply _].
    assert (Exists (fun km => normalizable (computed_value km.2) = false) ms) as Hms.
    { eapply Exists_impl; [exact Hnall|]. intros km Hkm. simpl in Hkm.
      by apply not_true_is_false. }
    pose proof (compute_node_metrics_err node_name ms res Hms) as Herr.
    destruct (compute_node_metrics node_name ms res) as [[e|r] ms'];
      simpl in *; [done|].
    by destruct Herr as (e & ? & _).
Qed.

Lemma match_computed_unexpected (metric_name : string) (r : pyval T) :
  normalizable r = false ->
  match_computed metric_name r
  = raise (ValueError ("Metric " +:+ metric_name
                       +:+ " returned unexpected value of type "
                       +:+ type_repr r +:+ ".")).
Proof.
  destruct r as [v|d|items|items|z|x|s|]; simpl; try done.
  - by destruct items as [|[v|?|?|?|?|?|?|] [|[?|sub|?|?|?|?|?|] [|? ?]]].
  - by destruct items as [|[v|?|?|?|?|?|?|] [|[?|sub|?|?|?|?|?|] [|? ?]]].
Qed.

Lemma compute_node_metrics_stops (node_name metric_name : string)
    (metric : Metric T S) (ms_before ms_after : dict (Metric T S)) :
  forall metric_results,
    Forall (fun km => normalizable (computed_value km.2) = true) ms_before ->
    normalizable (computed_value metric) = false ->
    compute_node_metrics node_name
      (ms_before ++ (metric_name, metric) :: ms_after) metric_results
    = (raise (ValueError ("Metric " +:+ metric_name
                          +:+ " returned unexpected value of type "
                          +:+ type_repr (computed_value metric) +:+ ".")),
       map (fun km => (km.1, reset_metric km.2)) ms_before
       ++ (metric_name, computed_metric metric) :: ms_after).
Proof.
  induction ms_before as [|[k m] ms_before IH]; intros res Hall Hbad.
  - cbn [app compute_node_metrics map].
    unfold computed_value, computed_metric in *.
    destruct (m_compute metric (m_state metric)) as [r s1]. simpl in *.
    by rewrite match_computed_unexpected.
  - apply Forall_cons in Hall as [Hm Hall]. simpl in Hm.
    change ((k, m) :: ms_before ++ (metric_name, metric) :: ms_after)
      with ((k, m) :: (ms_before ++ (metric_name, metric) :: ms_after)).
    cbn [app compute_node_metrics]. unfold computed_value in Hm.
    unfold reset_metric at 1.
    destruct (m_compute m (m_state m)) as [r s1] eqn:Hc. simpl in Hm.
    apply (normalizable_spec k) in Hm as [flat Hflat].
    pose proof (match_computed_spec k r) as Hmatch.
    rewrite Hflat in Hmatch. rewrite Hmatch.
    rewrite IH by done. simpl. unfold reset_metric at 1. by rewrite Hc.
Qed.

Lemma compute_metrics_loop_stops (before after : dict (dict (Metric T S)))
    (node_name metric_name : string) (metric : Metric T S)
    (ms_before ms_after : dict (Metric T S)) :
  forall metric_results,
    Forall (fun x => normalizable (computed_value x.2) = true)
           (all_metrics before) ->
    Forall (fun km => normalizable (computed_value km.2) = true) ms_before ->
    normalizable (computed_value metric) = false ->
    compute_metrics_loop
      (before
       ++ (node_name, ms_before ++ (metric_name, metric) :: ms_after) :: after)
      metric_results
    = (raise (ValueError ("Metric " +:+ metric_name
                          +:+ " returned unexpected value of type "
                          +:+ type_repr (computed_value metric) +:+ ".")),
       stopped_at before node_name ms_before metric_name metric ms_after after).
Proof.
  induction before as [|[n ms] before IH]; intros res Hall Hms Hbad.
  - cbn [app compute_metrics_loop]. by rewrite compute_node_metrics_stops.
  - unfold all_metrics in Hall. simpl in Hall.
    apply Forall_app in Hall as [Hn Hall].
    cbn [app compute_metrics_loop].
    rewrite compute_node_metrics_ok by (by rewrite Forall_fmap in Hn).
    fold (@app (string * dict (Metric T S))).
    by rewrite IH.
Qed.

Lemma all_metrics_app (M1 M2 : dict (dict (Metric T S))) :
  all_metrics (M1 ++ M2) = all_metrics M1 ++ all_metrics M2.
Proof. unfold all_metrics. by rewrite map_app, concat_app. Qed.

Lemma metric_states_reset_all (METRICS : dict (dict (Metric T S))) :
  metric_states (reset_all METRICS)
  = map (fun x => (x.1.1, x.1.2, m_reset x.2 (m_compute x.2 (m_state x.2)).2))
      (all_metrics METRICS).
Proof.
  unfold metric_states, all_metrics, reset_all.
  induction METRICS as [|[node_name ms] rest IH]; [done|].
  simpl. rewrite !map_app, IH. f_equal.
  rewrite !map_map. by apply map_ext.
Qed.

Lemma metric_states_stopped_at (before after : dict (dict (Metric T S)))
    (node_name metric_name : string) (metric : Metric T S)
    (ms_before ms_after : dict (Metric T S)) :
  metric_states
    (stopped_at before node_name ms_before metric_name metric ms_after after)
  = map (fun x => (x.1.1, x.1.2, m_reset x.2 (m_compute x.2 (m_state x.2)).2))
      (all_metrics (before ++ [(node_name, ms_before)]))
    ++ (node_name, metric_name, (m_compute metric (m_state metric)).2)
    :: map (fun x => (x.1.1, x.1.2, m_state x.2))
         (all_metrics ((node_name, ms_after) :: after)).
Proof.
  unfold stopped_at.
  change (reset_all before ++ ?x :: after)
    with (reset_all before ++ [x] ++ after).
  unfold metric_states at 1.
  rewrite !all_metrics_app, !map_app. fold (metric_states (reset_all before)).
  rewrite metric_states_reset_all, <- !app_assoc. f_equal.
  unfold all_metrics. simpl. rewrite !app_nil_r, !map_app, !map_map.
  simpl. rewrite <- app_assoc. done.
Qed.

(** C4 (as the code has it).  For a metric named [m], the normalisation maps
    a bare tensor [v] to [{m: v}], a pair [(v, submetrics)] to [{m: v}]
    merged with [submetrics], and a bare mapping to itself; any other
    returned value raises [ValueError].  When every metric returns one of
    the three shapes, [compute_metrics] returns the merged mappings and
    leaves every metric with the state that its [reset()] makes of the state
    after its [compute()].  When a metric returns another shape, the call
    raises the [ValueError] for it; the metrics before it have been reset,
    the metric itself is left with the state after its [compute()], not
    reset, and the metrics after it have the state they had. *)
Theorem compute_metrics_normalizes (m : string) (v : T) (submetrics : gmap string T)
    (metrics_ train_metrics : dict (dict (Metric T S))) (use_train_metrics : bool) :
  match_computed m (PyTensor v) = ok {[m := v]}
  /\ match_computed m (PyTuple [PyTensor v; PyDict submetrics])
     = ok (submetrics ∪ {[m := v]})
  /\ match_computed m (PyDict submetrics) = ok submetrics
  /\ (forall r : pyval T,
        normalizable r = false -> fails_with (match_computed m r) CValueError)
  /\ let METRICS := if use_train_metrics then train_metrics else metrics_ in
     (Forall (fun x => normalizable (computed_value x.2) = true)
             (all_metrics METRICS) ->
      exists left,
        compute_metrics metrics_ train_metrics use_train_metrics
        = (ok (merged_results (all_metrics METRICS) ∅), left)
        /\ metric_states left
           = map (fun x =>
                    (x.1.1, x.1.2, m_reset x.2 (m_compute x.2 (m_state x.2)).2))
               (all_metrics METRICS))
     /\ (forall before after node_name ms_before metric_name metric ms_after,
           METRICS
           = before
             ++ (node_name, ms_before ++ (metric_name, metric) :: ms_after)
             :: after ->
           Forall (fun x => normalizable (computed_value x.2) = true)
                  (all_metrics (before ++ [(node_name, ms_before)])) ->
           normalizable (computed_value metric) = false ->
           exists e left,
             compute_metrics metrics_ train_metrics use_train_metrics
             = (raise e, left)
             /\ class_of e = CValueError
             /\ metric_states left
                = map (fun x =>
                         (x.1.1, x.1.2,
                          m_reset x.2 (m_compute x.2 (m_state x.2)).2))
                    (all_metrics (before ++ [(node_name, ms_before)]))
                  ++ (node_name, metric_name,
                      (m_compute metric (m_state metric)).2)
                  :: map (fun x => (x.1.1, x.1.2, m_state x.2))
                       (all_metrics ((node_name, ms_after) :: after))).
Proof.
  split; [done|]. split; [done|]. split; [done|]. split.
  - intros r Hr. pose proof (match_computed_spec m r) as Hspec.
    destruct (normalized_spec m r) eqn:Hn; [|done].
    exfalso. apply not_true_iff_false in Hr. apply Hr.
    apply (normalizable_spec m). by rewrite Hn.
  - unfold compute_metrics. split.
    + intros Hall. eexists. split; [by apply compute_metrics_loop_ok|].
      apply metric_states_reset_all.
    + intros before after node_name ms_before metric_name metric ms_after
        -> Hall Hbad.
      rewrite all_metrics_app in Hall. apply Forall_app in Hall as [Hbefore Hms].
      unfold all_metrics in Hms. simpl in Hms.
      rewrite app_nil_r, Forall_fmap in Hms.
      eexists _, _. split; [by apply compute_metrics_loop_stops|].
      split; [done|]. apply metric_states_stopped_at.
Qed.

End MetricProps.

Lemma compute_metrics_normalizes_witness :
  exists left,
    compute_metrics demo_metrics [] false
    = (ok (merged_results (all_metrics demo_metrics) ∅), left)
    /\ metric_states left = [("head", "accuracy", 0%nat); ("head", "mAP", 0%nat)].
Proof.
  apply (proj1 (proj2 (proj2 (proj2 (proj2
           (compute_metrics_normalizes "accuracy" 0 ∅ demo_metrics [] false)))))).
  repeat constructor.
Defined.

(** C4 as the specification words it does not hold.  The metric [count]
    returns a bare float.  Its [compute()] has run, the call raises, and the
    accumulator of [count] still holds the 2 updates that a [reset()] would
    have cleared; [accuracy], computed before it, has been reset. *)
Lemma compute_metrics_leaves_unreset :
  exists left,
    compute_metrics demo_unreset_metrics [] false
    = (raise (ValueError
         "Metric count returned unexpected value of type <class 'float'>."),
       left)
    /\ metric_states left
       = [("head", "accuracy", 0%nat); ("head", "count", 2%nat)]
    /\ m_reset (demo_bare_number 2) 2%nat = 0%nat
    /\ 2%nat <> 0%nat.
Proof.
  eexists. split; [reflexivity|]. split; [reflexivity|]. split; [reflexivity|].
  discriminate.
Qed.

Example demo_metrics_results :
  (compute_metrics demo_metrics [] false).1
  = ok {["head" := {["accuracy" := 3; "mAP" := 4; "mAP50" := 8]}]}.
Proof. vm_compute. reflexivity. Qed.

Example demo_metrics_reset :
  (compute_metrics demo_metrics [] false).2
  = [("head", [("accuracy", demo_accuracy 0); ("mAP", demo_map 0)])].
Proof. reflexivity. Qed.

(** A bare Python float is not a tensor: the call raises. *)
Example demo_bare_number_raises :
  (compute_metrics [("head", [("count", demo_bare_number 2)])] [] false).1
  = raise (ValueError
      "Metric count returned unexpected value of type <class 'float'>.").
Proof. reflexivity. Qed.

(** ** Checkpoint loading *)

Lemma dict_get_set {V : Type} (d : dict V) (k k' : string) (v : V) :
  dict_get (dict_set d k v) k' = if decide (k = k') then Some v else dict_get d k'.
Proof.
  induction d as [|[k0 v0] d IH]; simpl.
  - done.
  - destruct (decide (k0 = k)) as [->|Hne]; simpl.
    + by destruct (decide (k = k')).
    + rewrite IH. destruct (decide (k0 = k')) as [->|?]; [|done].
      by rewrite decide_False by congruence.
Qed.

Lemma dict_mem_get {V : Type} (d : dict V) (k : string) :
  dict_mem d k = false <-> dict_get d k = None.
Proof.
  unfold dict_mem. rewrite bool_decide_eq_false. symmetry.
  apply dict_get_None_key.
Qed.

Lemma heap_set_eq {T : Type} (h : heap T) (t : tid) (v : T) : heap_set h t v t = v.
Proof. unfold heap_set. by rewrite decide_True. Qed.

Lemma heap_set_ne {T : Type} (h : heap T) (t t' : tid) (v : T) :
  t' <> t -> heap_set h t v t' = h t'.
Proof. intros Hne. unfold heap_set. by rewrite decide_False. Qed.

Lemma dict_values_inj (d : dict tid) (k k' : string) (p : tid) :
  NoDup (d.*2) -> (k, p) ∈ d -> (k', p) ∈ d -> k = k'.
Proof.
  induction d as [|[k0 p0] d IH]; simpl; intros Hnd Hk Hk'.
  - by apply elem_of_nil in Hk.
  - apply NoDup_cons in Hnd as [Hp Hnd].
    apply elem_of_cons in Hk as [Hk|Hk]; apply elem_of_cons in Hk' as [Hk'|Hk'].
    + congruence.
    + exfalso. apply Hp. apply list_elem_of_fmap. exists (k', p).
      split; [by injection Hk | done].
    + exfalso. apply Hp. apply list_elem_of_fmap. exists (k, p).
      split; [by injection Hk' | done].
    + by apply IH.
Qed.

Section CheckpointProps.

Context {T : Type} `{TensorOps T}.

Lemma filter_saved_spec (self_state_dict : dict tid) (saved : dict T) :
  forall state_dict log,
    NoDup (dict_keys saved) ->
    (forall k, k ∈ dict_keys saved -> dict_get state_dict k = None) ->
    exists state_dict' log',
      filter_saved self_state_dict saved state_dict log = (state_dict', log')
      /\ (forall k,
            dict_get state_dict' k =
            match dict_get state_dict k with
            | Some v => Some v
            | None =>
                if decide (k ∈ dict_keys self_state_dict) then dict_get saved k
                else None
            end)
      /\ (forall r, r ∈ log -> r ∈ log')
      /\ (forall k, k ∈ dict_keys saved -> k ∉ dict_keys self_state_dict ->
            warn_not_in_model k ∈ log').
Proof.
  induction saved as [|[key value] saved IH]; intros sd log Hnd Hfresh.
  - exists sd, log. simpl. split; [done|]. split.
    + intros k. destruct (dict_get sd k); [done|]. by case_decide.
    + split; [done|]. intros k Hk. by apply elem_of_nil in Hk.
  - simpl in Hnd. apply NoDup_cons in Hnd as [Hkey Hnd].
    cbn [filter_saved]. unfold dict_mem.
    destruct (bool_decide (key ∈ dict_keys self_state_dict)) eqn:Hmem; simpl.
    + apply bool_decide_eq_true in Hmem.
      destruct (IH (dict_set sd key value) log Hnd) as (sd' & log' & Heq & Hget & Hlog & Hwarn).
      { intros k Hk. rewrite dict_get_set, decide_False by (intros ->; done).
        apply Hfresh. simpl. apply elem_of_cons. by right. }
      exists sd', log'. split; [done|]. split; [|split; [done|]].
      * intros k. rewrite Hget, dict_get_set. simpl.
        destruct (decide (key = k)) as [->|Hne].
        -- rewrite Hfresh by (simpl; apply elem_of_cons; by left).
           by rewrite decide_True.
        -- done.
      * intros k [->|Hk]%elem_of_cons Hnin; [done | by apply Hwarn].
    + apply bool_decide_eq_false in Hmem.
      destruct (IH sd (log ++ [warn_not_in_model key]) Hnd) as (sd' & log' & Heq & Hget & Hlog & Hwarn).
      { intros k Hk. apply Hfresh. simpl. apply elem_of_cons. by right. }
      exists sd', log'. split; [done|]. split; [|split].
      * intros k. rewrite Hget. simpl. destruct (dict_get sd k); [done|].
        destruct (decide (k ∈ dict_keys self_state_dict)) as [Hin|Hnin]; [|done].
        rewrite decide_False; [done|]. by intros ->.
      * intros r Hr. apply Hlog, elem_of_app. by left.
      * intros k [->|Hk]%elem_of_cons Hnin; [|by apply Hwarn].
        apply Hlog, elem_of_app. right. apply list_elem_of_singleton. done.
Qed.

Lemma copy_params_spec (self_state_dict : dict tid) (state_dict : dict T)
    (keys : list string) :
  forall (h : heap T) (log : list log_record),
    NoDup (dict_keys self_state_dict) ->
    NoDup (self_state_dict.*2) ->
    NoDup keys ->
    (forall k, k ∈ keys -> k ∈ dict_keys self_state_dict) ->
    exists h' log',
      copy_params self_state_dict keys state_dict h log = ok (h', log')
      /\ (forall r, r ∈ log -> r ∈ log')
      /\ (forall key param, (key, param) ∈ self_state_dict ->
            if decide (key ∈ keys)
            then param_loaded state_dict h h' log' key param
            else h' param = h param)
      /\ (forall t, t ∉ self_state_dict.*2 -> h' t = h t).
Proof.
  induction keys as [|key keys IH]; intros h log Hndk Hndv Hnd Hsub.
  - exists h, log. split; [done|]. split; [done|]. split; [|done].
    intros key param Hin. rewrite decide_False; [done | apply not_elem_of_nil].
  - apply NoDup_cons in Hnd as [Hkey Hnd].
    assert (forall k, k ∈ keys -> k ∈ dict_keys self_state_dict) as Hsub'.
    { intros k Hk. apply Hsub, elem_of_cons. by right. }
    assert (exists param, (key, param) ∈ self_state_dict) as [param Hparam].
    { specialize (Hsub key (list_elem_of_here _ _)). unfold dict_keys in Hsub.
      apply list_elem_of_fmap_1 in Hsub as ([k p] & Hk & Hin).
      simpl in Hk. subst k. by exists p. }
    assert (forall key' param', (key', param') ∈ self_state_dict ->
              key' <> key -> param' <> param) as Hdistinct.
    { intros key' param' Hin' Hne ->.
      apply Hne. by eapply dict_values_inj. }
    cbn [copy_params].
    destruct (dict_get state_dict key) as [value|] eqn:Hget.
    + unfold dict_item. rewrite (dict_get_elem _ _ _ Hndk Hparam). simpl.
      destruct (t_copy (h param) value) as [new|] eqn:Hcopy.
      * destruct (IH (heap_set h param new) log Hndk Hndv Hnd Hsub')
          as (h' & log' & Heq & Hlog & Hkeys & Hext).
        exists h', log'. split; [done|]. split; [done|]. split.
        -- intros key' param' Hin'. specialize (Hkeys key' param' Hin').
           destruct (decide (key' = key)) as [->|Hne].
           ++ assert (param' = param) as ->.
              { pose proof (dict_get_elem _ _ _ Hndk Hin') as E1.
                pose proof (dict_get_elem _ _ _ Hndk Hparam) as E2. congruence. }
              rewrite decide_True by (apply elem_of_cons; by left).
              rewrite decide_False in Hkeys by done.
              unfold param_loaded. rewrite Hget, Hcopy.
              by rewrite Hkeys, heap_set_eq.
           ++ pose proof (Hdistinct _ _ Hin' Hne) as Hp.
              destruct (decide (key' ∈ keys)) as [Hk|Hk].
              ** rewrite decide_True by (apply elem_of_cons; by right).
                 unfold param_loaded in *.
                 by rewrite heap_set_ne in Hkeys by done.
              ** rewrite decide_False
                   by (rewrite not_elem_of_cons; split; done).
                 by rewrite heap_set_ne in Hkeys by done.
        -- intros t Ht. rewrite Hext by done. apply heap_set_ne.
           intros ->. apply Ht. apply list_elem_of_fmap. by exists (key, param).
      * destruct (IH h (log ++ [warn_not_loaded key]) Hndk Hndv Hnd Hsub')
          as (h' & log' & Heq & Hlog & Hkeys & Hext).
        exists h', log'. split; [done|]. split.
        { intros r Hr. apply Hlog, elem_of_app. by left. }
        split; [|done].
        intros key' param' Hin'. specialize (Hkeys key' param' Hin').
        destruct (decide (key' = key)) as [->|Hne].
        -- assert (param' = param) as ->.
           { pose proof (dict_get_elem _ _ _ Hndk Hin') as E1.
             pose proof (dict_get_elem _ _ _ Hndk Hparam) as E2. congruence. }
           rewrite decide_True by (apply elem_of_cons; by left).
           rewrite decide_False in Hkeys by done.
           unfold param_loaded. rewrite Hget, Hcopy. split; [done|].
           apply Hlog, elem_of_app. right. by apply list_elem_of_singleton.
        -- destruct (decide (key' ∈ keys)) as [Hk|Hk].
           ++ by rewrite decide_True by (apply elem_of_cons; by right).
           ++ by rewrite decide_False
                by (rewrite not_elem_of_cons; split; done).
    + destruct (IH h (log ++ [warn_not_in_checkpoint key]) Hndk Hndv Hnd Hsub')
        as (h' & log' & Heq & Hlog & Hkeys & Hext).
      exists h', log'. split; [done|]. split.
      { intros r Hr. apply Hlog, elem_of_app. by left. }
      split; [|done].
      intros key' param' Hin'. specialize (Hkeys key' param' Hin').
      destruct (decide (key' = key)) as [->|Hne].
      * rewrite decide_True by (apply elem_of_cons; by left).
        rewrite decide_False in Hkeys by done.
        unfold param_loaded. rewrite Hget. split; [done|].
        apply Hlog, elem_of_app. right. by apply list_elem_of_singleton.
      * destruct (decide (key' ∈ keys)) as [Hk|Hk].
        -- by rewrite decide_True by (apply elem_of_cons; by right).
        -- by rewrite decide_False
             by (rewrite not_elem_of_cons; split; done).
Qed.

Lemma copy_params_err_class (self_state_dict : dict tid) (state_dict : dict T)
    (keys : list string) :
  forall (h : heap T) (log : list log_record) (e : exception),
    copy_params self_state_dict keys state_dict h log = inl e ->
    class_of e = CKeyError.
Proof.
  induction keys as [|key keys IH]; intros h log e; simpl; [discriminate|].
  destruct (dict_get state_dict key); [|apply IH].
  unfold dict_item. destruct (dict_get self_state_dict key); simpl.
  - destruct (t_copy _ _); apply IH.
  - by intros [= <-].
Qed.

End CheckpointProps.




(** The warnings of the partial load, in the order they are logged, and the
    parameters afterwards. *)
Example demo_load_log :
  match load_checkpoint demo_torch_load demo_state_dict (Some "model.ckpt")
          demo_heap with
  | inr (h', log) =>
      log = [ warn_not_in_model "old.layer";
              warn_not_loaded "head.weight";
              warn_not_in_checkpoint "head.bias";
              LogInfo "Loaded checkpoint from model.ckpt." ]
      /\ h' 0%nat = [fl 5; fl 6] /\ h' 1%nat = [fl 2] /\ h' 2%nat = [fl 0]
  | inl _ => False
  end.
Proof. vm_compute. repeat split. Qed.

Example demo_load_without_state_dict :
  load_checkpoint demo_torch_load demo_state_dict (Some "other.ckpt") demo_heap
  = raise (ValueError "Checkpoint does not contain state_dict.").
Proof. reflexivity. Qed.

Example demo_load_no_path :
  load_checkpoint demo_torch_load demo_state_dict None demo_heap
  = ok (demo_heap, []).
Proof. reflexivity. Qed.

(** ** Loss reduction *)

Section LossProps.

Context {T : Type} `{TensorOps T}.
Variable loss_weights : gmap string pyfloat.
Variable log_sub_losses_ : bool.

Local Abbreviation run_flat := (process_flat loss_weights log_sub_losses_).
Local Abbreviation run_losses := (process_losses loss_weights log_sub_losses_).
Local Abbreviation weights_of := (with_weights loss_weights).
Local Abbreviation log_of := (log_pure log_sub_losses_).

Lemma process_node_losses_flat (node_name : string) (losses_ : dict loss_value) :
  forall acc (h : heap T),
    process_node_losses loss_weights log_sub_losses_ node_name losses_ acc h
    = run_flat (map (fun kv => (node_name, kv.1, kv.2)) losses_) acc h.
Proof.
  induction losses_ as [|[loss_name lv] rest IH]; intros acc h; simpl; [done|].
  destruct (process_loss _ _ _ _ _ _ _) as [[e|acc'] h']; [done|]. apply IH.
Qed.

Lemma process_flat_app (ls1 ls2 : list (string * string * loss_value)) :
  forall acc (h : heap T),
    run_flat (ls1 ++ ls2) acc h
    = match run_flat ls1 acc h with
      | (inl e, h') => (inl e, h')
      | (inr acc', h') => run_flat ls2 acc' h'
      end.
Proof.
  induction ls1 as [|l ls1 IH]; intros acc h; simpl; [done|].
  destruct (process_loss _ _ _ _ _ _ _) as [[e|acc'] h']; [done|]. apply IH.
Qed.

Lemma process_losses_loop_flat (losses_dict : losses_dict_t) :
  forall acc (h : heap T),
    process_losses_loop loss_weights log_sub_losses_ losses_dict acc h
    = run_flat (flat_losses losses_dict) acc h.
Proof.
  induction losses_dict as [|[node_name losses_] rest IH]; intros acc h; [done|].
  unfold flat_losses. simpl. rewrite process_flat_app, process_node_losses_flat.
  destruct (run_flat _ acc h) as [[e|acc'] h']; [done|]. apply IH.
Qed.

Lemma log_sublosses_ext (h1 h2 : heap T) (prefix : string) (subs : dict tid) :
  forall out,
    (forall t, t ∈ subs.*2 -> h1 t = h2 t) ->
    log_sublosses h1 prefix subs out = log_sublosses h2 prefix subs out.
Proof.
  unfold log_sublosses.
  induction subs as [|[sn st] subs IH]; intros out Hagree; simpl; [done|].
  rewrite (Hagree st) by (simpl; apply elem_of_cons; by left).
  apply IH. intros t Ht. apply Hagree. simpl. apply elem_of_cons. by right.
Qed.

Lemma weighted_sum_ext (h1 h2 : heap T) (wl : list weighted_loss) :
  forall start,
    (forall t, t ∈ loss_tensors wl -> h1 t = h2 t) ->
    weighted_sum h1 wl start = weighted_sum h2 wl start.
Proof.
  unfold weighted_sum.
  induction wl as [|x wl IH]; intros start Hagree; simpl; [done|].
  rewrite (Hagree (wl_tensor x)) by (simpl; apply elem_of_cons; by left).
  apply IH. intros t Ht. apply Hagree. simpl. apply elem_of_cons. by right.
Qed.

Lemma subloss_tensors_cons (x : weighted_loss) (wl : list weighted_loss) (t : tid) :
  t ∈ subloss_tensors (x :: wl) <-> t ∈ (wl_sublosses x).*2 \/ t ∈ subloss_tensors wl.
Proof. unfold subloss_tensors. simpl. apply elem_of_app. Qed.

Lemma log_pure_ext (h1 h2 : heap T) (wl : list weighted_loss) :
  forall out,
    (forall t, t ∈ loss_tensors wl -> h1 t = h2 t) ->
    (forall t, t ∈ subloss_tensors wl -> h1 t = h2 t) ->
    log_of h1 wl out = log_of h2 wl out.
Proof.
  unfold log_pure.
  induction wl as [|x wl IH]; intros out Hloss Hsub; simpl; [done|].
  assert (log_entries log_sub_losses_ h1 x out = log_entries log_sub_losses_ h2 x out)
    as ->.
  { unfold log_entries.
    rewrite (Hloss (wl_tensor x)) by (simpl; apply elem_of_cons; by left).
    destruct (_ && _); [|done].
    apply log_sublosses_ext. intros t Ht. apply Hsub, subloss_tensors_cons.
    by left. }
  apply IH.
  - intros t Ht. apply Hloss. simpl. apply elem_of_cons. by right.
  - intros t Ht. apply Hsub, subloss_tensors_cons. by right.
Qed.

Lemma find_tensor_None (wl : list weighted_loss) (t : tid) :
  t ∉ loss_tensors wl ->
  List.find (fun x => bool_decide (wl_tensor x = t)) wl = None.
Proof.
  induction wl as [|x wl IH]; simpl; [done|].
  rewrite not_elem_of_cons. intros [Hne Hnin].
  rewrite bool_decide_eq_false_2 by congruence. by apply IH.
Qed.

Lemma with_weights_cons (l : string * string * loss_value)
    (ls : list (string * string * loss_value)) (wl : list weighted_loss) :
  weights_of (l :: ls) = Some wl ->
  exists w wl', loss_weights !! l.1.2 = Some w
                /\ weights_of ls = Some wl' /\ wl = (l, w) :: wl'.
Proof.
  unfold with_weights. simpl.
  destruct (loss_weights !! l.1.2) as [w|]; simpl; [|done].
  destruct (mapM _ ls) as [wl'|]; simpl; [|done].
  intros [= <-]. by exists w, wl'.
Qed.

(** The reduction, loss by loss, against its pure description. *)
Lemma process_flat_pure (ls : list (string * string * loss_value)) :
  forall wl acc (h : heap T),
    weights_of ls = Some wl ->
    NoDup (loss_tensors wl) ->
    exists out h',
      run_flat ls acc h = (ok (weighted_sum h wl acc.1, out), h')
      /\ (forall t, h' t = scale_heap h wl t)
      /\ ((forall t, t ∈ subloss_tensors wl -> t ∉ loss_tensors wl) ->
          out = log_of h wl acc.2).
Proof.
  induction ls as [|l ls IH]; intros wl acc h Hw Hnd.
  - injection Hw as <-. exists acc.2, h. simpl. by destruct acc.
  - apply with_weights_cons in Hw as (w & wl' & Hlw & Hw' & ->).
    simpl in Hnd. apply NoDup_cons in Hnd as [Ht Hnd].
    change (wl_tensor (l, w)) with (loss_tensor l.2) in Ht.
    set (t := loss_tensor l.2) in *.
    set (h1 := heap_set h t (t_imul (h t) w)).
    assert (forall t', t' ∈ loss_tensors wl' -> h1 t' = h t') as Hagree.
    { intros t' Ht'. apply heap_set_ne. by intros ->. }
    assert (h1 t = t_imul (h t) w) as Hh1t by apply heap_set_eq.
    cbn [process_flat]. unfold process_loss. rewrite Hlw. cbv zeta.
    fold t. fold h1. rewrite !Hh1t.
    match goal with
    | |- context [process_flat loss_weights log_sub_losses_ ls ?a h1] =>
        destruct (IH wl' a h1 Hw' Hnd) as (out & h' & -> & Hheap & Hlog)
    end.
    exists out, h'. split; [|split].
    + simpl. change (wl_tensor (l, w)) with t.
      by rewrite (weighted_sum_ext h1 h).
    + intros t'. rewrite Hheap. unfold scale_heap. simpl.
      change (wl_tensor (l, w)) with t.
      destruct (decide (t = t')) as [<-|Hne].
      * rewrite bool_decide_eq_true_2 by done.
        by rewrite find_tensor_None by done.
      * rewrite bool_decide_eq_false_2 by done.
        assert (h1 t' = h t') as -> by (apply heap_set_ne; congruence).
        done.
    + intros Hsep.
      assert (forall t', t' ∈ subloss_tensors ((l, w) :: wl') -> h1 t' = h t')
        as Hagree_sub.
      { intros t' Ht'. apply heap_set_ne. intros ->.
        apply (Hsep t Ht'). simpl. apply elem_of_cons. by left. }
      rewrite Hlog.
      * simpl. rewrite (log_pure_ext h1 h).
        -- f_equal. unfold log_entries. simpl.
           change (loss_tensor l.2) with t.
           destruct (_ && _); [|done].
           apply log_sublosses_ext. intros t' Ht'.
           apply Hagree_sub, subloss_tensors_cons. by left.
        -- done.
        -- intros t' Ht'. apply Hagree_sub, subloss_tensors_cons. by right.
      * intros t' Ht' Hin. apply (Hsep t').
        -- apply subloss_tensors_cons. by right.
        -- simpl. apply elem_of_cons. by right.
Qed.

Lemma process_flat_missing (ls : list (string * string * loss_value)) :
  forall acc (h : heap T),
    weights_of ls = None ->
    exists l h', l ∈ ls /\ loss_weights !! l.1.2 = None
                 /\ run_flat ls acc h = (raise (KeyError l.1.2), h').
Proof.
  induction ls as [|l ls IH]; intros acc h Hw; [done|].
  cbn [process_flat]. unfold process_loss.
  destruct (loss_weights !! l.1.2) as [w|] eqn:Hlw.
  - cbv zeta.
    match goal with
    | |- context [process_flat loss_weights log_sub_losses_ ls ?a ?h1] =>
        destruct (IH a h1) as (l' & h' & Hl' & Hnone & ->)
    end.
    + unfold with_weights in *. simpl in Hw. rewrite Hlw in Hw. simpl in Hw.
      by destruct (mapM _ ls).
    + exists l', h'. split; [apply elem_of_cons; by right | done].
  - exists l, h. split; [apply elem_of_cons; by left | done].
Qed.

Lemma process_losses_pure (losses_dict : losses_dict_t) (wl : list weighted_loss)
    (h : heap T) :
  weights_of (flat_losses losses_dict) = Some wl ->
  NoDup (loss_tensors wl) ->
  exists out h',
    run_losses losses_dict h = (ok (weighted_sum h wl t_zeros, out), h')
    /\ out !! "loss" = Some (weighted_sum h wl t_zeros)
    /\ (forall t, h' t = scale_heap h wl t)
    /\ ((forall t, t ∈ subloss_tensors wl -> t ∉ loss_tensors wl) ->
        out = <["loss" := weighted_sum h wl t_zeros]> (log_of h wl ∅)).
Proof.
  intros Hw Hnd. unfold process_losses. rewrite process_losses_loop_flat.
  destruct (process_flat_pure _ wl (t_zeros, ∅) h Hw Hnd)
    as (out & h' & -> & Hheap & Hlog).
  simpl. eexists _, h'. split; [reflexivity|]. split; [apply lookup_insert_eq|].
  split; [done|]. intros Hsep. by rewrite (Hlog Hsep).
Qed.

Lemma scale_heap_neutral (h : heap T) (wl : list weighted_loss) :
  (forall x, x ∈ wl -> t_imul (h (wl_tensor x)) x.2 = h (wl_tensor x)) ->
  forall t, scale_heap h wl t = h t.
Proof.
  intros Hneutral t. unfold scale_heap.
  destruct (List.find _ wl) as [x|] eqn:Hfind; [|done].
  apply find_some in Hfind as [Hin Heq].
  apply bool_decide_eq_true in Heq as <-.
  apply Hneutral. by apply list_elem_of_In.
Qed.

Lemma fold_insert_notin (items : list (string * T)) (k : string) :
  forall out : gmap string T,
    k ∉ items.*1 ->
    fold_left (fun o kv => <[kv.1 := kv.2]> o) items out !! k = out !! k.
Proof.
  induction items as [|[k0 v0] items IH]; intros out Hnin; simpl; [done|].
  simpl in Hnin. apply not_elem_of_cons in Hnin as [Hne Hnin].
  rewrite IH by done. by rewrite lookup_insert_ne.
Qed.

Lemma fold_insert_lookup (items : list (string * T)) (k : string) (v : T) :
  forall out : gmap string T,
    NoDup (items.*1) -> (k, v) ∈ items ->
    fold_left (fun o kv => <[kv.1 := kv.2]> o) items out !! k = Some v.
Proof.
  induction items as [|[k0 v0] items IH]; intros out Hnd Hin; simpl.
  - by apply elem_of_nil in Hin.
  - simpl in Hnd. apply NoDup_cons in Hnd as [Hk0 Hnd].
    apply elem_of_cons in Hin as [[= -> ->]|Hin].
    + rewrite fold_insert_notin by done. apply lookup_insert_eq.
    + by apply IH.
Qed.

Lemma log_sublosses_items (h : heap T) (prefix : string) (subs : dict tid) :
  forall out,
    log_sublosses h prefix subs out
    = fold_left (fun o kv => <[kv.1 := kv.2]> o)
        (map (fun kv => (prefix +:+ "/" +:+ kv.1, h kv.2)) subs) out.
Proof.
  unfold log_sublosses.
  induction subs as [|s subs IH]; intros out; simpl; [done|]. apply IH.
Qed.

Lemma log_entries_items (h : heap T) (x : weighted_loss) (out : gmap string T) :
  log_entries log_sub_losses_ h x out
  = fold_left (fun o kv => <[kv.1 := kv.2]> o) (entry_items log_sub_losses_ h x) out.
Proof.
  unfold log_entries, entry_items.
  destruct log_sub_losses_; [|done].
  destruct (wl_sublosses x) as [|s subs]; [done|].
  rewrite bool_decide_eq_false_2 by done. cbn [andb negb].
  by rewrite log_sublosses_items.
Qed.

Lemma log_pure_items (h : heap T) (wl : list weighted_loss) :
  forall out,
    log_of h wl out
    = fold_left (fun o kv => <[kv.1 := kv.2]> o) (log_items log_sub_losses_ h wl) out.
Proof.
  unfold log_pure, log_items.
  induction wl as [|x wl IH]; intros out; simpl; [done|].
  by rewrite fold_left_app, IH, log_entries_items.
Qed.

Lemma process_loss_strip (node_name loss_name : string) (lv : loss_value)
    (acc acc' : loss_acc) (h : heap T) :
  acc.1 = acc'.1 ->
  match process_loss loss_weights log_sub_losses_ node_name loss_name lv acc h,
        process_loss loss_weights log_sub_losses_ node_name loss_name
          (LossTensor (loss_tensor lv)) acc' h with
  | (inr a, h1), (inr a', h1') => a.1 = a'.1 /\ h1 = h1'
  | (inl e, h1), (inl e', h1') => e = e' /\ h1 = h1'
  | _, _ => False
  end.
Proof.
  intros Hacc. unfold process_loss. simpl.
  destruct (loss_weights !! loss_name); [|done]. simpl. by rewrite Hacc.
Qed.

Lemma process_flat_strip (ls : list (string * string * loss_value)) :
  forall (acc acc' : loss_acc) (h : heap T),
    acc.1 = acc'.1 ->
    same_total
      (run_flat ls acc h)
      (run_flat (map (fun l => (l.1, LossTensor (loss_tensor l.2))) ls) acc' h).
Proof.
  induction ls as [|l ls IH]; intros acc acc' h Hacc; [done|].
  cbn [map process_flat].
  pose proof (process_loss_strip l.1.1 l.1.2 l.2 acc acc' h Hacc) as Hstep.
  simpl.
  destruct (process_loss _ _ _ _ l.2 acc h) as [[e|a] h1];
    destruct (process_loss _ _ _ _ (LossTensor _) acc' h) as [[e'|a'] h1'];
    try done.
  - destruct Hstep as [-> ->]. done.
  - destruct Hstep as [Ha ->]. by apply IH.
Qed.

Lemma flat_losses_strip (losses_dict : losses_dict_t) :
  flat_losses (strip_sublosses losses_dict)
  = map (fun l => (l.1, LossTensor (loss_tensor l.2))) (flat_losses losses_dict).
Proof.
  unfold flat_losses, strip_sublosses.
  induction losses_dict as [|[node_name losses_] rest IH]; [done|].
  simpl. rewrite map_app, IH. f_equal.
  rewrite !map_map. done.
Qed.

Lemma process_losses_strip (losses_dict : losses_dict_t) (h : heap T) :
  same_total (run_losses losses_dict h)
             (run_losses (strip_sublosses losses_dict) h).
Proof.
  unfold process_losses. rewrite !process_losses_loop_flat, flat_losses_strip.
  pose proof (process_flat_strip (flat_losses losses_dict) (t_zeros, ∅)
                (t_zeros, ∅) h eq_refl) as [Hheap Htotal].
  destruct (run_flat (flat_losses losses_dict) _ h) as [[e|[total out]] h1];
    destruct (run_flat (map _ _) _ h) as [[e'|[total' out']] h1'];
    simpl in *; try done.
Qed.

Lemma process_flat_strip_nolog (ls : list (string * string * loss_value)) :
  forall (acc : loss_acc) (h : heap T),
    process_flat loss_weights false ls acc h
    = process_flat loss_weights false
        (map (fun l => (l.1, LossTensor (loss_tensor l.2))) ls) acc h.
Proof.
  induction ls as [|l ls IH]; intros acc h; [done|].
  cbn [map process_flat]. simpl.
  assert (process_loss loss_weights false l.1.1 l.1.2 l.2 acc h
          = process_loss loss_weights false l.1.1 l.1.2
              (LossTensor (loss_tensor l.2)) acc h) as -> by done.
  destruct (process_loss _ _ _ _ _ _ _) as [[e|a] h1]; [done|]. apply IH.
Qed.

Lemma loss_key_not_total (x : weighted_loss) (suffix : string) :
  loss_key x +:+ suffix <> "loss".
Proof. unfold loss_key. simpl. discriminate. Qed.

Lemma elem_of_log_items_loss (h : heap T) (wl : list weighted_loss)
    (x : weighted_loss) :
  x ∈ wl ->
  (loss_key x, t_imul (h (wl_tensor x)) x.2) ∈ log_items log_sub_losses_ h wl.
Proof.
  intros Hx. unfold log_items. apply list_elem_of_In, in_concat.
  exists (entry_items log_sub_losses_ h x). split.
  - apply in_map. by apply list_elem_of_In.
  - left. done.
Qed.

Lemma elem_of_log_items_subloss (h : heap T) (wl : list weighted_loss)
    (x : weighted_loss) (sn : string) (st : tid) :
  log_sub_losses_ = true -> x ∈ wl -> (sn, st) ∈ wl_sublosses x ->
  (loss_key x +:+ "/" +:+ sn, h st) ∈ log_items log_sub_losses_ h wl.
Proof.
  intros Hb Hx Hs. unfold log_items. apply list_elem_of_In, in_concat.
  exists (entry_items log_sub_losses_ h x). split.
  - apply in_map. by apply list_elem_of_In.
  - unfold entry_items. rewrite Hb. right.
    apply in_map_iff. exists (sn, st). split; [done|]. by apply list_elem_of_In.
Qed.

End LossProps.




(** [0.0 + 3.0 * 2.0] *)
Example demo_weighted_sum :
  weighted_sum demo_loss_heap
    [("head", "bbox", LossTuple 0%nat [("iou", 1%nat)], fl 2)] t_zeros
  = [fl 6].
Proof. vm_compute. reflexivity. Qed.

Example demo_process_losses_total :
  (process_losses demo_loss_weights true demo_losses demo_loss_heap).1
  = ok ([fl 6],
        {["loss" := [fl 6]; "loss/head/bbox" := [fl 6];
          "loss/head/bbox/iou" := [fl 5]]}).
Proof. vm_compute. reflexivity. Qed.

(** C2 (as the code has it).  The reduction does not change the mapping, and
    it changes no tensor but the loss tensors of the mapping: each of them is
    scaled in place by its weight ([loss *= weight]).  So a second reduction
    of the same mapping adds up the losses as the first one left them, scaled
    once more; it yields the same total when every weight leaves its loss
    unchanged (as the default weight 1.0 does for a finite loss). *)
Theorem process_losses_scales_in_place {T : Type} `{TensorOps T}
    (loss_weights : gmap string pyfloat) (log_sub_losses_ : bool)
    (losses_dict : losses_dict_t) (h : heap T) (wl : list weighted_loss) :
  with_weights loss_weights (flat_losses losses_dict) = Some wl ->
  NoDup (loss_tensors wl) ->
  exists out h',
    process_losses loss_weights log_sub_losses_ losses_dict h
    = (ok (weighted_sum h wl t_zeros, out), h')
    /\ (forall t, h' t = scale_heap h wl t)
    /\ (forall t, t ∉ loss_tensors wl -> h' t = h t)
    /\ (exists out2 h2,
          process_losses loss_weights log_sub_losses_ losses_dict h'
          = (ok (weighted_sum (scale_heap h wl) wl t_zeros, out2), h2))
    /\ ((forall x, x ∈ wl -> t_imul (h (wl_tensor x)) x.2 = h (wl_tensor x)) ->
        (forall t, h' t = h t)
        /\ weighted_sum (scale_heap h wl) wl t_zeros = weighted_sum h wl t_zeros).
Proof.
  intros Hw Hnd.
  destruct (process_losses_pure loss_weights log_sub_losses_ losses_dict wl h
              Hw Hnd) as (out & h' & Heq & _ & Hheap & _).
  exists out, h'. split; [done|]. split; [done|]. split; [|split].
  - intros t Ht. rewrite Hheap. unfold scale_heap.
    by rewrite find_tensor_None.
  - destruct (process_losses_pure loss_weights log_sub_losses_ losses_dict wl h'
                Hw Hnd) as (out2 & h2 & Heq2 & _).
    exists out2, h2. rewrite Heq2.
    by rewrite (weighted_sum_ext h' (scale_heap h wl)).
  - intros Hneutral.
    pose proof (scale_heap_neutral h wl Hneutral) as Hsame.
    split; [intros t; by rewrite Hheap|].
    apply weighted_sum_ext. intros t _. apply Hsame.
Qed.

Lemma process_losses_scales_in_place_witness :
  exists out h',
    process_losses demo_unit_weights true demo_losses demo_loss_heap
    = (ok (weighted_sum demo_loss_heap
             [("head", "bbox", LossTuple 0%nat [("iou", 1%nat)], float_one)]
             t_zeros, out), h')
    /\ (forall t, h' t = demo_loss_heap t).
Proof.
  destruct (process_losses_scales_in_place demo_unit_weights true demo_losses
              demo_loss_heap
              [("head", "bbox", LossTuple 0%nat [("iou", 1%nat)], float_one)])
    as (out & h' & Heq & _ & _ & _ & Hneutral).
  - vm_compute. reflexivity.
  - refine (bool_decide_unpack _ _). vm_compute. exact I.
  - exists out, h'. split; [exact Heq|].
    apply Hneutral. intros x Hx. apply list_elem_of_singleton in Hx as ->.
    vm_compute. reflexivity.
Defined.

(** C2 as the specification words it does not hold.  With weight 2.0 and a
    loss of 3.0, the first reduction returns 6.0 and leaves 6.0 in the loss
    tensor; the second reduction of the same mapping returns 12.0. *)
Lemma process_losses_not_idempotent :
  (process_losses demo_loss_weights true demo_losses demo_loss_heap).1
  = ok ([fl 6],
        {["loss" := [fl 6]; "loss/head/bbox" := [fl 6];
          "loss/head/bbox/iou" := [fl 5]]})
  /\ (process_losses demo_loss_weights true demo_losses
        (process_losses demo_loss_weights true demo_losses demo_loss_heap).2).1
     = ok ([fl 12],
           {["loss" := [fl 12]; "loss/head/bbox" := [fl 12];
             "loss/head/bbox/iou" := [fl 5]]})
  /\ demo_loss_heap 0%nat = [fl 3]
  /\ (process_losses demo_loss_weights true demo_losses demo_loss_heap).2 0%nat
     = [fl 6]
  /\ [fl 6] <> [fl 12].
Proof.
  split; [vm_compute; reflexivity|]. split; [vm_compute; reflexivity|].
  split; [reflexivity|]. split; [vm_compute; reflexivity|].
  vm_compute. discriminate.
Qed.

(** C3 (as the code has it).  The sublosses of a loss never contribute to the
    total: a mapping and the same mapping without its sublosses reduce to the
    same total and leave the same tensor contents.  With sub-loss logging off
    the sublosses do not show at all.  With it on, when every loss has a
    configured weight, the loss tensors are distinct objects, no subloss
    tensor is one of the loss tensors and the logging keys are distinct,
    each subloss goes to the logging mapping only, under
    [loss/node/name/subloss], with the contents of its tensor as they are;
    what is scaled by the weight is the loss itself, logged under
    [loss/node/name]. *)
Theorem sublosses_only_logged {T : Type} `{TensorOps T}
    (loss_weights : gmap string pyfloat) (log_sub_losses_ : bool)
    (losses_dict : losses_dict_t) (h : heap T) :
  same_total
    (process_losses loss_weights log_sub_losses_ losses_dict h)
    (process_losses loss_weights log_sub_losses_ (strip_sublosses losses_dict) h)
  /\ process_losses loss_weights false losses_dict h
     = process_losses loss_weights false (strip_sublosses losses_dict) h
  /\ (forall wl,
        with_weights loss_weights (flat_losses losses_dict) = Some wl ->
        separate_tensors wl ->
        NoDup ((log_items log_sub_losses_ h wl).*1) ->
        exists total out h',
          process_losses loss_weights log_sub_losses_ losses_dict h
          = (ok (total, out), h')
          /\ forall x, x ∈ wl ->
               out !! loss_key x = Some (t_imul (h (wl_tensor x)) x.2)
               /\ (log_sub_losses_ = true ->
                   forall sn st, (sn, st) ∈ wl_sublosses x ->
                     out !! (loss_key x +:+ "/" +:+ sn) = Some (h st))).
Proof.
  split; [apply process_losses_strip|]. split.
  - unfold process_losses.
    by rewrite !process_losses_loop_flat, flat_losses_strip,
      process_flat_strip_nolog.
  - intros wl Hw [Hnd Hsep] Hkeys.
    destruct (process_losses_pure loss_weights log_sub_losses_ losses_dict wl h
                Hw Hnd) as (out & h' & Heq & _ & _ & Hlog).
    exists (weighted_sum h wl t_zeros), out, h'. split; [done|].
    rewrite (Hlog Hsep), log_pure_items. intros x Hx. split.
    + rewrite lookup_insert_ne.
      * apply fold_insert_lookup; [done|]. by apply elem_of_log_items_loss.
      * unfold loss_key. simpl. discriminate.
    + intros Hb sn st Hs. rewrite lookup_insert_ne.
      * apply fold_insert_lookup; [done|]. by apply elem_of_log_items_subloss.
      * intros Heq'. by apply (loss_key_not_total x ("/" +:+ sn)).
Qed.

Lemma sublosses_only_logged_witness :
  exists total out h',
    process_losses demo_loss_weights true demo_losses demo_loss_heap
    = (ok (total, out), h')
    /\ forall x, x ∈ [("head", "bbox", LossTuple 0%nat [("iou", 1%nat)], fl 2)] ->
         out !! loss_key x = Some (t_imul (demo_loss_heap (wl_tensor x)) x.2)
         /\ (true = true ->
             forall sn st, (sn, st) ∈ wl_sublosses x ->
               out !! (loss_key x +:+ "/" +:+ sn) = Some (demo_loss_heap st)).
Proof.
  apply (proj2 (proj2 (sublosses_only_logged demo_loss_weights true demo_losses
                         demo_loss_heap))
           [("head", "bbox", LossTuple 0%nat [("iou", 1%nat)], fl 2)]).
  - vm_compute. reflexivity.
  - split.
    + refine (bool_decide_unpack _ _). vm_compute. exact I.
    + intros t Ht Hl. vm_compute in Ht, Hl.
      apply list_elem_of_singleton in Ht, Hl. congruence.
  - refine (bool_decide_unpack _ _). vm_compute. exact I.
Defined.

(** C3 as the specification words it does not hold.  The subloss [iou] holds
    5.0 and the weight of its loss is 2.0: the weighted value would be 10.0,
    but the logging mapping holds 5.0 under [loss/head/bbox/iou]; and with
    sub-loss logging switched off the subloss is not logged at all. *)
Lemma subloss_logged_unweighted :
  (process_losses demo_loss_weights true demo_losses demo_loss_heap).1
  = ok ([fl 6],
        {["loss" := [fl 6]; "loss/head/bbox" := [fl 6];
          "loss/head/bbox/iou" := [fl 5]]})
  /\ t_imul (demo_loss_heap 1%nat) (fl 2) = [fl 10]
  /\ [fl 5] <> [fl 10]
  /\ (process_losses demo_loss_weights false demo_losses demo_loss_heap).1
     = ok ([fl 6], {["loss" := [fl 6]; "loss/head/bbox" := [fl 6]]}).
Proof.
  split; [vm_compute; reflexivity|]. split; [vm_compute; reflexivity|].
  split; [vm_compute; discriminate|]. vm_compute. reflexivity.
Qed.

(** A subloss that is the loss tensor itself is logged after the scaling in
    place, with the weight applied: 6.0 for a loss of 3.0 and the weight
    2.0. *)
Example subloss_sharing_loss_tensor :
  (process_losses demo_loss_weights true
     [("head", [("bbox", LossTuple 0%nat [("total", 0%nat)])])]
     demo_loss_heap).1
  = ok ([fl 6],
        {["loss" := [fl 6]; "loss/head/bbox" := [fl 6];
          "loss/head/bbox/total" := [fl 6]]}).
Proof. vm_compute. reflexivity. Qed.

(** * Further properties *)

(** ** Name uniqueness *)

Lemma first_duplicate_found (pre post seen : list string) (n : string) :
  NoDup pre -> (forall x, x ∈ pre -> x ∉ seen) -> n ∈ pre \/ n ∈ seen ->
  first_duplicate seen (pre ++ n :: post) = Some n.
Proof.
  revert seen. induction pre as [|p pre IH]; intros seen Hnd Hfresh Hn; simpl.
  - destruct Hn as [Hn|Hn]; [by apply elem_of_nil in Hn|].
    by rewrite (proj2 (str_in_true n seen)).
  - apply NoDup_cons in Hnd as [Hp Hnd].
    rewrite (proj2 (str_in_false p seen))
      by (apply Hfresh, elem_of_cons; by left).
    apply IH; [done| |].
    + intros x Hx [->|Hin]%elem_of_cons; [done|].
      by apply (Hfresh x); [apply elem_of_cons; right|].
    + destruct Hn as [[->|Hn]%elem_of_cons|Hn].
      * right. apply elem_of_cons. by left.
      * by left.
      * right. apply elem_of_cons. by right.
Qed.

Lemma check_section_duplicate (section : string) (pre post : list string)
    (n : string) :
  NoDup pre -> n ∈ pre ->
  check_section section (pre ++ n :: post) = raise (duplicate_name_error n section).
Proof.
  intros Hnd Hn. unfold check_section.
  rewrite (first_duplicate_found pre post [] n); [done|done| |by left].
  intros x _. apply not_elem_of_nil.
Qed.

Lemma check_section_ok (section : string) (names : list string) :
  NoDup names -> check_section section names = ok tt.
Proof. apply check_section_NoDup. Qed.

Lemma check_section_unit (section : string) (names : list string) (u : unit) :
  check_section section names = ok u <-> NoDup names.
Proof. destruct u. apply check_section_NoDup. Qed.

(** X1.  [check_unique_names] accepts a configuration exactly when no section
    (nodes, losses, metrics, visualizers) holds two objects with the same
    alias-or-name, and it returns the configuration as it is.  Otherwise it
    raises the [ValueError] that names the first repeated name of the first
    section that has one. *)
Theorem check_unique_names_outcome (self : ModelConfig) :
  (check_unique_names self = ok self
   <-> Forall (fun s => NoDup s.2) (name_sections self))
  /\ (forall self', check_unique_names self = ok self' -> self' = self)
  /\ (forall before section pre n post after,
        name_sections self = before ++ (section, pre ++ n :: post) :: after ->
        Forall (fun s => NoDup s.2) before ->
        NoDup pre -> n ∈ pre ->
        check_unique_names self = raise (duplicate_name_error n section)).
Proof.
  unfold check_unique_names, name_sections. split; [|split].
  - rewrite !Forall_cons, Forall_nil. simpl. split.
    + intros H.
      apply rbind_ok in H as (u1 & H1%check_section_unit & H).
      apply rbind_ok in H as (u2 & H2%check_section_unit & H).
      apply rbind_ok in H as (u3 & H3%check_section_unit & H).
      apply rbind_ok in H as (u4 & H4%check_section_unit & H).
      done.
    + intros (H1 & H2 & H3 & H4 & _).
      by rewrite !check_section_ok.
  - intros self' H.
    apply rbind_ok in H as (u1 & _ & H).
    apply rbind_ok in H as (u2 & _ & H).
    apply rbind_ok in H as (u3 & _ & H).
    apply rbind_ok in H as (u4 & _ & H).
    by injection H.
  - intros before section pre n post after Heq Hbefore Hpre Hn.
    destruct before as [|b1 [|b2 [|b3 [|b4 before]]]]; simpl in Heq.
    + injection Heq as <- Hnames _. rewrite Hnames.
      by rewrite check_section_duplicate.
    + injection Heq as <- <- Hnames _.
      apply Forall_cons in Hbefore as [H1 _]. simpl in H1.
      rewrite check_section_ok by done. simpl. rewrite Hnames.
      by rewrite check_section_duplicate.
    + injection Heq as <- <- <- Hnames _.
      apply Forall_cons in Hbefore as [H1 [H2 _]%Forall_cons]. simpl in H1, H2.
      rewrite !check_section_ok by done. simpl. rewrite Hnames.
      by rewrite check_section_duplicate.
    + injection Heq as <- <- <- <- Hnames _.
      apply Forall_cons in Hbefore
        as [H1 [H2 [H3 _]%Forall_cons]%Forall_cons]. simpl in H1, H2, H3.
      rewrite !check_section_ok by done. simpl. rewrite Hnames.
      by rewrite check_section_duplicate.
    + exfalso. apply (f_equal length) in Heq. simpl in Heq.
      rewrite length_app in Heq. simpl in Heq. lia.
Qed.

Lemma check_unique_names_outcome_witness :
  check_unique_names demo_duplicate_loss
  = raise (duplicate_name_error "bbox" "losses").
Proof.
  apply (proj2 (proj2 (check_unique_names_outcome demo_duplicate_loss))
           [("nodes", ["A"])] "losses" ["bbox"; "cls"] "bbox" []
           [("metrics", []); ("visualizers", [])]).
  - reflexivity.
  - apply Forall_cons. split; [|apply Forall_nil_2].
    apply NoDup_singleton.
  - apply NoDup_cons. split; [|apply NoDup_singleton].
    intros Hin%list_elem_of_singleton. discriminate Hin.
  - apply elem_of_cons. by left.
Defined.

(** ** Graph validation, continued *)

Lemma walk_head g l a b : walk g l a b -> exists l', l = a :: l'.
Proof. destruct 1; eauto. Qed.

Lemma walk_reach_all g l a b :
  walk g l a b -> forall x, x ∈ l -> x = a \/ tc (edge g) a x.
Proof.
  induction 1 as [a b Hab|a c b l Hac _ IH]; intros x Hx.
  - apply list_elem_of_singleton in Hx. by left.
  - apply elem_of_cons in Hx as [->|Hx]; [by left|]. right.
    destruct (IH x Hx) as [->|Hcx]; [by apply tc_once | by eapply tc_l].
Qed.

(** Without a cycle a walk leaves every node at most once. *)
Lemma walk_NoDup g l a b : ~ has_cycle g -> walk g l a b -> NoDup l.
Proof.
  intros Hac. induction 1 as [a b Hab|a c b l Hac' Hw IH].
  - apply NoDup_singleton.
  - apply NoDup_cons. split; [|done]. intros Hin. apply Hac. exists a.
    destruct (walk_reach_all _ _ _ _ Hw a Hin) as [->|Hca];
      [by apply tc_once | by eapply tc_l].
Qed.

(** When every node is the predecessor of some node there are walks of any
    length. *)
Lemma walk_extend g (k : string) :
  (forall k, k ∈ dict_keys g -> exists m, edge g m k) ->
  k ∈ dict_keys g ->
  forall n : nat, exists l a, length l = S n /\ walk g l a k.
Proof.
  intros Hpred Hk n. induction n as [|n (l & a & Hlen & Hw)].
  - destruct (Hpred k Hk) as [m Hm]. exists [m], m. split; [done|].
    by constructor.
  - assert (a ∈ dict_keys g) as Ha.
    { destruct (walk_head _ _ _ _ Hw) as [l' ->].
      apply (walk_sources _ _ _ _ Hw). apply elem_of_cons. by left. }
    destruct (Hpred a Ha) as [m Hm]. exists (m :: l), m. split.
    + simpl. by rewrite Hlen.
    + by econstructor.
Qed.

(** A graph without a cycle has a node that is nobody's predecessor. *)
Lemma acyclic_not_all_preds g (k : string) :
  ~ has_cycle g -> k ∈ dict_keys g ->
  ~ (forall k, k ∈ dict_keys g -> exists m, edge g m k).
Proof.
  intros Hac Hk Hpred.
  destruct (walk_extend g k Hpred Hk (length g)) as (l & a & Hlen & Hw).
  assert (length l <= length g)%nat; [|lia].
  replace (length g) with (length (dict_keys g))
    by (unfold dict_keys; apply length_fmap).
  apply submseteq_length, NoDup_submseteq; [by eapply walk_NoDup|].
  by apply (walk_sources _ _ _ _ Hw).
Qed.

Lemma derive_outputs_nonempty (ns : list ModelNodeConfig) :
  NoDup (map node_key ns) -> ~ has_cycle (graph_of_nodes ns) -> ns <> [] ->
  derive_outputs ns <> [].
Proof.
  intros Hnd Hac Hne Hempty. destruct ns as [|n0 ns0] eqn:Hns; [done|].
  rewrite <- Hns in *. clear Hne.
  assert (n0 ∈ ns) as Hn0 by (rewrite Hns; apply elem_of_cons; by left).
  rewrite derive_outputs_filter in Hempty.
  apply fmap_nil_inv in Hempty.
  assert (forall n, n ∈ ns -> node_key n ∈ all_inputs ns) as Hall.
  { intros n Hn. destruct (decide (node_key n ∈ all_inputs ns)) as [|Hnot]; [done|].
    exfalso. eapply (not_elem_of_nil n). rewrite <- Hempty.
    by apply list_elem_of_filter. }
  assert (dict_keys (graph_of_nodes ns) = map node_key ns) as Hkeys.
  { rewrite graph_of_nodes_unique by done. unfold dict_keys.
    by rewrite <- list_fmap_compose. }
  apply (acyclic_not_all_preds (graph_of_nodes ns) (node_key n0) Hac).
  - rewrite Hkeys. by apply list_elem_of_fmap_2.
  - intros k Hk. rewrite Hkeys in Hk.
    apply list_elem_of_fmap in Hk as (n & -> & Hn).
    apply Hall, elem_of_all_inputs in Hn as (m & Hm & Hin).
    exists (node_key m). unfold edge. by rewrite preds_of_graph_of_nodes.
Qed.

(** X2.  For a configuration whose node names are unique, graph validation
    can only fail on the acyclicity check: a non-empty graph without a cycle
    always has a node that no node names as an input, so the derived output
    list is not empty and ["No outputs specified."] is never raised. *)
Theorem acyclic_model_has_outputs (acyclic : graph_t -> bool) (self : ModelConfig) :
  (forall g, acyclic g = true -> ~ has_cycle g) ->
  NoDup (map node_key (nodes self)) ->
  (nodes self <> [] -> acyclic (graph_of_nodes (nodes self)) = true ->
     derive_outputs (nodes self) <> [])
  /\ (acyclic (graph_of_nodes (nodes self)) = true ->
        check_graph acyclic self
        = ok (set_outputs self (declared_or_derived self)))
  /\ check_graph acyclic self <> raise (ValueError "No outputs specified.").
Proof.
  intros Hsound Hnd.
  assert (nodes self <> [] -> acyclic (graph_of_nodes (nodes self)) = true ->
          derive_outputs (nodes self) <> []) as Hderive.
  { intros Hne Hac. apply derive_outputs_nonempty; [done| |done].
    by apply Hsound. }
  assert (acyclic (graph_of_nodes (nodes self)) = true ->
          check_graph acyclic self
          = ok (set_outputs self (declared_or_derived self))) as Hok.
  { intros Hac. rewrite check_graph_cases, Hac.
    destruct (nodes self) as [|n ns] eqn:Hnodes; [done|].
    destruct (declared_or_derived self) as [|o outs] eqn:Hout; [|done].
    exfalso. unfold declared_or_derived in Hout.
    destruct (outputs self); [|done].
    rewrite Hnodes in Hout. by apply Hderive. }
  split; [done|]. split; [done|].
  destruct (acyclic (graph_of_nodes (nodes self))) eqn:Hac.
  - by rewrite Hok.
  - rewrite check_graph_cases, Hac. discriminate.
Qed.

Lemma acyclic_model_has_outputs_witness :
  derive_outputs (nodes demo_diamond) <> []
  /\ check_graph is_acyclic demo_diamond = ok (set_outputs demo_diamond ["D"]).
Proof.
  assert (NoDup (map node_key (nodes demo_diamond))) as Hnd.
  { refine (bool_decide_unpack _ _). vm_compute. exact I. }
  pose proof (acyclic_model_has_outputs is_acyclic demo_diamond
                (fun g => proj1 (is_acyclic_spec g)) Hnd) as (H1 & H2 & _).
  split.
  - apply H1; [discriminate | vm_compute; reflexivity].
  - apply H2. vm_compute. reflexivity.
Defined.

(** X3.  A configuration that passed graph validation passes it again and
    comes back unchanged; validation never touches the nodes, and an output
    list that was declared is returned as it is, whatever it names. *)
Theorem check_graph_stable (acyclic : graph_t -> bool) (self self' : ModelConfig) :
  check_graph acyclic self = ok self' ->
  check_graph acyclic self' = ok self'
  /\ nodes self' = nodes self
  /\ outputs self' = declared_or_derived self
  /\ (outputs self <> [] -> self' = self).
Proof.
  rewrite !check_graph_cases.
  destruct (acyclic (graph_of_nodes (nodes self))) eqn:Hac; [|discriminate].
  intros Hok.
  assert (self' = set_outputs self (declared_or_derived self)
          /\ (nodes self = [] \/ declared_or_derived self <> [])) as [-> Hcase].
  { destruct (nodes self), (declared_or_derived self); try discriminate;
      injection Hok as <-; (split; [done|]); first [by left | by right]. }
  split; [|split; [done|split; [done|]]].
  - change (nodes (set_outputs self (declared_or_derived self)))
      with (nodes self). rewrite Hac.
    assert (declared_or_derived (set_outputs self (declared_or_derived self))
            = declared_or_derived self) as ->.
    { unfold declared_or_derived at 1. simpl.
      destruct (declared_or_derived self) as [|o outs] eqn:Hout; [|done].
      destruct Hcase as [Hnil|]; [|done]. by rewrite Hnil. }
    change (set_outputs (set_outputs self (declared_or_derived self))
              (declared_or_derived self))
      with (set_outputs self (declared_or_derived self)).
    destruct Hcase as [->|Hne]; [done|].
    destruct (declared_or_derived self); [done|]. by destruct (nodes self).
  - intros Hne. unfold declared_or_derived.
    destruct (outputs self) as [|o outs] eqn:Hout; [done|].
    rewrite <- Hout. apply set_outputs_same.
Qed.

Lemma check_graph_stable_witness :
  check_graph is_acyclic (set_outputs demo_diamond ["D"])
  = ok (set_outputs demo_diamond ["D"]).
Proof.
  apply (check_graph_stable is_acyclic demo_diamond).
  vm_compute. reflexivity.
Defined.

(** ** Export values *)

(** X4.  [ExportConfig.check_values] leaves no list behind: a
    [scale_values] or [mean_values] field that holds what its annotation
    declares (a list of floats or [None]) is [None] after validation.  Only
    a bare float is padded, to three copies of itself, and a second
    validation discards that list as well. *)
Theorem check_values_discards_lists (self : ExportValues) :
  (as_declared (scale_values self) ->
     scale_values (check_values self) = ValuesNone)
  /\ (as_declared (mean_values self) ->
        mean_values (check_values self) = ValuesNone)
  /\ (forall x, scale_values self = ValuesFloat x ->
        scale_values (check_values self) = ValuesList [x; x; x])
  /\ (forall x, mean_values self = ValuesFloat x ->
        mean_values (check_values self) = ValuesList [x; x; x])
  /\ check_values (check_values self)
     = {| scale_values := ValuesNone; mean_values := ValuesNone |}.
Proof.
  destruct self as [s m]. unfold check_values. simpl.
  repeat split.
  - by destruct s.
  - by destruct m.
  - by intros x ->.
  - by intros x ->.
  - by destruct s, m.
Qed.

Lemma check_values_discards_lists_witness :
  scale_values (check_values demo_export_values) = ValuesNone.
Proof.
  apply (proj1 (check_values_discards_lists demo_export_values)).
  exact I.
Defined.

(** ** Model set-up *)

Lemma fold_dict_set_map {A V : Type} (f : A -> string * V) (l : list A)
    (acc : dict V) :
  fold_left (fun d kv => dict_set d kv.1 kv.2) (map f l) acc
  = fold_left (fun d a => dict_set d (f a).1 (f a).2) l acc.
Proof. revert acc. induction l as [|a l IH]; intros acc; simpl; [done|apply IH]. Qed.

Lemma init_node_fields registered epochs_ shape st c st' :
  init_node registered epochs_ shape st c = ok st' ->
  st_graph st' = dict_set (st_graph st) (node_key c) (inputs c)
  /\ st_nodes st'
     = (if str_in (node_key c) (st_nodes st) then st_nodes st
        else st_nodes st ++ [node_key c])
  /\ match inputs c with
     | [] => exists l, lookup_all shape (loader_inputs c) = ok l
                       /\ st_input_shapes st'
                          = dict_set (st_input_shapes st) (node_key c) l
     | _ :: _ => st_input_shapes st' = st_input_shapes st
     end.
Proof.
  unfold init_node. destruct (registered (name c)); simpl; [|discriminate].
  intros H. apply rbind_ok in H as (frozen & _ & H).
  apply rbind_ok in H as (shapes & Hshapes & H).
  injection H as <-. simpl. split; [done|]. split; [done|].
  destruct (inputs c).
  - apply rbind_ok in Hshapes as (l & Hl & Hs). injection Hs as <-. eauto.
  - by injection Hshapes as <-.
Qed.

Lemma init_nodes_fields registered epochs_ shape cfgs :
  forall st st',
  init_nodes registered epochs_ shape st cfgs = ok st' ->
  st_nodes st = dict_keys (st_graph st) ->
  st_graph st'
  = fold_left (fun d c => dict_set d (node_key c) (inputs c)) cfgs (st_graph st)
  /\ st_nodes st' = dict_keys (st_graph st')
  /\ (forall k, k ∈ dict_keys (st_input_shapes st')
        <-> k ∈ dict_keys (st_input_shapes st)
            \/ exists c, c ∈ cfgs /\ inputs c = [] /\ node_key c = k)
  /\ (forall k, k ∉ map node_key cfgs ->
        dict_get (st_input_shapes st') k = dict_get (st_input_shapes st) k).
Proof.
  induction cfgs as [|c cfgs IH]; simpl; intros st st' Hrun Hinv.
  - injection Hrun as <-. split; [done|]. split; [done|]. split; [|done].
    intros k. split; [by left|]. intros [?|(c & Hc & _)]; [done|].
    by apply elem_of_nil in Hc.
  - apply rbind_ok in Hrun as (st1 & Hstep & Hrun).
    apply init_node_fields in Hstep as (Hg & Hn & Hs).
    destruct (IH st1 st' Hrun) as (IHg & IHn & IHs & IHo).
    { rewrite Hn, Hg, dict_set_keys, Hinv. unfold str_in.
      destruct (decide (node_key c ∈ dict_keys (st_graph st))) as [Hin|Hin].
      - by rewrite bool_decide_eq_true_2.
      - by rewrite bool_decide_eq_false_2. }
    split; [by rewrite IHg, Hg|]. split; [done|]. split.
    + intros k. rewrite IHs. setoid_rewrite elem_of_cons.
      destruct (inputs c) as [|i ins] eqn:Hin.
      * destruct Hs as (l & _ & ->). rewrite dict_set_keys.
        split.
        -- intros [Hk|(c' & Hc' & Hnil & Hkey)].
           ++ case_decide as Hmem; [by left|].
              apply elem_of_app in Hk as [Hk|Hk%list_elem_of_singleton];
                [by left|].
              right. exists c. split; [by left | done].
           ++ right. exists c'. split; [by right | done].
        -- intros [Hk|(c' & [->|Hc'] & Hnil & Hkey)].
           ++ left. case_decide; [done|]. apply elem_of_app. by left.
           ++ left. rewrite <- Hkey. case_decide; [done|].
              apply elem_of_app. right. by apply list_elem_of_singleton.
           ++ right. exists c'. done.
      * rewrite Hs. split.
        -- intros [Hk|(c' & Hc' & Hnil & Hkey)]; [by left|].
           right. exists c'. split; [by right | done].
        -- intros [Hk|(c' & [->|Hc'] & Hnil & Hkey)]; [by left| |].
           ++ congruence.
           ++ right. by exists c'.
    + intros k Hk. apply not_elem_of_cons in Hk as [Hne Hk].
      rewrite IHo by done.
      destruct (inputs c).
      * destruct Hs as (l & _ & ->). rewrite dict_get_set.
        by rewrite decide_False by congruence.
      * by rewrite Hs.
Qed.

Lemma init_nodes_shape_value registered epochs_ shape cfgs :
  forall st st',
  init_nodes registered epochs_ shape st cfgs = ok st' ->
  NoDup (map node_key cfgs) ->
  forall c, c ∈ cfgs -> inputs c = [] ->
  exists l, lookup_all shape (loader_inputs c) = ok l
            /\ dict_get (st_input_shapes st') (node_key c) = Some l.
Proof.
  induction cfgs as [|c0 cfgs IH]; simpl; intros st st' Hrun Hnd c Hc Hnil.
  - by apply elem_of_nil in Hc.
  - apply NoDup_cons in Hnd as [Hc0 Hnd].
    apply rbind_ok in Hrun as (st1 & Hstep & Hrun).
    apply elem_of_cons in Hc as [->|Hc]; [|by eapply IH].
    apply init_node_fields in Hstep as (_ & _ & Hs). rewrite Hnil in Hs.
    destruct Hs as (l & Hl & Hs). exists l. split; [done|].
    assert (st_nodes init_state0 = dict_keys (st_graph init_state0)) as _ by done.
    assert (dict_get (st_input_shapes st') (node_key c0)
            = dict_get (st_input_shapes st1) (node_key c0)) as ->.
    { clear -Hrun Hc0. revert st1 Hrun.
      induction cfgs as [|c cfgs IH]; simpl; intros st1 Hrun.
      - by injection Hrun as <-.
      - apply not_elem_of_cons in Hc0 as [Hne Hc0].
        apply rbind_ok in Hrun as (st2 & Hstep & Hrun).
        rewrite (IH Hc0 st2) by done.
        apply init_node_fields in Hstep as (_ & _ & Hs).
        destruct (inputs c).
        + destruct Hs as (l & _ & ->). rewrite dict_get_set.
          by rewrite decide_False by congruence.
        + by rewrite Hs. }
    rewrite Hs, dict_get_set. by rewrite decide_True.
Qed.

(** X5.  The graph that [LuxonisModel.__init__] builds is the graph that
    [check_graph] validated: one entry per alias-or-name with the node's
    inputs, a repeated name keeping its place and taking the later inputs.
    [self.input_shapes] has an entry exactly for the names of the nodes
    declared without inputs, and with unique names that entry holds the
    shapes of the node's loader inputs, in order. *)
Theorem init_nodes_graph registered epochs_ shape cfgs st :
  init_nodes registered epochs_ shape init_state0 cfgs = ok st ->
  st_graph st = graph_of_nodes cfgs
  /\ st_nodes st = dict_keys (graph_of_nodes cfgs)
  /\ (forall k, k ∈ dict_keys (st_input_shapes st)
        <-> exists c, c ∈ cfgs /\ inputs c = [] /\ node_key c = k)
  /\ (NoDup (map node_key cfgs) ->
      forall c, c ∈ cfgs -> inputs c = [] ->
      exists l, lookup_all shape (loader_inputs c) = ok l
                /\ dict_get (st_input_shapes st) (node_key c) = Some l).
Proof.
  intros Hrun.
  destruct (init_nodes_fields _ _ _ _ _ _ Hrun eq_refl) as (Hg & Hn & Hs & _).
  assert (st_graph st = graph_of_nodes cfgs) as Hgraph.
  { rewrite Hg. unfold graph_of_nodes, dict_of_items.
    by rewrite fold_dict_set_map. }
  split; [done|]. split; [by rewrite Hn, Hgraph|]. split.
  - intros k. rewrite Hs. simpl. split; [|by right].
    intros [Hk|?]; [by apply elem_of_nil in Hk | done].
  - intros Hnd. by eapply init_nodes_shape_value.
Qed.

Lemma init_nodes_graph_witness :
  st_graph demo_init_state = graph_of_nodes demo_frozen_nodes
  /\ dict_get (st_input_shapes demo_init_state) "backbone"
     = Some [[1; 3; 256; 256]].
Proof.
  pose proof (init_nodes_graph (fun _ => true) 100 demo_in_shape
                demo_frozen_nodes demo_init_state eq_refl)
    as (Hg & _ & _ & Hs).
  split; [exact Hg|].
  assert (NoDup (map node_key demo_frozen_nodes)) as Hnd.
  { refine (bool_decide_unpack _ _). vm_compute. exact I. }
  destruct (Hs Hnd
              {| name := "EfficientRep"; alias := Some "backbone"; inputs := [];
                 loader_inputs := ["image"];
                 freezing := {| active := true;
                                unfreeze_after := UnfreezeFloat (float_ratio 29 100) |} |})
    as (l & Hl & Hget).
  - apply elem_of_cons. by left.
  - reflexivity.
  - vm_compute in Hl. injection Hl as <-. exact Hget.
Defined.

(** *** Loss weights *)

Lemma filter_none {A : Type} (P : A -> Prop) `{!forall x, Decision (P x)}
    (l : list A) :
  (forall x, x ∈ l -> ~ P x) -> filter P l = [].
Proof.
  induction l as [|x l IH]; intros Hno; [done|].
  rewrite filter_cons, decide_False by (apply Hno, elem_of_cons; by left).
  apply IH. intros y Hy. apply Hno, elem_of_cons. by right.
Qed.

(** *** Attached modules and the main metric *)

Section AttachedProps.

Context {M : Type}.
Variable build : AttachedModuleConfig -> result M.
Variable registered : string -> bool.
Variable node_names : list string.

Local Abbreviation init_module := (init_attached_module build registered node_names).
Local Abbreviation can_init := (initialisable build registered node_names).
Local Abbreviation run_metrics := (init_metrics build registered node_names).
Local Abbreviation run_losses := (init_losses build registered node_names).

Lemma storage_get_set (storage : storage_t) (n m n' m' : string) (x : M) :
  storage_get (storage_set storage n m x) n' m'
  = if decide (n = n' /\ m = m') then Some x else storage_get storage n' m'.
Proof.
  unfold storage_get, storage_set. rewrite dict_get_set.
  destruct (decide (n = n')) as [<-|Hn]; simpl.
  - rewrite dict_get_set. destruct (decide (m = m')) as [<-|Hm].
    + by rewrite decide_True.
    + rewrite decide_False by tauto. by destruct (dict_get storage n).
  - by rewrite decide_False by tauto.
Qed.

Lemma init_module_ok (cfg : AttachedModuleConfig) (storage : storage_t) :
  can_init cfg ->
  exists module,
    build cfg = ok module
    /\ init_module cfg storage
       = ok (module_key cfg, am_attached_to cfg,
             storage_set storage (am_attached_to cfg) (module_key cfg) module).
Proof.
  intros (Hreg & Hnode & module & Hbuild). exists module. split; [done|].
  unfold init_attached_module. rewrite Hreg. simpl.
  rewrite (proj2 (str_in_true _ _) Hnode). simpl. by rewrite Hbuild.
Qed.

Lemma init_module_inv (cfg : AttachedModuleConfig) (storage : storage_t) r :
  init_module cfg storage = ok r ->
  can_init cfg
  /\ r.1.1 = module_key cfg /\ r.1.2 = am_attached_to cfg
  /\ exists module,
       build cfg = ok module
       /\ r.2 = storage_set storage (am_attached_to cfg) (module_key cfg) module.
Proof.
  unfold init_attached_module, initialisable.
  destruct (registered _); simpl; [|discriminate].
  destruct (str_in _ _) eqn:Hin; simpl; [|discriminate].
  apply str_in_true in Hin.
  destruct (build cfg) as [e|module]; simpl; [discriminate|].
  intros [= <-]. simpl. eauto 10.
Qed.

(** X8.  [_init_attached_module] files a module under its node and its
    alias-or-name: afterwards [storage[attached_to][alias or name]] is the
    new module and every other entry of the storage is what it was.  An
    unknown module type or a node that does not exist is a [KeyError]. *)
Theorem init_attached_module_stores (cfg : AttachedModuleConfig)
    (storage : storage_t) :
  (forall module_name node_name storage',
     init_module cfg storage = ok (module_name, node_name, storage') ->
     module_name = module_key cfg /\ node_name = am_attached_to cfg
     /\ (exists module, build cfg = ok module
           /\ storage_get storage' node_name module_name = Some module)
     /\ (forall n m, ~ (n = node_name /\ m = module_name) ->
           storage_get storage' n m = storage_get storage n m))
  /\ (registered (am_name cfg) = false ->
        init_module cfg storage = raise (KeyError (am_name cfg)))
  /\ (registered (am_name cfg) = true -> am_attached_to cfg ∉ node_names ->
        init_module cfg storage = raise (KeyError (am_attached_to cfg))).
Proof.
  split; [|split].
  - intros module_name node_name storage' Hrun.
    apply init_module_inv in Hrun as (_ & Hm & Hn & module & Hbuild & Hst).
    simpl in *. subst module_name node_name storage'.
    split; [done|]. split; [done|]. split.
    + exists module. split; [done|]. rewrite storage_get_set.
      by rewrite decide_True.
    + intros n m Hne. rewrite storage_get_set.
      rewrite decide_False; [done|]. intros [<- <-]. by apply Hne.
  - intros Hreg. unfold init_attached_module. by rewrite Hreg.
  - intros Hreg Hnode. unfold init_attached_module. rewrite Hreg. simpl.
    by rewrite (proj2 (str_in_false _ _) Hnode).
Qed.

Lemma init_metrics_inv (cfgs : list MetricModuleConfig) :
  forall storage main_metric storage' main_metric',
  run_metrics cfgs storage main_metric = ok (storage', main_metric') ->
  match main_metric with
  | Some s => filter (fun c => is_main_metric c = true) cfgs = []
              /\ main_metric' = Some s
  | None => (length (filter (fun c => is_main_metric c = true) cfgs) <= 1)%nat
            /\ main_metric'
               = main_metric_key <$> head (filter (fun c => is_main_metric c = true) cfgs)
  end.
Proof.
  induction cfgs as [|c cfgs IH]; simpl; intros storage mm storage' mm' Hrun.
  - injection Hrun as <- <-. destruct mm; (split; [|done]); [done | simpl; lia].
  - apply rbind_ok in Hrun as (r & Hmod & Hrun).
    apply init_module_inv in Hmod as (_ & Hname & Hnode & _).
    rewrite filter_cons. destruct (is_main_metric c) eqn:Hmain.
    + rewrite decide_True by done.
      destruct mm as [s|]; [discriminate|].
      apply IH in Hrun as [Hnil ->]. rewrite Hnil. simpl. split; [lia|].
      unfold main_metric_key. by rewrite Hname, Hnode.
    + rewrite decide_False by done. by apply IH in Hrun.
Qed.

Lemma init_metrics_run (cfgs : list MetricModuleConfig) :
  Forall (fun c => can_init (metric_base c)) cfgs ->
  forall storage main_metric,
  match main_metric, filter (fun c => is_main_metric c = true) cfgs with
  | Some s, [] =>
      exists storage', run_metrics cfgs storage main_metric = ok (storage', Some s)
  | None, [] =>
      exists storage', run_metrics cfgs storage main_metric = ok (storage', None)
  | None, [c] =>
      exists storage',
        run_metrics cfgs storage main_metric = ok (storage', Some (main_metric_key c))
  | _, _ =>
      run_metrics cfgs storage main_metric
      = raise (ValueError "Multiple main metrics defined. Only one is allowed.")
  end.
Proof.
  induction 1 as [|c cfgs Hc _ IH]; intros storage mm; simpl.
  - destruct mm; eauto.
  - destruct (init_module_ok (metric_base c) storage Hc) as (module & _ & ->).
    simpl. rewrite filter_cons. destruct (is_main_metric c) eqn:Hmain.
    + rewrite decide_True by done. destruct mm as [s|]; [done|].
      specialize (IH (storage_set storage (am_attached_to (metric_base c))
                        (module_key (metric_base c)) module)
                     (Some (am_attached_to (metric_base c) +:+ "/"
                            +:+ module_key (metric_base c)))).
      simpl in IH. destruct (filter _ cfgs); [|done].
      destruct IH as [storage' ->]. by exists storage'.
    + rewrite decide_False by done. apply IH.
Qed.

(** X7.  The set-up of the metrics allows one main metric.  When it
    succeeds, at most one configured metric is flagged [is_main_metric] and
    [self.main_metric] is that metric's node name, a slash and its
    alias-or-name, or [None] when no metric is flagged.  When all metrics can
    be set up, it succeeds exactly in that case: with two or more flagged
    metrics it raises the [ValueError] about multiple main metrics. *)
Theorem main_metric_unique (cfgs : list MetricModuleConfig) :
  let mains := filter (fun c => is_main_metric c = true) cfgs in
  (forall storage' main_metric,
     run_metrics cfgs [] None = ok (storage', main_metric) ->
     (length mains <= 1)%nat /\ main_metric = main_metric_key <$> head mains)
  /\ (Forall (fun c => can_init (metric_base c)) cfgs ->
      ((length mains <= 1)%nat ->
       exists storage',
         run_metrics cfgs [] None = ok (storage', main_metric_key <$> head mains))
      /\ ((2 <= length mains)%nat ->
          run_metrics cfgs [] None
          = raise (ValueError "Multiple main metrics defined. Only one is allowed."))).
Proof.
  intros mains. split.
  - intros storage' mm Hrun. by apply init_metrics_inv in Hrun.
  - intros Hall. pose proof (init_metrics_run cfgs Hall [] None) as Hrun.
    fold mains in Hrun. destruct mains as [|c [|c' mains']]; simpl in *.
    + split; [done | lia].
    + split; [done | lia].
    + split; [lia | done].
Qed.

Lemma init_losses_lookup (cfgs : list LossModuleConfig) :
  forall storage lw storage' lw',
  run_losses cfgs storage lw = ok (storage', lw') ->
  forall k,
  lw' !! k = match last (filter (fun c => loss_name_of c = k) cfgs) with
             | Some c => Some (weight c)
             | None => lw !! k
             end.
Proof.
  induction cfgs as [|c cfgs IH]; simpl; intros storage lw storage' lw' Hrun k.
  - by injection Hrun as <- <-.
  - apply rbind_ok in Hrun as (r & Hmod & Hrun).
    apply init_module_inv in Hmod as (_ & Hname & _).
    rewrite (IH _ _ _ _ Hrun k), filter_cons, Hname.
    destruct (decide (loss_name_of c = k)) as [Hk|Hk].
    + rewrite last_cons.
      destruct (last (filter _ cfgs)); [done|].
      unfold loss_name_of in Hk. rewrite Hk. apply lookup_insert_eq.
    + destruct (last (filter _ cfgs)); [done|].
      by apply lookup_insert_ne.
Qed.

Lemma init_losses_ok (cfgs : list LossModuleConfig) :
  forall storage lw,
  (exists storage' lw', run_losses cfgs storage lw = ok (storage', lw'))
  <-> Forall (fun c => can_init (loss_base c)) cfgs.
Proof.
  induction cfgs as [|c cfgs IH]; intros storage lw.
  - split; [intros _; apply Forall_nil_2 | simpl; eauto].
  - rewrite Forall_cons. cbn [init_losses]. split.
    + intros (storage' & lw' & Hrun).
      apply rbind_ok in Hrun as (r & Hmod & Hrun).
      apply init_module_inv in Hmod as (Hcan & _).
      split; [done|]. eapply IH; eauto.
    + intros [Hcan Hall].
      destruct (init_module_ok (loss_base c) storage Hcan) as (module & _ & ->).
      cbn [rbind]. by apply IH.
Qed.

Lemma init_losses_err (cfgs : list LossModuleConfig) (e : exception) :
  forall storage lw,
  run_losses cfgs storage lw = raise e ->
  exists c storage0, c ∈ cfgs /\ init_module (loss_base c) storage0 = raise e.
Proof.
  induction cfgs as [|c cfgs IH]; intros storage lw Hrun; [discriminate|].
  cbn [init_losses] in Hrun.
  apply rbind_err in Hrun as [Herr|(r & _ & Hrun)].
  - exists c, storage. split; [apply elem_of_cons; by left | done].
  - destruct (IH _ _ Hrun) as (c' & storage0 & Hc' & Herr).
    exists c', storage0. split; [apply elem_of_cons; by right | done].
Qed.

Lemma init_losses_stored (cfgs : list LossModuleConfig) :
  forall storage lw storage' lw',
  run_losses cfgs storage lw = ok (storage', lw') ->
  (forall n m, is_Some (storage_get storage n m) ->
               is_Some (storage_get storage' n m))
  /\ (forall c, c ∈ cfgs ->
        is_Some (storage_get storage' (am_attached_to (loss_base c))
                   (loss_name_of c))).
Proof.
  induction cfgs as [|c cfgs IH]; intros storage lw storage' lw' Hrun.
  - injection Hrun as <- <-. split; [done|].
    intros c Hc. by apply elem_of_nil in Hc.
  - cbn [init_losses] in Hrun.
    apply rbind_ok in Hrun as (r & Hmod & Hrun).
    apply init_module_inv in Hmod as (_ & _ & _ & module & _ & Hst).
    destruct (IH _ _ _ _ Hrun) as [Hkeep Hnew]. rewrite Hst in Hkeep.
    split.
    + intros n m Hnm. apply Hkeep. rewrite storage_get_set.
      by destruct (decide _).
    + intros c' [->|Hc']%elem_of_cons; [|by apply Hnew].
      apply Hkeep. rewrite storage_get_set. by rewrite decide_True.
Qed.

(** X6.  The loop over the configured losses succeeds exactly when
    [_init_attached_module] can set up every loss: its type is registered,
    it is attached to an existing node, and the call of its class does not
    raise; when the loop raises, it is with what [_init_attached_module]
    raised for one of the losses.  After the loop [self.losses] holds a
    module for every configured loss, and [self.loss_weights] holds under
    each loss name (alias-or-name) the weight of the last loss configured
    under that name, and nothing under any other name; with unique names
    every configured loss finds its own weight. *)
Theorem init_losses_weights (cfgs : list LossModuleConfig) :
  ((exists storage lw, run_losses cfgs [] ∅ = ok (storage, lw))
   <-> Forall (fun c => can_init (loss_base c)) cfgs)
  /\ (forall e, run_losses cfgs [] ∅ = raise e ->
      exists c storage0, c ∈ cfgs /\ init_module (loss_base c) storage0 = raise e)
  /\ (forall storage lw, run_losses cfgs [] ∅ = ok (storage, lw) ->
      (forall c, c ∈ cfgs ->
         is_Some (storage_get storage (am_attached_to (loss_base c))
                    (loss_name_of c)))
      /\ (forall k, lw !! k
                    = weight <$> last (filter (fun c => loss_name_of c = k) cfgs))
      /\ (NoDup (map loss_name_of cfgs) ->
          forall c, c ∈ cfgs -> lw !! loss_name_of c = Some (weight c))).
Proof.
  split; [apply init_losses_ok|]. split; [intros e; apply init_losses_err|].
  intros storage lw Hrun.
  split; [by apply (init_losses_stored _ _ _ _ _ Hrun)|].
  assert (forall k, lw !! k
            = weight <$> last (filter (fun c => loss_name_of c = k) cfgs))
    as Hlookup.
  { intros k. rewrite (init_losses_lookup _ _ _ _ _ Hrun k).
    by destruct (last _). }
  split; [done|]. intros Hnd c Hc. rewrite Hlookup.
  clear Hrun Hlookup. induction cfgs as [|c0 cfgs IH]; [by apply elem_of_nil in Hc|].
  simpl in Hnd. apply NoDup_cons in Hnd as [Hc0 Hnd].
  rewrite filter_cons. apply elem_of_cons in Hc as [->|Hc].
  - rewrite decide_True by done.
    assert (filter (fun c => loss_name_of c = loss_name_of c0) cfgs = []) as ->; [|done].
    apply filter_none. intros c Hc Hkey. apply Hc0.
    rewrite <- Hkey. by apply list_elem_of_fmap_2.
  - rewrite decide_False; [by apply IH|].
    intros Hkey. apply Hc0. rewrite Hkey. by apply list_elem_of_fmap_2.
Qed.

End AttachedProps.

Lemma init_losses_weights_witness :
  demo_init_weights !! "bbox" = Some (fl 2).
Proof.
  assert (NoDup (map loss_name_of demo_loss_cfgs)) as Hnd.
  { refine (bool_decide_unpack _ _). vm_compute. exact I. }
  apply (proj2 (proj2 (proj2 (proj2 (init_losses_weights demo_build
                                       (fun _ => true) ["head"] demo_loss_cfgs))
                                demo_loss_storage demo_init_weights eq_refl))
           Hnd
           {| loss_base := {| am_name := "BboxLoss"; am_attached_to := "head";
                              am_alias := Some "bbox" |};
              weight := fl 2 |}).
  apply elem_of_cons. by left.
Defined.

Lemma init_attached_module_stores_witness :
  storage_get
    (storage_set [("head", [("mAP", "MeanAveragePrecision")])] "head" "acc" "Accuracy")
    "head" "mAP"
  = Some "MeanAveragePrecision".
Proof.
  destruct (proj1 (init_attached_module_stores demo_build (fun _ => true) ["head"]
                     {| am_name := "Accuracy"; am_attached_to := "head";
                        am_alias := Some "acc" |}
                     [("head", [("mAP", "MeanAveragePrecision")])])
              "acc" "head"
              (storage_set [("head", [("mAP", "MeanAveragePrecision")])]
                 "head" "acc" "Accuracy") eq_refl)
    as (_ & _ & _ & Hother).
  rewrite (Hother "head" "mAP"); [reflexivity|].
  intros [_ Hm]. discriminate Hm.
Defined.

Lemma main_metric_unique_witness :
  (exists storage',
     init_metrics demo_build (fun _ => true) ["head"] demo_metric_cfgs [] None
     = ok (storage', Some "head/mAP"))
  /\ init_metrics demo_build (fun _ => true) ["head"]
       (demo_metric_cfgs ++ demo_metric_cfgs) [] None
     = raise (ValueError "Multiple main metrics defined. Only one is allowed.").
Proof.
  assert (forall cfgs, cfgs = demo_metric_cfgs \/ cfgs = demo_metric_cfgs ++ demo_metric_cfgs ->
          Forall (fun c => initialisable demo_build (fun _ => true) ["head"]
                             (metric_base c)) cfgs) as Hall.
  { intros cfgs [-> | ->]; repeat (apply Forall_cons; split);
      try apply Forall_nil_2;
      (split; [done|]); (split; [apply elem_of_cons; by left|]);
      eexists; reflexivity. }
  split.
  - apply (proj1 (proj2 (main_metric_unique demo_build (fun _ => true) ["head"]
                           demo_metric_cfgs) (Hall _ (or_introl eq_refl)))).
    vm_compute. lia.
  - apply (proj2 (proj2 (main_metric_unique demo_build (fun _ => true) ["head"]
                           (demo_metric_cfgs ++ demo_metric_cfgs))
                    (Hall _ (or_intror eq_refl)))).
    vm_compute. lia.
Defined.

(** ** The forward pass, continued *)

Lemma string_length_app (a b : string) :
  String.length (a +:+ b) = (String.length a + String.length b)%nat.
Proof. induction a as [|c a IH]; simpl; [done | by rewrite IH]. Qed.

Lemma string_app_inj_r (a b t : string) : a +:+ t = b +:+ t -> a = b.
Proof.
  revert b. induction a as [|c a IH]; intros [|c' b] Heq.
  - done.
  - apply (f_equal String.length) in Heq.
    rewrite !string_length_app in Heq. simpl in Heq. lia.
  - apply (f_equal String.length) in Heq.
    rewrite !string_length_app in Heq. simpl in Heq. lia.
  - change (String c (a +:+ t) = String c' (b +:+ t)) in Heq.
    injection Heq as -> Heq. f_equal. by apply IH.
Qed.

Lemma input_key_inj (a b : string) : input_key a = input_key b -> a = b.
Proof.
  unfold input_key. intros Heq. apply String.app_inj in Heq.
  by apply string_app_inj_r in Heq.
Qed.

Lemma dict_get_is_Some {V : Type} (d : dict V) (k : string) :
  is_Some (dict_get d k) <-> k ∈ dict_keys d.
Proof.
  rewrite <- not_eq_None_Some, dict_get_None_key.
  destruct (decide (k ∈ dict_keys d)); tauto.
Qed.

Lemma dict_get_del {V : Type} (d : dict V) (k x : string) :
  NoDup (dict_keys d) ->
  dict_get (dict_del d k) x = if decide (x = k) then None else dict_get d x.
Proof.
  induction d as [|[k' v'] d IH]; simpl; intros Hnd.
  - by destruct (decide (x = k)).
  - apply NoDup_cons in Hnd as [Hk' Hnd].
    destruct (decide (k' = k)) as [->|Hne]; simpl.
    + destruct (decide (x = k)) as [->|Hx].
      * by apply dict_get_None_key.
      * by rewrite decide_False by congruence.
    + rewrite IH by done.
      destruct (decide (k' = x)) as [->|Hx]; [|done].
      by rewrite decide_False by congruence.
Qed.

Lemma dict_get_filter_keys {V : Type} (P : string -> bool)
    (d : list (string * V)) (k : string) :
  dict_get (filter (fun kv => P kv.1 = true) d) k
  = if P k then dict_get d k else None.
Proof.
  induction d as [|[k' v'] d IH].
  - by destruct (P k).
  - rewrite filter_cons. cbn [fst].
    destruct (decide (P k' = true)) as [Hk'|Hk']; cbn [dict_get].
    + rewrite IH. destruct (decide (k' = k)) as [->|Hne]; [by rewrite Hk' | done].
    + rewrite IH. destruct (decide (k' = k)) as [->|Hne]; [|done].
      by apply not_true_is_false in Hk' as ->.
Qed.

Lemma dict_of_items_keys_elem {V : Type} (items : list (string * V)) (k : string) :
  k ∈ dict_keys (dict_of_items items) <-> k ∈ items.*1.
Proof.
  unfold dict_of_items.
  assert (forall acc : dict V,
            k ∈ dict_keys (fold_left (fun d kv => dict_set d kv.1 kv.2) items acc)
            <-> k ∈ dict_keys acc \/ k ∈ items.*1) as Hgen.
  { induction items as [|[k' v'] items IH]; intros acc; simpl.
    - rewrite elem_of_nil. tauto.
    - rewrite IH, dict_set_keys, elem_of_cons. simpl.
      case_decide as Hin.
      + split; [tauto|]. intros [?|[->|?]]; tauto.
      + rewrite elem_of_app, list_elem_of_singleton. tauto. }
  rewrite Hgen. unfold dict_keys at 1. simpl. rewrite elem_of_nil. tauto.
Qed.

Lemma lookup_all_ok {V : Type} (d : dict V) (ks : list string) :
  (forall k, k ∈ ks -> is_Some (dict_get d k)) ->
  exists vs, lookup_all d ks = ok vs.
Proof.
  induction ks as [|k ks IH]; simpl; intros Hall; [eauto|].
  destruct (Hall k) as [v Hv]; [apply elem_of_cons; by left|].
  destruct IH as [vs Hvs]; [intros k' Hk'; apply Hall, elem_of_cons; by right|].
  unfold dict_item. rewrite Hv. simpl. rewrite Hvs. simpl. eauto.
Qed.

Lemma lookup_all_missing {V : Type} (d : dict V) (k : string) (ks : list string) :
  dict_get d k = None -> lookup_all d (k :: ks) = raise (KeyError k).
Proof. intros Hk. simpl. unfold dict_item. by rewrite Hk. Qed.

Section ForwardMore.

Context {T : Type}.
Variable run : string -> list (Packet T) -> result (Packet T).
Variable attached : string -> Packet T -> result unit.
Variable graph : graph_t.
Variable outputs_ : list string.

Local Abbreviation step := (forward_step run attached graph outputs_).
Local Abbreviation loop := (forward_loop run attached graph outputs_).

(** *** What a successful pass returns *)

Lemma evict_one_cases (is_input : bool) (input_names unprocessed : list string)
    (computed computed' : dict (Packet T)) (k : string) :
  evict_one graph outputs_ is_input input_names unprocessed computed k
  = ok computed' ->
  computed' = computed \/ (computed' = dict_del computed k /\ k ∉ outputs_).
Proof.
  unfold evict_one. destruct (str_in k outputs_) eqn:Hout.
  { intros [= <-]. by left. }
  apply str_in_false in Hout.
  destruct (is_input && negb (str_in k input_names)).
  { intros [= <-]. by left. }
  intros H. apply rbind_ok in H as ([] & _ & H); injection H as <-;
    [by left | by right].
Qed.

Lemma evict_loop_outputs (is_input : bool) (input_names unprocessed : list string)
    (names : list string) :
  forall computed computed' : dict (Packet T),
  NoDup (dict_keys computed) ->
  evict_loop graph outputs_ is_input input_names unprocessed names computed
  = ok computed' ->
  NoDup (dict_keys computed')
  /\ (forall x, x ∈ outputs_ -> dict_get computed' x = dict_get computed x)
  /\ (forall x, x ∈ dict_keys computed' -> x ∈ dict_keys computed).
Proof.
  induction names as [|n names IH]; simpl; intros computed computed' Hnd Hrun.
  - by injection Hrun as <-.
  - apply rbind_ok in Hrun as (c1 & Hone & Hrest).
    apply evict_one_cases in Hone as [->|[-> Hn]]; [by apply IH|].
    apply IH in Hrest as (Hnd' & Hget & Hsub); [|by apply dict_del_NoDup].
    split; [done|]. split.
    + intros x Hx. rewrite Hget, dict_get_del by done.
      rewrite decide_False; [done|]. by intros ->.
    + intros x Hx. apply Hsub in Hx. by apply dict_del_keys in Hx as [Hx _].
Qed.

Lemma forward_step_outputs (v : Visit) (computed computed' : dict (Packet T)) :
  NoDup (dict_keys computed) ->
  step computed v = ok computed' ->
  NoDup (dict_keys computed')
  /\ (exists node_inputs outputs,
        run (v_node v) node_inputs = ok outputs
        /\ forall x, x ∈ outputs_ ->
             dict_get computed' x
             = if decide (v_node v = x) then Some outputs else dict_get computed x)
  /\ (forall x, x ∈ dict_keys computed' -> x = v_node v \/ x ∈ dict_keys computed).
Proof.
  intros Hnd Hstep. unfold forward_step in Hstep.
  apply rbind_ok in Hstep as (node_inputs & _ & Hstep).
  apply rbind_ok in Hstep as (outputs & Hrun & Hstep).
  apply rbind_ok in Hstep as ([] & _ & Hstep).
  apply evict_loop_outputs in Hstep as (Hnd' & Hget & Hsub);
    [|by apply dict_set_NoDup].
  split; [done|]. split.
  - exists node_inputs, outputs. split; [done|]. intros x Hx.
    by rewrite Hget, dict_get_set.
  - intros x Hx. apply Hsub in Hx. rewrite dict_set_keys in Hx.
    case_decide; [by right|].
    apply elem_of_app in Hx as [?|Hx%list_elem_of_singleton]; [by right | by left].
Qed.

(** A name holds the packet that a run of the node of that name returned. *)
Local Abbreviation holds_run :=
  (fun (computed : dict (Packet T)) (k : string) =>
     exists node_inputs outputs,
       run k node_inputs = ok outputs /\ dict_get computed k = Some outputs).

Lemma forward_loop_outputs (visits : list Visit) :
  forall computed computed' : dict (Packet T),
  NoDup (dict_keys computed) ->
  loop computed visits = ok computed' ->
  NoDup (dict_keys computed')
  /\ (forall k, k ∈ outputs_ -> holds_run computed k -> holds_run computed' k)
  /\ (forall v, v ∈ visits -> v_node v ∈ outputs_ -> holds_run computed' (v_node v))
  /\ (forall x, x ∈ dict_keys computed' ->
        x ∈ dict_keys computed \/ exists v, v ∈ visits /\ x = v_node v).
Proof.
  induction visits as [|v visits IH]; simpl; intros computed computed' Hnd Hrun.
  - injection Hrun as <-. split; [done|]. split; [done|]. split.
    + intros v Hv. by apply elem_of_nil in Hv.
    + intros x Hx. by left.
  - apply rbind_ok in Hrun as (c1 & Hstep & Hrun).
    apply forward_step_outputs in Hstep
      as (Hnd1 & (node_inputs & outputs & Hrun1 & Hget1) & Hsub1); [|done].
    apply IH in Hrun as (Hnd' & Hkeep & Hnew & Hsub); [|done].
    assert (forall k, k ∈ outputs_ -> holds_run computed k -> holds_run c1 k)
      as Hkeep1.
    { intros k Hk (ins & p & Hp & Hgetk).
      destruct (decide (v_node v = k)) as [<-|Hne].
      - exists node_inputs, outputs. split; [done|].
        rewrite Hget1 by done. by rewrite decide_True.
      - exists ins, p. split; [done|].
        rewrite Hget1 by done. by rewrite decide_False. }
    split; [done|]. split; [|split].
    + intros k Hk Hheld. by apply Hkeep, Hkeep1.
    + intros w [->|Hw]%elem_of_cons Hout; [|by apply Hnew].
      apply Hkeep; [done|]. exists node_inputs, outputs. split; [done|].
      rewrite Hget1 by done. by rewrite decide_True.
    + intros x Hx. destruct (Hsub x Hx) as [Hx1|(w & Hw & ->)].
      * destruct (Hsub1 x Hx1) as [->|?]; [|by left].
        right. exists v. split; [apply elem_of_cons; by left | done].
      * right. exists w. split; [apply elem_of_cons; by right | done].
Qed.

(** *** Eviction never removes what a later node reads *)

Lemma required_by_total (k : string) (unprocessed : list string) :
  (forall n, n ∈ unprocessed -> n ∈ dict_keys graph) ->
  required_by graph k unprocessed
  = ok (existsb (fun n => str_in k (preds_of graph n)) unprocessed).
Proof.
  induction unprocessed as [|n rest IH]; simpl; intros Hkeys; [done|].
  destruct (proj2 (dict_get_is_Some graph n)) as [ps Hps];
    [apply Hkeys, elem_of_cons; by left|].
  unfold dict_item, preds_of. rewrite Hps. simpl.
  destruct (str_in k ps); [done|]. simpl.
  apply IH. intros m Hm. apply Hkeys, elem_of_cons. by right.
Qed.

Lemma evict_one_total (v : Visit) (computed : dict (Packet T)) (k : string) :
  (forall n, n ∈ v_unprocessed v -> n ∈ dict_keys graph) ->
  evict_one graph outputs_ (visit_is_input v) (visit_input_names v)
    (v_unprocessed v) computed k
  = ok (if keeps graph outputs_ v k then computed else dict_del computed k).
Proof.
  intros Hkeys. unfold evict_one, keeps.
  destruct (str_in k outputs_); [done|]. simpl.
  destruct (visit_is_input v && negb (str_in k (visit_input_names v))); [done|].
  simpl. rewrite required_by_total by done. simpl.
  by destruct (existsb _ _).
Qed.

Lemma evict_loop_total (v : Visit) (names : list string) :
  (forall n, n ∈ v_unprocessed v -> n ∈ dict_keys graph) ->
  forall computed : dict (Packet T),
  NoDup (dict_keys computed) ->
  exists computed',
    evict_loop graph outputs_ (visit_is_input v) (visit_input_names v)
      (v_unprocessed v) names computed = ok computed'
    /\ NoDup (dict_keys computed')
    /\ forall x, dict_get computed' x
                 = if bool_decide (x ∈ names) && negb (keeps graph outputs_ v x)
                   then None else dict_get computed x.
Proof.
  intros Hkeys. induction names as [|n names IH]; intros computed Hnd;
    cbn [evict_loop].
  - exists computed. split; [done|]. split; [done|]. intros x.
    rewrite bool_decide_eq_false_2; [done | apply not_elem_of_nil].
  - rewrite evict_one_total by done. cbn [rbind].
    destruct (keeps graph outputs_ v n) eqn:Hkeep.
    + destruct (IH computed Hnd) as (computed' & -> & Hnd' & Hget).
      exists computed'. split; [done|]. split; [done|]. intros x.
      rewrite Hget. destruct (decide (x = n)) as [->|Hne].
      * rewrite Hkeep. simpl. by rewrite !andb_false_r.
      * destruct (keeps graph outputs_ v x); simpl; [by rewrite !andb_false_r|].
        rewrite !andb_true_r.
        destruct (decide (x ∈ names)) as [Hin|Hin].
        -- rewrite !bool_decide_eq_true_2; [done| |done].
           apply elem_of_cons. by right.
        -- rewrite !bool_decide_eq_false_2; [done| |done].
           intros [?|?]%elem_of_cons; done.
    + destruct (IH (dict_del computed n) (dict_del_NoDup _ _ Hnd))
        as (computed' & -> & Hnd' & Hget).
      exists computed'. split; [done|]. split; [done|]. intros x.
      rewrite Hget, dict_get_del by done.
      destruct (decide (x = n)) as [->|Hne].
      * rewrite Hkeep. simpl. rewrite andb_true_r.
        rewrite (bool_decide_eq_true_2 (n ∈ n :: names))
          by (apply elem_of_cons; by left).
        by destruct (bool_decide (n ∈ names)).
      * destruct (keeps graph outputs_ v x); simpl; [by rewrite !andb_false_r|].
        rewrite !andb_true_r.
        destruct (decide (x ∈ names)) as [Hin|Hin].
        -- rewrite !bool_decide_eq_true_2; [done| |done].
           apply elem_of_cons. by right.
        -- rewrite !bool_decide_eq_false_2; [done| |done].
           intros [?|?]%elem_of_cons; done.
Qed.

Lemma forward_step_total (v : Visit) (computed : dict (Packet T)) :
  (forall n ins, exists p, run n ins = ok p) ->
  (forall n p, attached n p = ok tt) ->
  (forall n, n ∈ v_unprocessed v -> n ∈ dict_keys graph) ->
  NoDup (dict_keys computed) ->
  (forall k, k ∈ visit_input_names v -> is_Some (dict_get computed k)) ->
  exists outputs computed',
    step computed v = ok computed'
    /\ NoDup (dict_keys computed')
    /\ forall x, dict_get computed' x
                 = if keeps graph outputs_ v x
                   then dict_get (dict_set computed (v_node v) outputs) x
                   else None.
Proof.
  intros Hrun Hatt Hkeys Hnd Hin. unfold forward_step.
  destruct (lookup_all_ok computed (visit_input_names v) Hin) as [ins ->].
  simpl. destruct (Hrun (v_node v) ins) as [outputs ->]. simpl.
  rewrite Hatt. simpl.
  destruct (evict_loop_total v
              (dict_keys (dict_set computed (v_node v) outputs)) Hkeys
              (dict_set computed (v_node v) outputs))
    as (computed' & -> & Hnd' & Hget); [by apply dict_set_NoDup|].
  exists outputs, computed'. split; [done|]. split; [done|]. intros x.
  rewrite Hget. destruct (keeps graph outputs_ v x); simpl.
  - by rewrite andb_false_r.
  - rewrite andb_true_r. case_bool_decide as Hx; [done|].
    apply dict_get_None_key in Hx. by rewrite Hx.
Qed.

Lemma ordered_visits_inputs (avail : list string) (visits : list Visit) :
  ordered_visits graph avail visits = true ->
  forall w, w ∈ visits -> v_inputs w = preds_of graph (v_node w).
Proof.
  revert avail. induction visits as [|v visits IH]; simpl; intros avail Hord w Hw.
  - by apply elem_of_nil in Hw.
  - repeat (apply andb_true_iff in Hord as [Hord ?]).
    apply elem_of_cons in Hw as [->|Hw]; [|by eapply IH].
    by apply bool_decide_eq_true in Hord.
Qed.

Lemma forward_loop_total (visits : list Visit) :
  (forall n ins, exists p, run n ins = ok p) ->
  (forall n p, attached n p = ok tt) ->
  forall (avail : list string) (computed : dict (Packet T)),
  NoDup (dict_keys computed) ->
  ordered_visits graph avail visits = true ->
  (forall w p, w ∈ visits -> p ∈ v_inputs w -> p ∈ avail ->
     is_Some (dict_get computed p)) ->
  (forall w, w ∈ visits -> v_inputs w = [] ->
     is_Some (dict_get computed (input_key (v_node w)))) ->
  exists computed', loop computed visits = ok computed'.
Proof.
  intros Hrun Hatt.
  induction visits as [|v visits IH]; simpl; intros avail computed Hnd Hord H1 H2;
    [eauto|].
  pose proof (ordered_visits_inputs avail (v :: visits) Hord) as Hpreds.
  simpl in Hord. repeat (apply andb_true_iff in Hord as [Hord ?]).
  match goal with
  | Hin : forallb _ (v_inputs v) = true,
    Hun : forallb _ (v_unprocessed v) = true,
    Hlater : forallb _ visits = true,
    Hfirst : _ || _ = true,
    Hrest : ordered_visits _ _ visits = true |- _ =>
      rename Hin into Havail; rename Hun into Hgraph; rename Hlater into Hnext;
      rename Hfirst into Hinputs; rename Hrest into Hord'
  end.
  rewrite forallb_forall in Havail, Hgraph, Hnext.
  assert (forall n, n ∈ v_unprocessed v -> n ∈ dict_keys graph) as Hkeys.
  { intros n Hn. apply str_in_true, Hgraph. by apply list_elem_of_In. }
  assert (v ∈ v :: visits) as Hv by (apply elem_of_cons; by left).
  destruct (forward_step_total v computed Hrun Hatt Hkeys Hnd)
    as (outputs & c1 & -> & Hnd1 & Hget).
  { unfold visit_input_names, visit_is_input.
    destruct (bool_decide (v_inputs v = [])) eqn:Hnil.
    - apply bool_decide_eq_true in Hnil.
      intros k ->%list_elem_of_singleton. by apply H2.
    - intros k Hk. apply (H1 v k Hv Hk).
      apply str_in_true, Havail. by apply list_elem_of_In. }
  simpl. apply (IH (v_node v :: avail) c1 Hnd1 Hord').
  - intros w p Hw Hp Hpa.
    assert (w ∈ v :: visits) as Hw' by (apply elem_of_cons; by right).
    specialize (Hnext w (proj1 (list_elem_of_In _ _) Hw)).
    apply andb_true_iff in Hnext as [Hwun _]. apply str_in_true in Hwun.
    rewrite Hget.
    assert (keeps graph outputs_ v p = true) as ->.
    { unfold keeps. apply orb_true_iff. right. apply existsb_exists.
      exists (v_node w). split; [by apply list_elem_of_In|].
      apply str_in_true. by rewrite <- (Hpreds w Hw'). }
    rewrite dict_get_set. destruct (decide (v_node v = p)) as [|Hne]; [done|].
    apply elem_of_cons in Hpa as [->|Hpa]; [done|]. by apply (H1 w).
  - intros w Hw Hnil.
    assert (w ∈ v :: visits) as Hw' by (apply elem_of_cons; by right).
    pose proof (Hnext w (proj1 (list_elem_of_In _ _) Hw)) as Hw2.
    apply andb_true_iff in Hw2 as [_ Hne]. apply negb_true_iff in Hne.
    apply bool_decide_eq_false in Hne.
    assert (visit_is_input v = true) as Hvin.
    { apply orb_true_iff in Hinputs as [?|Hall]; [done|]. exfalso.
      rewrite forallb_forall in Hall.
      specialize (Hall w (proj1 (list_elem_of_In _ _) Hw)).
      apply negb_true_iff in Hall. unfold visit_is_input in Hall.
      by apply bool_decide_eq_false in Hall. }
    rewrite Hget.
    assert (keeps graph outputs_ v (input_key (v_node w)) = true) as ->.
    { unfold keeps. apply orb_true_iff. left. apply orb_true_iff. right.
      rewrite Hvin. simpl. apply negb_true_iff, str_in_false.
      unfold visit_input_names. rewrite Hvin.
      intros Heq%list_elem_of_singleton. by apply input_key_inj in Heq. }
    rewrite dict_get_set. destruct (decide _); [done|]. by apply H2.
Qed.

End ForwardMore.

Lemma build_input_dict_keys {T : Type} (input_shapes : dict (list Size))
    (inputs_ : dict T) (cfgs : list ModelNodeConfig) :
  forall d d' : dict (list T),
  build_input_dict input_shapes inputs_ cfgs d = ok d' ->
  forall k, k ∈ dict_keys d' ->
  k ∈ dict_keys d
  \/ exists c, c ∈ cfgs /\ name c = k /\ name c ∈ dict_keys input_shapes.
Proof.
  induction cfgs as [|c cfgs IH]; simpl; intros d d' Hrun k Hk.
  - injection Hrun as <-. by left.
  - destruct (str_in (name c) (dict_keys input_shapes)) eqn:Hin.
    + apply str_in_true in Hin.
      apply rbind_ok in Hrun as (ts & _ & Hrun).
      destruct (IH _ _ Hrun k Hk) as [Hk'|(c' & Hc' & Hname & Hshape)].
      * rewrite dict_set_keys in Hk'. case_decide; [by left|].
        apply elem_of_app in Hk' as [?|Hk'%list_elem_of_singleton]; [by left|].
        right. exists c. split; [apply elem_of_cons; by left | done].
      * right. exists c'. split; [apply elem_of_cons; by right | done].
    + destruct (IH _ _ Hrun k Hk) as [?|(c' & Hc' & Hname & Hshape)]; [by left|].
      right. exists c'. split; [apply elem_of_cons; by right | done].
Qed.

Lemma initial_computed_keys {T : Type} (input_dict : dict (list T)) (k : string) :
  k ∈ dict_keys (initial_computed input_dict)
  <-> exists n, n ∈ dict_keys input_dict /\ k = input_key n.
Proof.
  unfold initial_computed. rewrite dict_of_items_keys_elem.
  rewrite <- list_fmap_compose. unfold dict_keys.
  rewrite !list_elem_of_fmap. split.
  - intros (kv & -> & Hkv). exists kv.1. split; [|done].
    apply list_elem_of_fmap. by exists kv.
  - intros (n & (kv & -> & Hkv)%list_elem_of_fmap & ->). by exists kv.
Qed.

Lemma forward_loop_app {T : Type}
    (run : string -> list (Packet T) -> result (Packet T))
    (attached : string -> Packet T -> result unit)
    (graph : graph_t) (outputs_ : list string) (pre post : list Visit) :
  forall computed,
  forward_loop run attached graph outputs_ computed (pre ++ post)
  = let* c := forward_loop run attached graph outputs_ computed pre in
    forward_loop run attached graph outputs_ c post.
Proof.
  induction pre as [|v pre IH]; simpl; intros computed; [done|].
  destruct (forward_step _ _ _ _ computed v); simpl; [done | apply IH].
Qed.

(** X9.  What a forward pass that completes hands back: a dictionary whose
    keys are declared outputs, each once, and in which every visited node
    that is a declared output holds the packet that a run of that node
    returned during the pass: eviction never removes a declared output. *)
Theorem forward_returns_outputs {T : Type}
    (run : string -> list (Packet T) -> result (Packet T))
    (attached : string -> Packet T -> result unit)
    (graph : graph_t) (outputs_ : list string) (input_shapes : dict (list Size))
    (node_cfgs : list ModelNodeConfig) (visits : list Visit) (inputs_ : dict T)
    (out : dict (Packet T)) :
  forward run attached graph outputs_ input_shapes node_cfgs visits inputs_ = ok out ->
  NoDup (dict_keys out)
  /\ (forall k, k ∈ dict_keys out -> k ∈ outputs_)
  /\ (forall v, v ∈ visits -> v_node v ∈ outputs_ ->
        exists node_inputs outputs,
          run (v_node v) node_inputs = ok outputs
          /\ dict_get out (v_node v) = Some outputs).
Proof.
  unfold forward. intros Hrun.
  apply rbind_ok in Hrun as (input_dict & _ & Hrun).
  apply rbind_ok in Hrun as (computed & Hloop & Hrun).
  injection Hrun as <-.
  apply forward_loop_outputs in Hloop as (Hnd & _ & Hnew & _);
    [|apply dict_of_items_keys_NoDup].
  unfold outputs_dict. split; [|split].
  - eapply sublist_NoDup; [exact Hnd|].
    unfold dict_keys. apply fmap_sublist, sublist_filter.
  - intros k (kv & -> & Hkv)%list_elem_of_fmap.
    apply list_elem_of_filter in Hkv as [Hkv _]. by apply str_in_true.
  - intros v Hv Hout. destruct (Hnew v Hv Hout) as (ins & p & Hp & Hget).
    exists ins, p. split; [done|].
    transitivity (if str_in (v_node v) outputs_
                  then dict_get computed (v_node v) else None).
    { apply (dict_get_filter_keys (fun k => str_in k outputs_)). }
    by rewrite (proj2 (str_in_true _ _) Hout).
Qed.

Lemma forward_returns_outputs_witness :
  exists node_inputs outputs,
    demo_run "head" node_inputs = ok outputs
    /\ dict_get [("head", [("features", ["head.out"])])] "head" = Some outputs.
Proof.
  apply (proj2 (proj2 (forward_returns_outputs demo_run demo_attached
                         demo_two_graph ["head"] demo_two_shapes demo_two_inputs
                         demo_two_visits demo_batch
                         [("head", [("features", ["head.out"])])] eq_refl))
           {| v_node := "head"; v_inputs := ["rgb_encoder"]; v_unprocessed := [] |}).
  - do 2 apply list_elem_of_further. apply list_elem_of_here.
  - apply list_elem_of_here.
Defined.

(** X10.  Liveness eviction is safe.  When the traversal hands over the
    nodes in an order the pass can work with (see [ordered_visits]: inputs
    computed before they are read, the unprocessed nodes reported with each
    item, input nodes first), every input node has its batch Packet, and no
    node or attached module raises, the forward pass completes: no step
    finds a packet it has to read evicted. *)
Theorem forward_succeeds {T : Type}
    (run : string -> list (Packet T) -> result (Packet T))
    (attached : string -> Packet T -> result unit)
    (graph : graph_t) (outputs_ : list string) (input_shapes : dict (list Size))
    (node_cfgs : list ModelNodeConfig) (visits : list Visit) (inputs_ : dict T)
    (input_dict : dict (list T)) :
  (forall n ins, exists p, run n ins = ok p) ->
  (forall n p, attached n p = ok tt) ->
  build_input_dict input_shapes inputs_ node_cfgs [] = ok input_dict ->
  ordered_visits graph [] visits = true ->
  (forall v, v ∈ visits -> v_inputs v = [] -> v_node v ∈ dict_keys input_dict) ->
  exists out,
    forward run attached graph outputs_ input_shapes node_cfgs visits inputs_
    = ok out.
Proof.
  intros Hrun Hatt Hdict Hord Hpackets. unfold forward. rewrite Hdict. simpl.
  destruct (forward_loop_total run attached graph outputs_ visits Hrun Hatt []
              (initial_computed input_dict)) as [computed ->].
  - apply dict_of_items_keys_NoDup.
  - done.
  - intros w p _ _ Hp. by apply elem_of_nil in Hp.
  - intros w Hw Hnil. apply dict_get_is_Some, initial_computed_keys.
    exists (v_node w). split; [by apply Hpackets | done].
  - simpl. eauto.
Qed.

Lemma forward_succeeds_witness :
  exists out,
    forward demo_run demo_attached demo_two_graph ["head"] demo_two_shapes
      demo_two_inputs demo_two_visits demo_batch = ok out.
Proof.
  apply (forward_succeeds demo_run demo_attached demo_two_graph ["head"]
           demo_two_shapes demo_two_inputs demo_two_visits demo_batch
           [("rgb_encoder", ["rgb.in"]); ("depth_encoder", ["depth.in"])]).
  - intros n ins. eexists. reflexivity.
  - reflexivity.
  - reflexivity.
  - vm_compute. reflexivity.
  - intros v Hv Hnil.
    apply elem_of_cons in Hv as [->|Hv]; [apply list_elem_of_here|].
    apply elem_of_cons in Hv as [->|Hv];
      [apply list_elem_of_further, list_elem_of_here|].
    apply elem_of_cons in Hv as [->|Hv]; [discriminate Hnil|].
    by apply elem_of_nil in Hv.
Defined.

(** X11.  The batch Packets are filed under the configured [name] of a node,
    while the traversal knows a node by its alias-or-name.  An input node
    whose alias-or-name is not the [name] of a node with input shapes finds
    no Packet: when the pass reaches it, and no earlier node has produced
    something under the name of that Packet, the pass raises the [KeyError]
    for [__<node>_input__]. *)
Theorem forward_input_without_packet {T : Type}
    (run : string -> list (Packet T) -> result (Packet T))
    (attached : string -> Packet T -> result unit)
    (graph : graph_t) (outputs_ : list string) (input_shapes : dict (list Size))
    (node_cfgs : list ModelNodeConfig) (pre post : list Visit) (v : Visit)
    (inputs_ : dict T) (input_dict : dict (list T)) (computed : dict (Packet T)) :
  build_input_dict input_shapes inputs_ node_cfgs [] = ok input_dict ->
  forward_loop run attached graph outputs_ (initial_computed input_dict) pre
  = ok computed ->
  v_inputs v = [] ->
  (forall c, c ∈ node_cfgs -> name c ∈ dict_keys input_shapes ->
     name c <> v_node v) ->
  (forall u, u ∈ pre -> v_node u <> input_key (v_node v)) ->
  forward run attached graph outputs_ input_shapes node_cfgs
    (pre ++ v :: post) inputs_
  = raise (KeyError (input_key (v_node v))).
Proof.
  intros Hdict Hpre Hnil Hname Hfresh. unfold forward. rewrite Hdict. simpl.
  rewrite forward_loop_app, Hpre. simpl.
  assert (dict_get computed (input_key (v_node v)) = None) as Hnone.
  { apply dict_get_None_key. intros Hin.
    apply forward_loop_outputs in Hpre as (_ & _ & _ & Hsub);
      [|apply dict_of_items_keys_NoDup].
    destruct (Hsub _ Hin) as [Hinit|(u & Hu & Heq)].
    - apply initial_computed_keys in Hinit as (n & Hn & Heq).
      apply input_key_inj in Heq. subst n.
      destruct (build_input_dict_keys _ _ _ _ _ Hdict _ Hn)
        as [Hnil'|(c & Hc & Hcname & Hshape)].
      + by apply elem_of_nil in Hnil'.
      + by apply (Hname c).
    - by apply (Hfresh u). }
  unfold forward_step, visit_input_names, visit_is_input.
  rewrite bool_decide_eq_true_2 by done.
  by rewrite lookup_all_missing.
Qed.

Lemma forward_input_without_packet_witness :
  forward demo_run demo_attached (graph_of_nodes demo_frozen_nodes)
    ["head"; "SegmentationHead"] [("backbone", [[1; 3; 256; 256]])]
    demo_frozen_nodes
    ([] ++ {| v_node := "backbone"; v_inputs := [];
              v_unprocessed := ["RepPANNeck"; "head"; "SegmentationHead"] |}
        :: demo_frozen_visits)
    [("image", "image.in")]
  = raise (KeyError "__backbone_input__").
Proof.
  apply (forward_input_without_packet demo_run demo_attached
           (graph_of_nodes demo_frozen_nodes) ["head"; "SegmentationHead"]
           [("backbone", [[1; 3; 256; 256]])] demo_frozen_nodes []
           demo_frozen_visits
           {| v_node := "backbone"; v_inputs := [];
              v_unprocessed := ["RepPANNeck"; "head"; "SegmentationHead"] |}
           [("image", "image.in")] [] []).
  - reflexivity.
  - reflexivity.
  - reflexivity.
  - intros c Hc Hin. apply list_elem_of_singleton in Hin.
    repeat (apply elem_of_cons in Hc as [->|Hc]; [discriminate Hin|]).
    by apply elem_of_nil in Hc.
  - intros u Hu. by apply elem_of_nil in Hu.
Defined.

(** ** ONNX export, continued *)

Lemma export_output_names_length (configured : option (list string))
    (order : list out_key) :
  length (export_output_names configured order) = length order.
Proof.
  unfold export_output_names. destruct configured as [names|].
  - case_bool_decide as Hlen; [by rewrite length_map|].
    destruct names; [|done].
    by rewrite length_map.
  - by rewrite length_map.
Qed.

Lemma output_tensor_ok {T : Type} (outputs : dict (Packet T)) (k : out_key) :
  NoDup (dict_keys outputs) ->
  (forall n packet, (n, packet) ∈ outputs -> NoDup (dict_keys packet)) ->
  k ∈ enumerate_outputs outputs ->
  exists t, output_tensor outputs k = ok t.
Proof.
  intros Hnd Hpackets Hk.
  apply elem_of_enumerate_outputs in Hk as (packet & out & Hp & Ho & Hi).
  unfold output_tensor, dict_item.
  rewrite (dict_get_elem _ _ _ Hnd Hp). simpl.
  rewrite (dict_get_elem _ _ _ (Hpackets _ _ Hp) Ho). simpl.
  destruct (lookup_lt_is_Some_2 out k.2 Hi) as [t ->]. eauto.
Qed.

Lemma export_forward_total {T : Type} (outputs : dict (Packet T))
    (order : list out_key) :
  NoDup (dict_keys outputs) ->
  (forall n packet, (n, packet) ∈ outputs -> NoDup (dict_keys packet)) ->
  (forall k, k ∈ order -> k ∈ enumerate_outputs outputs) ->
  exists ts, export_forward outputs order = ok ts /\ length ts = length order.
Proof.
  intros Hnd Hpackets. induction order as [|k order IH]; intros Hin; simpl.
  - by exists [].
  - destruct (output_tensor_ok outputs k Hnd Hpackets) as [t ->];
      [apply Hin, elem_of_cons; by left|].
    destruct IH as (ts & -> & Hlen);
      [intros k' Hk'; apply Hin, elem_of_cons; by right|].
    simpl. exists (t :: ts). split; [done|]. simpl. by rewrite Hlen.
Qed.

(** X12.  [export_onnx] returns one name per output tensor, whatever names
    are configured: configured names are used only when there are as many
    of them as outputs (and at least one); a list of another length is
    dropped for the default names.  The exported forward then returns one
    tensor per name: no index of the order falls outside the outputs it was
    computed from. *)
Theorem export_names_match_outputs {T : Type}
    (configured : option (list string)) (outputs : dict (Packet T)) :
  length (export_onnx configured outputs) = length (output_order outputs)
  /\ (forall names, configured = Some names -> names <> [] ->
        length names = length (output_order outputs) ->
        export_onnx configured outputs = names)
  /\ (forall names, configured = Some names ->
        length names <> length (output_order outputs) ->
        export_onnx configured outputs = export_onnx None outputs)
  /\ (NoDup (dict_keys outputs) ->
      (forall n packet, (n, packet) ∈ outputs -> NoDup (dict_keys packet)) ->
      exists ts,
        export_forward outputs (output_order outputs) = ok ts
        /\ length ts = length (export_onnx configured outputs)).
Proof.
  unfold export_onnx. split; [apply export_output_names_length|].
  split; [|split].
  - intros names -> Hne Hlen. unfold export_output_names.
    rewrite bool_decide_eq_false_2 by (intros ?; done).
    by destruct names.
  - intros names -> Hlen. unfold export_output_names.
    by rewrite bool_decide_eq_true_2.
  - intros Hnd Hpackets.
    destruct (export_forward_total outputs (output_order outputs) Hnd Hpackets)
      as (ts & Hts & Hlen).
    { intros k Hk. unfold output_order in Hk.
      by rewrite merge_sort_Permutation in Hk. }
    exists ts. split; [done|]. by rewrite export_output_names_length.
Qed.

Lemma export_names_match_outputs_witness :
  exists ts,
    export_forward demo_outputs (output_order demo_outputs) = ok ts
    /\ length ts = length (export_onnx (Some ["boxes"; "features"]) demo_outputs).
Proof.
  apply (proj2 (proj2 (proj2 (export_names_match_outputs
                                (Some ["boxes"; "features"]) demo_outputs)))).
  - refine (bool_decide_unpack _ _). vm_compute. exact I.
  - intros n packet Hin.
    repeat (apply elem_of_cons in Hin as [[= -> ->]|Hin];
            [refine (bool_decide_unpack _ _); vm_compute; exact I|]).
    by apply elem_of_nil in Hin.
Defined.

(** ** Loss reduction, continued *)

(** X13.  A loss without a configured weight stops the reduction with the
    [KeyError] of its name.  The losses that precede it in iteration order
    have by then been scaled in place by their weights, and stay scaled;
    no other tensor has changed. *)
Theorem process_losses_missing_weight {T : Type} `{TensorOps T}
    (loss_weights : gmap string pyfloat) (log_sub_losses_ : bool)
    (losses_dict : losses_dict_t) (h : heap T)
    (pre post : list (string * string * loss_value))
    (l : string * string * loss_value) (wl : list weighted_loss) :
  flat_losses losses_dict = pre ++ l :: post ->
  with_weights loss_weights pre = Some wl ->
  NoDup (loss_tensors wl) ->
  loss_weights !! l.1.2 = None ->
  exists h',
    process_losses loss_weights log_sub_losses_ losses_dict h
    = (raise (KeyError l.1.2), h')
    /\ (forall t, h' t = scale_heap h wl t)
    /\ (forall t, t ∉ loss_tensors wl -> h' t = h t).
Proof.
  intros Hflat Hw Hnd Hmissing. unfold process_losses.
  rewrite process_losses_loop_flat, Hflat, process_flat_app.
  destruct (process_flat_pure loss_weights log_sub_losses_ pre wl (t_zeros, ∅) h
              Hw Hnd) as (out & h' & -> & Hheap & _).
  exists h'. split; [|split].
  - cbn [process_flat]. unfold process_loss. by rewrite Hmissing.
  - done.
  - intros t Ht. rewrite Hheap. unfold scale_heap.
    by rewrite find_tensor_None.
Qed.

Lemma process_losses_missing_weight_witness :
  exists h',
    process_losses demo_loss_weights true demo_two_losses demo_loss_heap
    = (raise (KeyError "cls"), h')
    /\ (forall t, h' t
                  = scale_heap demo_loss_heap
                      [("head", "bbox", LossTensor 0%nat, fl 2)] t)
    /\ (forall t, t ∉ loss_tensors [("head", "bbox", LossTensor 0%nat, fl 2)] ->
                  h' t = demo_loss_heap t).
Proof.
  apply (process_losses_missing_weight demo_loss_weights true demo_two_losses
           demo_loss_heap [("head", "bbox", LossTensor 0%nat)] []
           ("head", "cls", LossTensor 1%nat)
           [("head", "bbox", LossTensor 0%nat, fl 2)]).
  - reflexivity.
  - reflexivity.
  - apply NoDup_singleton.
  - reflexivity.
Defined.

(** ** Train-evaluation epochs *)

Lemma div_succ (n k : Z) :
  0 <= n -> 0 < k ->
  (n + 1) / k = n / k + (if decide ((n + 1) `mod` k = 0) then 1 else 0).
Proof.
  intros Hn Hk.
  pose proof (Z.div_mod n k ltac:(lia)) as Hdm.
  pose proof (Z.mod_pos_bound n k Hk) as Hb.
  destruct (decide (n `mod` k + 1 = k)) as [Hlast|Hmid].
  - assert ((n + 1) `mod` k = 0) as Hz.
    { symmetry. apply (Z.mod_unique _ _ (n / k + 1)); lia. }
    rewrite decide_True by done.
    symmetry. apply (Z.div_unique _ _ _ 0); lia.
  - assert ((n + 1) `mod` k = n `mod` k + 1) as Hz.
    { symmetry. apply (Z.mod_unique _ _ (n / k)); lia. }
    rewrite decide_False by lia.
    symmetry. apply (Z.div_unique _ _ _ (n `mod` k + 1)); lia.
Qed.

Lemma is_train_eval_epoch_pos (interval e : Z) :
  interval <> 0 -> interval <> -1 ->
  is_train_eval_epoch interval e
  = inr (bool_decide ((e + 1) `mod` interval = 0)).
Proof.
  intros H0 H1. unfold is_train_eval_epoch.
  rewrite bool_decide_eq_true_2 by done.
  by rewrite bool_decide_eq_false_2 by done.
Qed.

Lemma train_eval_epochs_length (interval : Z) (n : nat) :
  0 < interval ->
  length (train_eval_epochs interval (Z.of_nat n))
  = Z.to_nat (Z.of_nat n / interval).
Proof.
  intros Hpos. unfold train_eval_epochs. induction n as [|n IH].
  - simpl. by rewrite Z.div_0_l by lia.
  - replace (Z.of_nat (S n)) with (Z.of_nat n + 1) by lia.
    rewrite seqZ_app by lia. rewrite filter_app, length_app, IH.
    rewrite div_succ by lia.
    change (seqZ (0 + Z.of_nat n) 1) with [0 + Z.of_nat n].
    rewrite filter_cons, filter_nil.
    rewrite is_train_eval_epoch_pos by lia.
    pose proof (Z.div_pos (Z.of_nat n) interval ltac:(lia) Hpos).
    destruct (decide ((Z.of_nat n + 1) `mod` interval = 0)) as [Hz|Hz].
    + rewrite decide_True.
      * simpl. lia.
      * f_equal. apply bool_decide_eq_true_2. by rewrite Z.add_0_l.
    + rewrite decide_False.
      * simpl. lia.
      * intros [= Hb]. apply bool_decide_eq_true in Hb.
        by rewrite Z.add_0_l in Hb.
Qed.

(** X14.  [_is_train_eval_epoch]: with an interval of [-1] no epoch is a
    train-evaluation epoch; an interval of [0] raises [ZeroDivisionError] at
    every epoch; with any other interval the epochs are those whose number
    plus one is a multiple of the interval, so that a run of [E] epochs with
    a positive interval [k] computes the train metrics [E // k] times. *)
Theorem train_eval_epochs_count (interval : Z) :
  (interval = -1 -> forall e, is_train_eval_epoch interval e = inr false)
  /\ (interval = 0 ->
      forall e, is_train_eval_epoch interval e = inl ZeroDivisionError)
  /\ (interval <> 0 -> interval <> -1 ->
      forall e, (exists b, is_train_eval_epoch interval e = inr b)
                /\ (is_train_eval_epoch interval e = inr true
                    <-> (interval | e + 1)))
  /\ (0 < interval ->
      forall epochs_, 0 <= epochs_ ->
      length (train_eval_epochs interval epochs_)
      = Z.to_nat (epochs_ / interval)).
Proof.
  split; [|split; [|split]].
  - by intros ->.
  - by intros ->.
  - intros H0 H1 e. rewrite is_train_eval_epoch_pos by done.
    split; [eauto|]. rewrite <- Z.mod_divide by done. split.
    + intros [= Hb]. by apply bool_decide_eq_true in Hb.
    + intros Hz. f_equal. by apply bool_decide_eq_true_2.
  - intros Hpos epochs_ Hep.
    rewrite <- (Z2Nat.id epochs_) by done.
    by apply train_eval_epochs_length.
Qed.

Lemma train_eval_epochs_count_witness :
  length (train_eval_epochs 3 100) = 33%nat.
Proof.
  apply (proj2 (proj2 (proj2 (train_eval_epochs_count 3))) ltac:(lia) 100).
  lia.
Defined.

Example train_eval_epochs_of_ten :
  train_eval_epochs 3 10 = [2; 5; 8].
Proof. vm_compute. reflexivity. Qed.

(** ** Averaged losses *)

Lemma obind_inr {A B : Type} (m : outcome A) (k : A -> outcome B) (b : B) :
  obind m k = inr b -> exists a, m = inr a /\ k a = inr b.
Proof. destruct m as [e|a]; simpl; [discriminate | eauto]. Qed.

Lemma obind_inl {A B : Type} (m : outcome A) (k : A -> outcome B) (e : error) :
  obind m k = inl e -> m = inl e \/ exists a, m = inr a /\ k a = inl e.
Proof. destruct m as [e'|a]; simpl; [intros [= ->]; by left | eauto]. Qed.

Section AverageProps.

Context {V : Type}.
Variable to_float : V -> outcome pyfloat.

Local Abbreviation fadd := (SFadd prec emax).
Local Abbreviation value_of :=
  (fun (d : dict pyfloat) (k : string) => default float_zero (dict_get d k)).
Local Abbreviation converted :=
  (Forall2 (fun (v : V) (x : pyfloat) => to_float v = inr x)).

Lemma add_step_output_spec (step_output : list (string * V)) :
  forall avg avg' : dict pyfloat,
  add_step_output to_float step_output avg = inr avg' ->
  NoDup (dict_keys avg) ->
  NoDup (dict_keys avg')
  /\ (forall k, k ∈ dict_keys avg' <-> k ∈ dict_keys avg \/ k ∈ step_output.*1)
  /\ (forall k, exists xs,
        converted (filter (fun kv => kv.1 = k) step_output).*2 xs
        /\ value_of avg' k = fold_left fadd xs (value_of avg k)).
Proof.
  induction step_output as [|[key value] rest IH]; intros avg avg' Hrun Hnd.
  - injection Hrun as <-. split; [done|]. split.
    + intros k. rewrite elem_of_nil. tauto.
    + intros k. exists []. split; [constructor | done].
  - cbn [add_step_output] in Hrun.
    apply obind_inr in Hrun as (x & Hx & Hrun).
    destruct (IH _ _ Hrun) as (Hnd' & Hkeys & Hvals);
      [by apply dict_set_NoDup|].
    split; [done|]. split.
    + intros k. rewrite Hkeys. unfold add_value. rewrite dict_set_keys.
      rewrite fmap_cons, elem_of_cons. simpl. case_decide as Hin.
      * split; [tauto|]. intros [?|[->|?]]; tauto.
      * rewrite elem_of_app, list_elem_of_singleton. tauto.
    + intros k. destruct (Hvals k) as (xs & Hxs & Hval).
      rewrite filter_cons. simpl. unfold add_value in Hval.
      rewrite dict_get_set in Hval.
      destruct (decide (key = k)) as [->|Hne].
      * exists (x :: xs). split; [by constructor|]. by rewrite Hval.
      * exists xs. split; [done|]. by rewrite Hval.
Qed.

Lemma add_step_outputs_spec (step_outputs : list (list (string * V))) :
  forall avg avg' : dict pyfloat,
  add_step_outputs to_float step_outputs avg = inr avg' ->
  NoDup (dict_keys avg) ->
  NoDup (dict_keys avg')
  /\ (forall k, k ∈ dict_keys avg'
        <-> k ∈ dict_keys avg \/ exists s, s ∈ step_outputs /\ k ∈ s.*1)
  /\ (forall k, exists xs,
        converted (key_values k step_outputs) xs
        /\ value_of avg' k = fold_left fadd xs (value_of avg k)).
Proof.
  induction step_outputs as [|s rest IH]; intros avg avg' Hrun Hnd.
  - injection Hrun as <-. split; [done|]. split.
    + intros k. split; [by left|]. intros [?|(s & Hs & _)]; [done|].
      by apply elem_of_nil in Hs.
    + intros k. exists []. split; [constructor | done].
  - cbn [add_step_outputs] in Hrun.
    apply obind_inr in Hrun as (avg1 & Hstep & Hrun).
    destruct (add_step_output_spec _ _ _ Hstep Hnd) as (Hnd1 & Hkeys1 & Hvals1).
    destruct (IH _ _ Hrun Hnd1) as (Hnd' & Hkeys & Hvals).
    split; [done|]. split.
    + intros k. rewrite Hkeys, Hkeys1. setoid_rewrite elem_of_cons. split.
      * intros [[?|?]|(s' & Hs' & Hk)]; [by left| |].
        -- right. exists s. split; [by left | done].
        -- right. exists s'. split; [by right | done].
      * intros [?|(s' & [->|Hs'] & Hk)]; [by left; left|by left; right|].
        right. by exists s'.
    + intros k. destruct (Hvals1 k) as (xs1 & Hxs1 & Hval1).
      destruct (Hvals k) as (xs & Hxs & Hval).
      exists (xs1 ++ xs). split.
      * unfold key_values. rewrite concat_cons, filter_app, fmap_app.
        by apply Forall2_app.
      * by rewrite Hval, Hval1, fold_left_app.
Qed.

Lemma add_step_output_error (step_output : list (string * V)) (e : error) :
  forall avg, add_step_output to_float step_output avg = inl e ->
              exists v, to_float v = inl e.
Proof.
  induction step_output as [|[key value] rest IH]; intros avg; [discriminate|].
  cbn [add_step_output]. intros [Hv|(x & _ & Hrest)]%obind_inl; eauto.
Qed.

Lemma add_step_outputs_error (step_outputs : list (list (string * V)))
    (e : error) :
  forall avg, add_step_outputs to_float step_outputs avg = inl e ->
              exists v, to_float v = inl e.
Proof.
  induction step_outputs as [|s rest IH]; intros avg; [discriminate|].
  cbn [add_step_outputs].
  intros [Hs|(avg1 & _ & Hrest)]%obind_inl;
    [by eapply add_step_output_error | eauto].
Qed.

Lemma float_div_int_inr (x q : pyfloat) (n : Z) :
  float_div_int x n = inr q ->
  n <> 0 /\ exists fn, float_of_int n = ok fn /\ q = SFdiv prec emax x fn.
Proof.
  unfold float_div_int. case_bool_decide as Hn; [discriminate|].
  destruct (float_of_int n) as [e|fn]; [discriminate|].
  intros [= <-]. eauto.
Qed.

Lemma divide_all_spec (keys : list string) (n : Z) :
  forall avg res : dict pyfloat,
  divide_all keys avg n = inr res ->
  NoDup keys ->
  (forall k, k ∈ keys -> k ∈ dict_keys avg) ->
  (keys <> [] -> exists fn, float_of_int n = ok fn)
  /\ dict_keys res = dict_keys avg
  /\ (forall k fn, float_of_int n = ok fn ->
        dict_get res k
        = if decide (k ∈ keys) then Some (SFdiv prec emax (value_of avg k) fn)
          else dict_get avg k).
Proof.
  induction keys as [|key rest IH]; intros avg res Hrun Hnd Hin.
  - injection Hrun as <-. split; [done|]. split; [done|]. intros k fn _.
    rewrite decide_False; [done | apply not_elem_of_nil].
  - cbn [divide_all] in Hrun. apply NoDup_cons in Hnd as [Hkey Hnd].
    apply obind_inr in Hrun as (q & Hq & Hrun).
    apply float_div_int_inr in Hq as (Hn & fn & Hfn & ->).
    assert (key ∈ dict_keys avg) as Hkin by (apply Hin, elem_of_cons; by left).
    destruct (IH _ _ Hrun Hnd) as (_ & Hkeys & Hget).
    { intros k Hk. rewrite dict_set_keys. rewrite decide_True by done.
      apply Hin, elem_of_cons. by right. }
    split; [eauto|]. split.
    + rewrite Hkeys, dict_set_keys. by rewrite decide_True.
    + intros k fn' Hfn'. rewrite Hfn in Hfn'. injection Hfn' as <-.
      rewrite (Hget k fn Hfn), dict_get_set.
      destruct (decide (k ∈ rest)) as [Hk|Hk].
      * assert (key <> k) as Hne by (by intros ->).
        rewrite (decide_False (P := key = k)) by done.
        by rewrite (decide_True (P := k ∈ key :: rest))
          by (apply elem_of_cons; by right).
      * destruct (decide (key = k)) as [->|Hne].
        -- by rewrite (decide_True (P := k ∈ k :: rest))
             by (apply elem_of_cons; by left).
        -- rewrite (decide_False (P := k ∈ key :: rest)); [done|].
           intros [?|?]%elem_of_cons; done.
Qed.

Lemma divide_all_no_zero_division (keys : list string) (n : Z) :
  n <> 0 ->
  forall avg, divide_all keys avg n <> inl ZeroDivisionError.
Proof.
  intros Hn. induction keys as [|key rest IH]; intros avg; [discriminate|].
  cbn [divide_all]. intros [Hq|(q & _ & Hrest)]%obind_inl.
  - unfold float_div_int in Hq. rewrite bool_decide_eq_false_2 in Hq by done.
    by destruct (float_of_int n).
  - by apply IH in Hrest.
Qed.

(** X15.  [_average_losses]: no step outputs give an empty result, and the
    division never raises [ZeroDivisionError].  The result has one entry for
    every key that some step output has; its value is the sum, from [0.0]
    and in step order, of the values logged under the key, divided by the
    number of all step outputs, including those that lack the key. *)
Theorem average_losses_spec (step_outputs : list (dict V)) :
  average_losses to_float [] = inr []
  /\ ((forall v, to_float v <> inl ZeroDivisionError) ->
      average_losses to_float step_outputs <> inl ZeroDivisionError)
  /\ (forall res, average_losses to_float step_outputs = inr res ->
      NoDup (dict_keys res)
      /\ (forall k, k ∈ dict_keys res
            <-> exists s, s ∈ step_outputs /\ k ∈ dict_keys s)
      /\ (forall k, k ∈ dict_keys res ->
          exists xs fn,
            converted (key_values k step_outputs) xs
            /\ float_of_int (Z.of_nat (length step_outputs)) = ok fn
            /\ dict_get res k
               = Some (SFdiv prec emax (fold_left fadd xs float_zero) fn))).
Proof.
  split; [done|]. split.
  - intros Hconv. unfold average_losses.
    intros [Hadd|(avg & Hadd & Hdiv)]%obind_inl.
    + apply add_step_outputs_error in Hadd as [v Hv]. by apply (Hconv v).
    + destruct step_outputs as [|s rest].
      * injection Hadd as <-. discriminate Hdiv.
      * revert Hdiv. apply divide_all_no_zero_division. simpl. lia.
  - intros res Hrun. unfold average_losses in Hrun.
    apply obind_inr in Hrun as (avg & Hadd & Hdiv).
    destruct (add_step_outputs_spec _ _ _ Hadd) as (Hnd & Hkeys & Hvals);
      [constructor|].
    destruct (divide_all_spec _ _ _ _ Hdiv Hnd)
      as (Hfn & Hreskeys & Hget); [done|].
    split; [by rewrite Hreskeys|]. split.
    + intros k. rewrite Hreskeys, Hkeys. split; [|by right].
      intros [Hk|?]; [by apply elem_of_nil in Hk | done].
    + intros k Hk. rewrite Hreskeys in Hk.
      destruct Hfn as [fn Hfn]; [by intros Hnil; rewrite Hnil in Hk;
                                  apply elem_of_nil in Hk|].
      destruct (Hvals k) as (xs & Hxs & Hval).
      exists xs, fn. split; [done|]. split; [done|].
      rewrite (Hget k fn Hfn), decide_True by done. by rewrite Hval.
Qed.

End AverageProps.

Lemma average_losses_spec_witness :
  exists xs fn,
    Forall2 (fun (v x : pyfloat) => (inr v : outcome pyfloat) = inr x)
      (key_values "loss" demo_step_outputs) xs
    /\ float_of_int (Z.of_nat (length demo_step_outputs)) = ok fn
    /\ dict_get demo_average "loss"
       = Some (SFdiv prec emax (fold_left (SFadd prec emax) xs float_zero) fn).
Proof.
  apply (proj2 (proj2 (proj2 (proj2 (average_losses_spec inr demo_step_outputs))
                         demo_average eq_refl)) "loss").
  apply list_elem_of_here.
Defined.

Example demo_average_values :
  average_losses inr demo_step_outputs
  = inr [("loss", fl 2); ("loss/head/bbox", float_ratio 1 2)].
Proof. vm_compute. reflexivity. Qed.

(** ** Logged images *)

Section ImageLogProps.

Context {I : Type}.
Variable mode : string.
Variable num_log_images current_epoch : Z.

Local Abbreviation records_from :=
  (fun (start : Z) (b : string * string * list I) =>
     batch_records (I := I) mode num_log_images current_epoch start b).

Lemma log_viz_batch_spec (node_name viz_name : string) (viz_batch : list I) :
  forall (logged_images : Z) (log : list (image_record (I := I))),
  log_viz_batch mode node_name viz_name num_log_images current_epoch viz_batch
    logged_images log
  = (logged_images
     + Z.of_nat (length (take (Z.to_nat (num_log_images - logged_images))
                              viz_batch)),
     log ++ records_from logged_images (node_name, viz_name, viz_batch)).
Proof.
  unfold batch_records. simpl.
  induction viz_batch as [|viz rest IH]; intros logged_images log; simpl.
  - rewrite take_nil. simpl. by rewrite Z.add_0_r, app_nil_r.
  - case_bool_decide as Hfull.
    + replace (Z.to_nat (num_log_images - logged_images)) with 0%nat by lia.
      simpl. by rewrite Z.add_0_r, app_nil_r.
    + rewrite IH.
      replace (Z.to_nat (num_log_images - logged_images))
        with (S (Z.to_nat (num_log_images - (logged_images + 1)))) by lia.
      simpl. f_equal; [lia|]. rewrite <- app_assoc. simpl. do 2 f_equal.
      * by rewrite Z.add_0_r.
      * apply imap_ext. intros i x _. simpl. do 3 f_equal. lia.
Qed.

Lemma log_node_visualizations_spec (node_name : string) (self_logged : Z)
    (visualizations : dict (list I)) :
  forall (logged_images : Z) (log : list (image_record (I := I))),
  log_node_visualizations mode node_name num_log_images current_epoch
    self_logged visualizations logged_images log
  = (match last visualizations with
     | Some vb =>
         self_logged
         + Z.of_nat (length (take (Z.to_nat (num_log_images - self_logged)) vb.2))
     | None => logged_images
     end,
     log ++ concat (map (fun vb => records_from self_logged (node_name, vb.1, vb.2))
                        visualizations)).
Proof.
  induction visualizations as [|[viz_name viz_batch] rest IH];
    intros logged_images log; simpl.
  - by rewrite app_nil_r.
  - rewrite log_viz_batch_spec. simpl. rewrite IH, <- app_assoc. f_equal.
    rewrite last_cons. by destruct (last rest).
Qed.

Lemma log_all_visualizations_spec (self_logged : Z)
    (visualizations : dict (dict (list I))) :
  forall (logged_images : Z) (log : list (image_record (I := I))),
  log_all_visualizations mode num_log_images current_epoch self_logged
    visualizations logged_images log
  = (match last (all_batches visualizations) with
     | Some b =>
         self_logged
         + Z.of_nat (length (take (Z.to_nat (num_log_images - self_logged)) b.2))
     | None => logged_images
     end,
     log ++ concat (map (records_from self_logged) (all_batches visualizations))).
Proof.
  induction visualizations as [|[node_name node_viz] rest IH];
    intros logged_images log; simpl.
  - by rewrite app_nil_r.
  - rewrite log_node_visualizations_spec. simpl. rewrite IH, <- app_assoc.
    unfold all_batches. simpl. rewrite map_app, concat_app, map_map. simpl.
    f_equal.
    fold (all_batches rest).
    destruct (last (all_batches rest)) as [b|] eqn:Hrest.
    + by rewrite last_app, Hrest.
    + apply last_None in Hrest. rewrite Hrest, app_nil_r.
      rewrite fmap_last. by destruct (last node_viz).
Qed.

(** X16.  The image log of an evaluation step.  Every batch of
    visualizations is logged from the counter [_logged_images] as it was
    before the step, and at most up to [num_log_images]: no image is logged
    under an index outside [_logged_images .. num_log_images - 1], and
    nothing is logged once the counter has reached the bound.  The counter
    the step leaves behind is the one reached by the last batch; it never
    decreases and never passes the larger of its old value and the bound. *)
Theorem image_log_bounded (self_logged : Z) (visualizations : dict (dict (list I))) :
  let r := log_visualizations mode num_log_images current_epoch self_logged
             visualizations in
  r.2 = concat (map (records_from self_logged) (all_batches visualizations))
  /\ r.1 = match last (all_batches visualizations) with
           | Some b =>
               self_logged
               + Z.of_nat (length (take (Z.to_nat (num_log_images - self_logged)) b.2))
           | None => self_logged
           end
  /\ (forall record, record ∈ r.2 ->
        exists b i viz,
          b ∈ all_batches visualizations
          /\ record = (image_key mode b.1.1 b.1.2 i, viz, current_epoch)
          /\ self_logged <= i < num_log_images)
  /\ (num_log_images <= self_logged -> r = (self_logged, []))
  /\ self_logged <= r.1 <= Z.max self_logged num_log_images.
Proof.
  intros r. subst r. unfold log_visualizations.
  rewrite log_all_visualizations_spec. simpl.
  split; [done|]. split; [done|]. split; [|split].
  - intros record Hin. apply list_elem_of_In, in_concat in Hin as (l & Hl & Hin).
    apply in_map_iff in Hl as (b & <- & Hb).
    apply list_elem_of_In in Hin, Hb. unfold batch_records in Hin.
    apply elem_of_lookup_imap in Hin as (i & viz & -> & Hlook).
    exists b, (self_logged + Z.of_nat i), viz. split; [done|]. split; [done|].
    apply lookup_lt_Some in Hlook. rewrite length_take in Hlook. lia.
  - intros Hfull.
    replace (Z.to_nat (num_log_images - self_logged)) with 0%nat by lia.
    f_equal.
    + destruct (last _); [simpl; lia | done].
    + unfold batch_records.
      replace (Z.to_nat (num_log_images - self_logged)) with 0%nat by lia.
      induction (all_batches visualizations) as [|b bs IH]; [done|].
      simpl. exact IH.
  - destruct (last _) as [b|]; [|lia].
    rewrite length_take. lia.
Qed.

End ImageLogProps.

Lemma image_log_bounded_witness :
  log_visualizations "val" 4 7 3 demo_visualizations
  = (4, [("val/visualizations/head/bbox/3", "bbox.0", 7);
         ("val/visualizations/head/keypoints/3", "kpt.0", 7)]).
Proof.
  pose proof (image_log_bounded "val" 4 7 3 demo_visualizations)
    as (Hlog & Hcount & _).
  rewrite (surjective_pairing (log_visualizations "val" 4 7 3 demo_visualizations)).
  rewrite Hlog, Hcount. vm_compute. reflexivity.
Defined.

(** ** The main metric, split again *)

Lemma split_on_cons (sep : Ascii.ascii) (s : string) :
  exists part parts, split_on sep s = part :: parts.
Proof.
  destruct s as [|c s]; simpl; [eauto|].
  destruct (decide (c = sep)); [eauto|].
  destruct (split_on sep s); eauto.
Qed.

Lemma split_on_app (sep : Ascii.ascii) (a b : string) :
  split_on sep (a +:+ String sep b) = split_on sep a ++ split_on sep b.
Proof.
  induction a as [|c a IH].
  - change ("" +:+ String sep b) with (String sep b). simpl.
    by rewrite decide_True.
  - change (String c a +:+ String sep b) with (String c (a +:+ String sep b)).
    simpl. rewrite IH. destruct (decide (c = sep)); [done|].
    by destruct (split_on_cons sep a) as (part & parts & ->).
Qed.

Lemma split_on_no_sep (sep : Ascii.ascii) (s : string) :
  has_char sep s = false -> split_on sep s = [s].
Proof.
  induction s as [|c s IH]; simpl; [done|].
  intros [Hc Hs]%orb_false_iff. apply bool_decide_eq_false in Hc.
  rewrite decide_False by done. by rewrite IH.
Qed.

Lemma split_on_sep (sep : Ascii.ascii) (s : string) :
  has_char sep s = true -> (2 <= length (split_on sep s))%nat.
Proof.
  induction s as [|c s IH]; simpl; [discriminate|].
  destruct (decide (c = sep)) as [->|Hne].
  - intros _. destruct (split_on_cons sep s) as (part & parts & ->). simpl. lia.
  - rewrite bool_decide_eq_false_2 by done. simpl. intros Hs.
    specialize (IH Hs). destruct (split_on sep s); simpl in *; lia.
Qed.

Lemma slash_app (n m : string) : n +:+ "/" +:+ m = n +:+ String slash m.
Proof. done. Qed.

(** X17.  [self.main_metric] is built as node name, slash, metric name, and
    [_print_results] splits it at the slashes and unpacks two parts.  The
    split of the joined string is the split of the node name followed by the
    split of the metric name; the two names come back exactly when neither
    contains a slash.  Then [_print_results] reads the value that the
    metrics hold for the node under the metric name; when they hold none,
    for want of the node or of the metric, it raises the [KeyError] of the
    metric name.  With a slash in either name the unpacking raises
    [ValueError], after the other lines have been printed. *)
Theorem main_metric_round_trip {F : Type} (fmt4 : F -> string) (n m : string) :
  split_on slash (n +:+ "/" +:+ m) = split_on slash n ++ split_on slash m
  /\ (split_on slash (n +:+ "/" +:+ m) = [n; m]
      <-> has_char slash n = false /\ has_char slash m = false)
  /\ (forall metrics : dict (dict F),
        has_char slash n = false -> has_char slash m = false ->
        main_metric_value (n +:+ "/" +:+ m) metrics
        = match node_metrics ← dict_get metrics n; dict_get node_metrics m with
          | Some value => ok value
          | None => raise (KeyError m)
          end)
  /\ (forall use_rich_text stage loss (metrics : dict (dict F)),
        has_char slash n = true \/ has_char slash m = true ->
        (print_results fmt4 use_rich_text (Some (n +:+ "/" +:+ m)) stage loss
           metrics).2
        = raise (ValueError "too many values to unpack (expected 2)")).
Proof.
  rewrite slash_app, split_on_app.
  assert (has_char slash n = true \/ has_char slash m = true ->
          (3 <= length (split_on slash n ++ split_on slash m))%nat) as Hlong.
  { rewrite length_app.
    destruct (split_on_cons slash n) as (p1 & ps1 & Hn).
    destruct (split_on_cons slash m) as (p2 & ps2 & Hm).
    intros [H|H]; apply split_on_sep in H; rewrite Hn, Hm in *; simpl in *; lia. }
  split; [done|]. split; [|split].
  - split.
    + intros Heq.
      destruct (has_char slash n) eqn:Hn; [|destruct (has_char slash m) eqn:Hm];
        [| |done].
      * specialize (Hlong (or_introl eq_refl)). rewrite Heq in Hlong.
        simpl in Hlong. lia.
      * specialize (Hlong (or_intror eq_refl)). rewrite Heq in Hlong.
        simpl in Hlong. lia.
    + intros [Hn Hm]. by rewrite !split_on_no_sep.
  - intros metrics Hn Hm. unfold main_metric_value.
    rewrite split_on_app, !split_on_no_sep by done. simpl. unfold dict_item.
    destruct (dict_get metrics n) as [node_metrics|]; simpl; [|done].
    by destruct (dict_get node_metrics m).
  - intros use_rich_text stage loss metrics Hslash. unfold print_results.
    assert (main_metric_value (n +:+ String slash m) metrics
            = raise (ValueError "too many values to unpack (expected 2)")) as Hmv.
    { unfold main_metric_value. rewrite split_on_app.
      specialize (Hlong Hslash).
      destruct (split_on slash n ++ split_on slash m) as [|p1 [|p2 [|p3 ps]]];
        simpl in Hlong; try lia. done. }
    by rewrite Hmv.
Qed.

Lemma main_metric_round_trip_witness :
  split_on slash ("head" +:+ "/" +:+ "mAP") = ["head"; "mAP"].
Proof.
  apply (proj2 (proj1 (proj2 (main_metric_round_trip
                                (fun _ : pyfloat => "") "head" "mAP")))).
  split; reflexivity.
Defined.

(** The metrics of the epoch have nothing for the node of the main metric:
    the look-up fails on the metric name. *)
Example main_metric_without_node :
  (print_results (fun _ : pyfloat => "x") false (Some ("head" +:+ "/" +:+ "mAP"))
     "Validation" float_one [("seg_head", [("mIoU", float_one)])]).2
  = raise (KeyError "mAP").
Proof. vm_compute. reflexivity. Qed.

Example main_metric_with_slash :
  (print_results (fun _ : pyfloat => "x") false (Some ("head" +:+ "/" +:+ "mAP/50"))
     "Validation" float_one [("head", [("mAP/50", float_one)])]).2
  = raise (ValueError "too many values to unpack (expected 2)").
Proof. vm_compute. reflexivity. Qed.

(** ** Command-line overrides *)

Section OverridesProps.

Context {V : Type}.
Variable of_str : string -> V.

Lemma override_pairs_flatten (items : list (string * string)) :
  forall acc : dict V,
  override_pairs of_str (flatten_pairs items) acc
  = fold_left (fun d kv => dict_set d kv.1 kv.2)
      (map (fun kv => (kv.1, of_str kv.2)) items) acc.
Proof.
  induction items as [|[k v] items IH]; intros acc; [done|].
  unfold flatten_pairs. simpl. apply IH.
Qed.

Lemma flatten_pairs_length (items : list (string * string)) :
  length (flatten_pairs items) = (2 * length items)%nat.
Proof.
  induction items as [|kv items IH]; [done|].
  unfold flatten_pairs in *. simpl. rewrite IH. lia.
Qed.

Lemma even_list_pairs (n : nat) :
  forall l : list string,
  length l = (2 * n)%nat -> exists items, l = flatten_pairs items.
Proof.
  induction n as [|n IH]; intros l Hlen.
  - destruct l; [|done]. by exists [].
  - destruct l as [|k [|v l]]; simpl in Hlen; try lia.
    destruct (IH l) as [items ->]; [lia|]. by exists ((k, v) :: items).
Qed.

Lemma parse_overrides_even (l : list string) :
  (length l `mod` 2 = 0)%nat ->
  parse_overrides of_str (OptsSeq l) = ok (override_pairs of_str l []).
Proof.
  intros Heven. destruct l as [|x l]; [done|].
  unfold parse_overrides. by rewrite bool_decide_eq_false_2 by lia.
Qed.

(** X18.  The override options of [Core.__init__]: the only failure is the
    [ValueError] for a sequence of odd length.  A sequence of even length is
    read as key-value pairs, assigned in order to the overrides, a later
    pair replacing the value of an earlier one with the same key; laying out
    pairs with distinct keys and reading them back returns the pairs.  A
    dictionary is taken as it is. *)
Theorem parse_overrides_pairs (opts : opts_t V) :
  (fails_with (parse_overrides of_str opts) CValueError
   <-> exists l, opts = OptsSeq l /\ (length l `mod` 2 = 1)%nat)
  /\ (forall e, parse_overrides of_str opts = raise e -> class_of e = CValueError)
  /\ (forall l, opts = OptsSeq l -> (length l `mod` 2 = 0)%nat ->
      exists items,
        l = flatten_pairs items
        /\ parse_overrides of_str opts
           = ok (dict_of_items (map (fun kv => (kv.1, of_str kv.2)) items))
        /\ (NoDup items.*1 ->
            parse_overrides of_str opts
            = ok (map (fun kv => (kv.1, of_str kv.2)) items)))
  /\ (forall d, opts = OptsDict d -> parse_overrides of_str opts = ok d).
Proof.
  assert (forall l : list string, (length l `mod` 2 = 0)%nat \/ (length l `mod` 2 = 1)%nat)
    as Hparity.
  { intros l. pose proof (Nat.mod_upper_bound (length l) 2). lia. }
  split; [|split; [|split]].
  - split.
    + intros (e & Heq & Hclass). destruct opts as [|d|l]; try discriminate.
      exists l. split; [done|]. destruct l as [|x l]; [discriminate|].
      unfold parse_overrides in Heq.
      case_bool_decide as Hodd; [|discriminate].
      destruct (Hparity (x :: l)); [done|lia].
    + intros (l & -> & Hodd). destruct l as [|x l]; [done|].
      unfold parse_overrides. rewrite bool_decide_eq_true_2 by lia.
      eexists. split; [reflexivity | done].
  - intros e Heq. destruct opts as [|d|[|x l]]; try discriminate.
    unfold parse_overrides in Heq. case_bool_decide; [|discriminate].
    by injection Heq as <-.
  - intros l -> Heven.
    destruct (even_list_pairs (length l / 2) l) as [items ->].
    { pose proof (Nat.div_mod_eq (length l) 2). lia. }
    exists items. split; [done|].
    assert (parse_overrides of_str (OptsSeq (flatten_pairs items))
            = ok (dict_of_items (map (fun kv => (kv.1, of_str kv.2)) items)))
      as Hparse.
    { rewrite parse_overrides_even by done.
      by rewrite override_pairs_flatten. }
    split; [done|]. intros Hnd. rewrite Hparse. f_equal.
    apply dict_of_items_NoDup. unfold dict_keys.
    rewrite <- list_fmap_compose.
    by replace (fst ∘ (fun kv : string * string => (kv.1, of_str kv.2)))
      with (@fst string string) by done.
  - by intros d ->.
Qed.

End OverridesProps.

Lemma parse_overrides_pairs_witness :
  exists items,
    ["trainer.epochs"; "10"; "trainer.batch_size"; "8"] = flatten_pairs items
    /\ parse_overrides id
         (OptsSeq ["trainer.epochs"; "10"; "trainer.batch_size"; "8"])
       = ok (dict_of_items (map (fun kv => (kv.1, id kv.2)) items))
    /\ (NoDup items.*1 ->
        parse_overrides id
          (OptsSeq ["trainer.epochs"; "10"; "trainer.batch_size"; "8"])
        = ok (map (fun kv => (kv.1, id kv.2)) items)).
Proof.
  apply (proj1 (proj2 (proj2 (parse_overrides_pairs id
           (OptsSeq ["trainer.epochs"; "10"; "trainer.batch_size"; "8"]))))
           _ eq_refl).
  reflexivity.
Defined.

Example parse_overrides_odd :
  parse_overrides id (OptsSeq ["trainer.epochs"; "10"; "trainer.batch_size"])
  = raise (ValueError "Override options should be a list of key-value pairs").
Proof. reflexivity. Qed.

(** ** Metric results, merged *)

Section MetricMergeProps.

Context {T S : Type}.

Local Abbreviation flat_of x :=
  (default (∅ : gmap string T) (normalized_spec x.1.2 (computed_value x.2))).

Local Abbreviation value_at res node key :=
  (res !! node ≫= fun flat : gmap string T => flat !! key).

Lemma merged_results_snoc (ms : list (string * string * Metric T S))
    (x : string * string * Metric T S) (res : results_t T) :
  merged_results (ms ++ [x]) res
  = merge_results (merged_results ms res) x.1.1 (flat_of x).
Proof. unfold merged_results. by rewrite fold_left_app. Qed.

Lemma merge_results_value (res : results_t T) (n node key : string)
    (flat : gmap string T) :
  value_at (merge_results res n flat) node key
  = if decide (n = node) then
      match flat !! key with
      | Some v => Some v
      | None => value_at res node key
      end
    else value_at res node key.
Proof.
  unfold merge_results, results_t in *.
  destruct (decide (n = node)) as [->|Hne].
  - rewrite lookup_insert_eq. simpl. rewrite lookup_union.
    destruct (flat !! key) as [v|] eqn:Hflat.
    + by destruct (default ∅ (res !! node) !! key).
    + destruct (res !! node) as [old|]; simpl.
      * by destruct (old !! key).
      * by rewrite lookup_empty.
  - by rewrite lookup_insert_ne.
Qed.

Lemma merge_results_node (res : results_t T) (n node : string)
    (flat : gmap string T) :
  is_Some (merge_results res n flat !! node) <-> n = node \/ is_Some (res !! node).
Proof.
  unfold merge_results, results_t in *.
  destruct (decide (n = node)) as [->|Hne].
  - rewrite lookup_insert_eq. split; [by left | eauto].
  - rewrite lookup_insert_ne by done. split; [by right | by intros [?|?]].
Qed.

Lemma merged_results_node (ms : list (string * string * Metric T S))
    (res : results_t T) (node : string) :
  is_Some (merged_results ms res !! node)
  <-> is_Some (res !! node) \/ exists x, x ∈ ms /\ x.1.1 = node.
Proof.
  induction ms as [|x ms IH] using rev_ind.
  - split; [by left|]. intros [?|(x & Hx & _)]; [done|].
    by apply elem_of_nil in Hx.
  - rewrite merged_results_snoc, merge_results_node, IH.
    setoid_rewrite elem_of_app. setoid_rewrite list_elem_of_singleton. split.
    + intros [Hn|[?|(y & Hy & Hyn)]]; [|by left|].
      * right. exists x. split; [by right | done].
      * right. exists y. split; [by left | done].
    + intros [?|(y & [Hy| ->] & Hyn)]; [by right; left| |by left].
      right. right. by exists y.
Qed.

Lemma merged_results_value (ms : list (string * string * Metric T S))
    (res : results_t T) (node key : string) (v : T) :
  value_at (merged_results ms res) node key = Some v
  <-> (exists pre x post,
         ms = pre ++ x :: post /\ x.1.1 = node /\ flat_of x !! key = Some v
         /\ forall y, y ∈ post -> y.1.1 = node -> flat_of y !! key = None)
      \/ (value_at res node key = Some v
          /\ forall y, y ∈ ms -> y.1.1 = node -> flat_of y !! key = None).
Proof.
  induction ms as [|x ms IH] using rev_ind.
  - split.
    + intros Hv. right. split; [done|]. intros y Hy. by apply elem_of_nil in Hy.
    + intros [(pre & x & post & Heq & _)|[Hv _]]; [|done].
      by destruct pre.
  - rewrite merged_results_snoc, merge_results_value.
    destruct (decide (x.1.1 = node)) as [Hx|Hx].
    + destruct (flat_of x !! key) as [w|] eqn:Hflat.
      * split.
        -- intros [= ->]. left. exists ms, x, []. split; [done|].
           split; [done|]. split; [done|]. intros y Hy.
           by apply elem_of_nil in Hy.
        -- intros [(pre & y & post & Heq & Hy & Hyv & Hpost)|[_ Hnone]].
           ++ destruct post as [|z post _] using rev_ind.
              ** apply app_inj_tail in Heq as [_ <-]. congruence.
              ** rewrite app_comm_cons, app_assoc in Heq.
                 apply app_inj_tail in Heq as [_ <-].
                 rewrite (Hpost x) in Hflat; [done| |done].
                 apply elem_of_app. right. by apply list_elem_of_singleton.
           ++ rewrite (Hnone x) in Hflat; [done| |done].
              apply elem_of_app. right. by apply list_elem_of_singleton.
      * rewrite IH. split.
        -- intros [(pre & y & post & -> & Hy & Hyv & Hpost)|[Hv Hnone]].
           ++ left. exists pre, y, (post ++ [x]).
              split; [by rewrite <- app_assoc|]. split; [done|]. split; [done|].
              intros z [Hz| ->%list_elem_of_singleton]%elem_of_app Hzn;
                [by apply Hpost | done].
           ++ right. split; [done|].
              intros z [Hz| ->%list_elem_of_singleton]%elem_of_app Hzn;
                [by apply Hnone | done].
        -- intros [(pre & y & post & Heq & Hy & Hyv & Hpost)|[Hv Hnone]].
           ++ destruct post as [|z post _] using rev_ind.
              ** apply app_inj_tail in Heq as [_ <-]. congruence.
              ** rewrite app_comm_cons, app_assoc in Heq.
                 apply app_inj_tail in Heq as [-> <-].
                 left. exists pre, y, post. split; [done|]. split; [done|].
                 split; [done|]. intros z Hz. apply Hpost, elem_of_app. by left.
           ++ right. split; [done|]. intros z Hz. apply Hnone, elem_of_app.
              by left.
    + rewrite IH. split.
      * intros [(pre & y & post & -> & Hy & Hyv & Hpost)|[Hv Hnone]].
        -- left. exists pre, y, (post ++ [x]).
           split; [by rewrite <- app_assoc|]. split; [done|]. split; [done|].
           intros z [Hz| ->%list_elem_of_singleton]%elem_of_app Hzn;
             [by apply Hpost | done].
        -- right. split; [done|].
           intros z [Hz| ->%list_elem_of_singleton]%elem_of_app Hzn;
             [by apply Hnone | done].
      * intros [(pre & y & post & Heq & Hy & Hyv & Hpost)|[Hv Hnone]].
        -- destruct post as [|z post _] using rev_ind.
           ** apply app_inj_tail in Heq as [_ <-]. congruence.
           ** rewrite app_comm_cons, app_assoc in Heq.
              apply app_inj_tail in Heq as [-> <-].
              left. exists pre, y, post. split; [done|]. split; [done|].
              split; [done|]. intros z Hz. apply Hpost, elem_of_app. by left.
        -- right. split; [done|]. intros z Hz. apply Hnone, elem_of_app.
           by left.
Qed.

(** X19.  The result of [compute_metrics] has an entry exactly for the nodes
    that have at least one metric, and within a node a later metric wins:
    the value under a key is the one given by the last metric of the node, in
    iteration order, whose normalised result has that key. *)
Theorem compute_metrics_last_wins
    (metrics_ train_metrics : dict (dict (Metric T S))) (use_train_metrics : bool)
    (res : results_t T) :
  let ms := all_metrics (if use_train_metrics then train_metrics else metrics_) in
  (compute_metrics metrics_ train_metrics use_train_metrics).1 = ok res ->
  (forall node, is_Some (res !! node) <-> exists x, x ∈ ms /\ x.1.1 = node)
  /\ (forall node key v,
        value_at res node key = Some v
        <-> exists pre x post,
              ms = pre ++ x :: post /\ x.1.1 = node
              /\ flat_of x !! key = Some v
              /\ forall y, y ∈ post -> y.1.1 = node -> flat_of y !! key = None).
Proof.
  intros ms Hrun. unfold compute_metrics in Hrun. fold ms in Hrun.
  set (METRICS := if use_train_metrics then train_metrics else metrics_) in *.
  assert (res = merged_results ms ∅) as ->.
  { destruct (decide (Forall (fun x => normalizable (computed_value x.2) = true) ms))
      as [Hall|Hnall].
    - rewrite compute_metrics_loop_ok in Hrun by done. by injection Hrun.
    - exfalso. apply not_Forall_Exists in Hnall; [|intros x; apply _].
      assert (Exists (fun x => normalizable (computed_value x.2) = false) ms)
        as Hex.
      { eapply Exists_impl; [exact Hnall|]. intros x Hx. simpl in Hx.
        by apply not_true_is_false. }
      destruct (compute_metrics_loop_err METRICS ∅ Hex) as (e & He & _).
      congruence. }
  unfold results_t in *. split.
  - intros node. rewrite merged_results_node. split; [|by right].
    intros [[flat Hflat]|?]; [|done]. unfold results_t in Hflat.
    by rewrite lookup_empty in Hflat.
  - intros node key v. rewrite merged_results_value. split; [|by left].
    intros [?|[Hv _]]; [done|]. unfold results_t in Hv.
    by rewrite lookup_empty in Hv.
Qed.

End MetricMergeProps.

Lemma compute_metrics_last_wins_witness :
  demo_clashing_results !! "head" ≫= (fun flat => flat !! "mAP50") = Some 3.
Proof.
  apply (proj2 (compute_metrics_last_wins demo_clashing_metrics
                  demo_clashing_metrics false demo_clashing_results eq_refl)
           "head" "mAP50" 3).
  exists [("head", "mAP", demo_map 4)], ("head", "mAP50", demo_accuracy 3), [].
  split; [reflexivity|]. split; [reflexivity|]. split; [reflexivity|].
  intros y Hy. by apply elem_of_nil in Hy.
Defined.

(** ** Input nodes that come late *)

Lemma forward_loop_cons_ok {T : Type}
    (run : string -> list (Packet T) -> result (Packet T))
    (attached : string -> Packet T -> result unit)
    (graph : graph_t) (outputs_ : list string) (v : Visit) (rest : list Visit)
    (computed computed' : dict (Packet T)) :
  forward_loop run attached graph outputs_ computed (v :: rest) = ok computed' ->
  exists c1,
    forward_step run attached graph outputs_ computed v = ok c1
    /\ forward_loop run attached graph outputs_ c1 rest = ok computed'.
Proof. simpl. apply rbind_ok. Qed.

(** X20.  The eviction step of a node with predecessors removes the batch
    Packet of every input node that is still to come, unless its name is a
    declared output or a predecessor name.  A pass in which the traversal
    reaches an input node after a node with predecessors therefore cannot
    complete: whatever the nodes compute, the pass raises. *)
Theorem forward_late_input_fails {T : Type}
    (run : string -> list (Packet T) -> result (Packet T))
    (attached : string -> Packet T -> result unit)
    (graph : graph_t) (outputs_ : list string) (input_shapes : dict (list Size))
    (node_cfgs : list ModelNodeConfig) (pre mid post : list Visit) (u v : Visit)
    (inputs_ : dict T) :
  v_inputs u <> [] ->
  v_inputs v = [] ->
  input_key (v_node v) ∉ outputs_ ->
  (forall n, n ∈ v_unprocessed u -> input_key (v_node v) ∉ preds_of graph n) ->
  (forall w, w ∈ mid -> v_node w <> input_key (v_node v)) ->
  exists e,
    forward run attached graph outputs_ input_shapes node_cfgs
      (pre ++ u :: mid ++ v :: post) inputs_
    = raise e.
Proof.
  intros Hu Hv Hout Hpreds Hmid.
  destruct (forward run attached graph outputs_ input_shapes node_cfgs
              (pre ++ u :: mid ++ v :: post) inputs_) as [e|out] eqn:Hrun;
    [by exists e|].
  exfalso. unfold forward in Hrun.
  apply rbind_ok in Hrun as (input_dict & _ & Hrun).
  apply rbind_ok in Hrun as (computed & Hloop & _).
  rewrite forward_loop_app in Hloop.
  apply rbind_ok in Hloop as (c0 & Hpre & Hloop).
  apply forward_loop_outputs in Hpre as (Hnd0 & _);
    [|apply dict_of_items_keys_NoDup].
  apply forward_loop_cons_ok in Hloop as (c1 & Hstep & Hloop).
  apply forward_step_spec in Hstep as (Hnd1 & Hkept); [|done].
  rewrite forward_loop_app in Hloop.
  apply rbind_ok in Hloop as (c2 & Hmidloop & Hloop).
  apply forward_loop_outputs in Hmidloop as (_ & _ & _ & Hsub); [|done].
  apply forward_loop_cons_ok in Hloop as (c3 & Hstep & _).
  assert (dict_get c2 (input_key (v_node v)) = None) as Hnone.
  { apply dict_get_None_key. intros Hin.
    destruct (Hsub _ Hin) as [Hin1|(w & Hw & Heq)].
    - destruct (Hkept _ Hin1) as [?|[[? _]|(n & Hn & Hp)]]; [done|done|].
      by apply (Hpreds n).
    - by apply (Hmid w). }
  unfold forward_step, visit_input_names, visit_is_input in Hstep.
  rewrite bool_decide_eq_true_2 in Hstep by done.
  by rewrite lookup_all_missing in Hstep.
Qed.

Lemma forward_late_input_fails_witness :
  exists e,
    forward demo_run demo_attached demo_late_graph ["D"] demo_late_shapes
      demo_late_cfgs
      ([ {| v_node := "A"; v_inputs := []; v_unprocessed := ["B"; "C"; "D"] |} ]
       ++ {| v_node := "B"; v_inputs := ["A"]; v_unprocessed := ["C"; "D"] |}
       :: []
       ++ {| v_node := "C"; v_inputs := []; v_unprocessed := ["D"] |}
       :: [ {| v_node := "D"; v_inputs := ["B"; "C"]; v_unprocessed := [] |} ])
      demo_batch
    = raise e.
Proof.
  apply (forward_late_input_fails demo_run demo_attached demo_late_graph ["D"]
           demo_late_shapes demo_late_cfgs).
  - discriminate.
  - reflexivity.
  - intros Hin%list_elem_of_singleton. discriminate Hin.
  - intros n Hn Hin.
    apply elem_of_cons in Hn as [->|Hn].
    { by apply elem_of_nil in Hin. }
    apply elem_of_cons in Hn as [->|Hn]; [|by apply elem_of_nil in Hn].
    apply elem_of_cons in Hin as [Hin|Hin]; [discriminate Hin|].
    apply elem_of_cons in Hin as [Hin|Hin]; [discriminate Hin|].
    by apply elem_of_nil in Hin.
  - intros w Hw. by apply elem_of_nil in Hw.
Defined.

Example demo_late_traversal :
  traverse_graph demo_late_graph
  = ok [ {| v_node := "A"; v_inputs := []; v_unprocessed := ["B"; "C"; "D"] |};
         {| v_node := "B"; v_inputs := ["A"]; v_unprocessed := ["C"; "D"] |};
         {| v_node := "C"; v_inputs := []; v_unprocessed := ["D"] |};
         {| v_node := "D"; v_inputs := ["B"; "C"]; v_unprocessed := [] |} ].
Proof. vm_compute. reflexivity. Qed.

(** ** Node set-up *)

Section InitiateProps.

Context {T N : Type}.
Variable zeros : Size -> T.
Variable get_shape_packet : Packet T -> Packet Size.
Variable construct : string -> list (Packet Size) -> result N.
Variable run_node : N -> list (Packet T) -> result (Packet T).

Local Abbreviation init_step := (initiate_step get_shape_packet construct run_node).
Local Abbreviation init_loop := (initiate_loop get_shape_packet construct run_node).

Lemma initial_dummy_outputs_keys (input_shapes : dict (list Size)) (k : string) :
  k ∈ dict_keys (initial_dummy_outputs zeros input_shapes)
  <-> exists n, n ∈ dict_keys input_shapes /\ k = input_key n.
Proof.
  unfold initial_dummy_outputs. rewrite dict_of_items_keys_elem.
  rewrite <- list_fmap_compose. unfold dict_keys.
  rewrite !list_elem_of_fmap. split.
  - intros (ns & -> & Hns). exists ns.1. split; [|done].
    apply list_elem_of_fmap. by exists ns.
  - intros (n & (ns & -> & Hns)%list_elem_of_fmap & ->). by exists ns.
Qed.

Lemma initiate_loop_total (visits : list Visit) :
  (forall n shapes, exists node, construct n shapes = ok node) ->
  (forall node ins, exists p, run_node node ins = ok p) ->
  forall (avail : list string) (state : dict (Packet T) * dict N),
  inputs_before avail visits = true ->
  (forall p, p ∈ avail -> is_Some (dict_get state.1 p)) ->
  (forall v, v ∈ visits -> v_inputs v = [] ->
     is_Some (dict_get state.1 (input_key (v_node v)))) ->
  exists state',
    init_loop state visits = ok state'
    /\ dict_keys state'.2
       = fold_left (fun keys v => if decide (v_node v ∈ keys) then keys
                                  else keys ++ [v_node v])
                   visits (dict_keys state.2).
Proof.
  intros Hconstruct Hrun.
  induction visits as [|v visits IH]; intros avail state Hbefore Havail Hinputs.
  - by exists state.
  - cbn [inputs_before] in Hbefore. apply andb_true_iff in Hbefore as [Hin Hbefore].
    rewrite forallb_forall in Hin.
    cbn [initiate_loop]. unfold initiate_step at 1.
    destruct (lookup_all_ok state.1 (visit_input_names v)) as [ins ->].
    { unfold visit_input_names, visit_is_input.
      destruct (bool_decide (v_inputs v = [])) eqn:Hnil.
      - apply bool_decide_eq_true in Hnil.
        intros k ->%list_elem_of_singleton. apply Hinputs; [|done].
        apply elem_of_cons. by left.
      - intros k Hk. apply Havail, str_in_true, Hin. by apply list_elem_of_In. }
    cbn [rbind].
    destruct (Hconstruct (v_node v) (map get_shape_packet ins)) as [node ->].
    cbn [rbind]. destruct (Hrun node ins) as [p ->]. cbn [rbind].
    destruct (IH (v_node v :: avail)
                 (dict_set state.1 (v_node v) p, dict_set state.2 (v_node v) node)
                 Hbefore) as (state' & -> & Hkeys).
    + intros q Hq. cbn [fst]. rewrite dict_get_set.
      destruct (decide (v_node v = q)); [done|].
      apply elem_of_cons in Hq as [->|Hq]; [done | by apply Havail].
    + intros w Hw Hnil. cbn [fst]. rewrite dict_get_set.
      destruct (decide _); [done|]. apply Hinputs; [|done].
      apply elem_of_cons. by right.
    + exists state'. split; [done|]. rewrite Hkeys. cbn [snd fold_left].
      by rewrite dict_set_keys.
Qed.

Lemma fold_keys_NoDup (visits : list Visit) :
  forall keys : list string,
  NoDup (keys ++ map v_node visits) ->
  fold_left (fun keys v => if decide (v_node v ∈ keys) then keys
                           else keys ++ [v_node v]) visits keys
  = keys ++ map v_node visits.
Proof.
  induction visits as [|v visits IH]; intros keys Hnd; simpl.
  - by rewrite app_nil_r.
  - simpl in Hnd. rewrite decide_False.
    + rewrite IH; rewrite <- app_assoc; done.
    + apply NoDup_app in Hnd as (_ & Hdisj & _). intros Hin.
      apply (Hdisj _ Hin). apply elem_of_cons. by left.
Qed.


End InitiateProps.


(** ** The batch of a forward pass *)

Lemma lookup_all_inv {V : Type} (d : dict V) (ks : list string) (vs : list V) :
  lookup_all d ks = ok vs -> forall k, k ∈ ks -> k ∈ dict_keys d.
Proof.
  revert vs. induction ks as [|k ks IH]; simpl; intros vs Hrun k' Hk'.
  - by apply elem_of_nil in Hk'.
  - apply rbind_ok in Hrun as (v & Hv & Hrun).
    apply rbind_ok in Hrun as (vs' & Hvs & _).
    apply elem_of_cons in Hk' as [->|Hk']; [|by eapply IH].
    unfold dict_item in Hv. destruct (dict_get d k) eqn:Hget; [|discriminate].
    by eapply dict_get_Some_key.
Qed.

Lemma lookup_all_err {V : Type} (d : dict V) (ks : list string) (e : exception) :
  lookup_all d ks = raise e ->
  exists k, e = KeyError k /\ k ∈ ks /\ k ∉ dict_keys d.
Proof.
  induction ks as [|k ks IH]; simpl; [discriminate|]. unfold dict_item.
  destruct (dict_get d k) eqn:Hget; simpl.
  - destruct (lookup_all d ks) as [e'|vs]; simpl; [|discriminate].
    intros [= <-]. destruct (IH eq_refl) as (k' & -> & Hk' & Hnot).
    exists k'. split; [done|]. split; [apply elem_of_cons; by right | done].
  - intros [= <-]. exists k. split; [done|].
    split; [apply elem_of_cons; by left | by apply dict_get_None_key].
Qed.

Section InputDictProps.

Context {T : Type}.
Variable input_shapes : dict (list Size).
Variable inputs_ : dict T.

Local Abbreviation feeds c := (name c ∈ dict_keys input_shapes).
Local Abbreviation fill := (build_input_dict input_shapes inputs_).

Lemma build_input_dict_get (cfgs : list ModelNodeConfig) :
  forall acc d : dict (list T),
  fill cfgs acc = ok d ->
  forall k,
  match last (filter (fun c => name c = k /\ feeds c) cfgs) with
  | Some c => exists ts, lookup_all inputs_ (loader_inputs c) = ok ts
                         /\ dict_get d k = Some ts
  | None => dict_get d k = dict_get acc k
  end.
Proof.
  induction cfgs as [|c cfgs IH]; intros acc d Hrun k.
  - by injection Hrun as <-.
  - cbn [build_input_dict] in Hrun. rewrite filter_cons.
    destruct (str_in (name c) (dict_keys input_shapes)) eqn:Hin.
    + apply str_in_true in Hin.
      apply rbind_ok in Hrun as (ts & Hts & Hrun).
      specialize (IH _ _ Hrun k).
      destruct (decide (name c = k /\ feeds c)) as [[Hk _]|Hno].
      * rewrite last_cons.
        destruct (last (filter _ cfgs)) as [c'|]; [done|].
        exists ts. split; [done|]. rewrite IH, dict_get_set.
        by rewrite decide_True.
      * destruct (last (filter _ cfgs)) as [c'|]; [done|].
        rewrite IH, dict_get_set. rewrite decide_False; [done|]. tauto.
    + apply str_in_false in Hin. specialize (IH _ _ Hrun k).
      rewrite decide_False by tauto. done.
Qed.

Lemma build_input_dict_ok (cfgs : list ModelNodeConfig) :
  forall acc : dict (list T),
  (exists d, fill cfgs acc = ok d)
  <-> forall c i, c ∈ cfgs -> feeds c -> i ∈ loader_inputs c ->
                  i ∈ dict_keys inputs_.
Proof.
  induction cfgs as [|c cfgs IH]; intros acc.
  - split; [|by eauto]. intros _ c i Hc. by apply elem_of_nil in Hc.
  - cbn [build_input_dict].
    destruct (str_in (name c) (dict_keys input_shapes)) eqn:Hin.
    + apply str_in_true in Hin. split.
      * intros [d Hrun]. apply rbind_ok in Hrun as (ts & Hts & Hrun).
        intros c' i [->|Hc']%elem_of_cons Hfeeds Hi.
        -- by eapply lookup_all_inv.
        -- eapply IH; eauto.
      * intros Hall.
        destruct (lookup_all_ok inputs_ (loader_inputs c)) as [ts ->].
        { intros i Hi. apply dict_get_is_Some.
          apply (Hall c i); [apply elem_of_cons; by left | done | done]. }
        cbn [rbind]. apply IH. intros c' i Hc'. apply Hall, elem_of_cons.
        by right.
    + apply str_in_false in Hin. rewrite IH. split.
      * intros Hall c' i [->|Hc']%elem_of_cons Hfeeds Hi; [done|].
        by eapply Hall.
      * intros Hall c' i Hc'. apply Hall, elem_of_cons. by right.
Qed.

Lemma build_input_dict_err (cfgs : list ModelNodeConfig) (e : exception) :
  forall acc : dict (list T),
  fill cfgs acc = raise e ->
  exists c i, c ∈ cfgs /\ feeds c /\ i ∈ loader_inputs c
              /\ (i ∉ dict_keys inputs_) /\ e = KeyError i.
Proof.
  induction cfgs as [|c cfgs IH]; intros acc Hrun; [discriminate|].
  cbn [build_input_dict] in Hrun.
  destruct (str_in (name c) (dict_keys input_shapes)) eqn:Hin.
  - apply str_in_true in Hin.
    apply rbind_err in Hrun as [Herr|(ts & _ & Hrun)].
    + apply lookup_all_err in Herr as (i & -> & Hi & Hnot).
      exists c, i. split; [apply elem_of_cons; by left | done].
    + destruct (IH _ Hrun) as (c' & i & Hc' & Hrest).
      exists c', i. split; [apply elem_of_cons; by right | done].
  - destruct (IH _ Hrun) as (c' & i & Hc' & Hrest).
    exists c', i. split; [apply elem_of_cons; by right | done].
Qed.

(** X22.  The batch of a forward pass is read for the node configurations
    whose [name] is a key of [input_shapes].  This succeeds exactly when the
    batch has every loader input of these nodes and otherwise raises the
    [KeyError] of a loader input that is missing.  The tensors are filed
    under the [name] of the node, in the order of its loader inputs; when
    several such nodes share a name, the entry holds the tensors of the last
    of them. *)
Theorem build_input_dict_spec (cfgs : list ModelNodeConfig) :
  ((exists d, fill cfgs [] = ok d)
   <-> forall c i, c ∈ cfgs -> feeds c -> i ∈ loader_inputs c ->
                   i ∈ dict_keys inputs_)
  /\ (forall e, fill cfgs [] = raise e ->
      exists c i, c ∈ cfgs /\ feeds c /\ i ∈ loader_inputs c
                  /\ (i ∉ dict_keys inputs_) /\ e = KeyError i)
  /\ (forall d, fill cfgs [] = ok d ->
      forall k,
      match last (filter (fun c => name c = k /\ feeds c) cfgs) with
      | Some c => exists ts, lookup_all inputs_ (loader_inputs c) = ok ts
                             /\ dict_get d k = Some ts
      | None => dict_get d k = None
      end).
Proof.
  split; [apply build_input_dict_ok|].
  split; [intros e; apply build_input_dict_err|].
  intros d Hrun k. pose proof (build_input_dict_get cfgs [] d Hrun k) as Hget.
  by destruct (last _).
Qed.

End InputDictProps.

Lemma build_input_dict_spec_witness :
  exists ts,
    lookup_all demo_batch ["depth"] = ok ts
    /\ dict_get [("ResNet", ["depth.in"])] "ResNet" = Some ts.
Proof.
  apply (proj2 (proj2 (build_input_dict_spec
                         [("ResNet", [[1; 3; 64; 64]])] demo_batch
                         demo_same_type_nodes))
           [("ResNet", ["depth.in"])] eq_refl "ResNet").
Defined.

(** ** A metric that raises *)

(** X23.  A run of [compute_metrics] that meets a metric whose [compute()]
    returns a value of none of the three shapes raises the [ValueError] that
    names this metric and the type of the value, and it is not undone: the
    metrics iterated before it have been computed and reset, the metric
    itself has been computed and not reset, and the metrics after it, in its
    node and in the later nodes, are as they were. *)
Theorem compute_metrics_stops_half_way {T S : Type}
    (metrics_ train_metrics : dict (dict (Metric T S))) (use_train_metrics : bool)
    (before after : dict (dict (Metric T S)))
    (node_name metric_name : string) (metric : Metric T S)
    (ms_before ms_after : dict (Metric T S)) :
  (if use_train_metrics then train_metrics else metrics_)
  = before
    ++ (node_name, ms_before ++ (metric_name, metric) :: ms_after) :: after ->
  Forall (fun x => normalizable (computed_value x.2) = true)
         (all_metrics before) ->
  Forall (fun km => normalizable (computed_value km.2) = true) ms_before ->
  normalizable (computed_value metric) = false ->
  compute_metrics metrics_ train_metrics use_train_metrics
  = (raise (ValueError ("Metric " +:+ metric_name
                        +:+ " returned unexpected value of type "
                        +:+ type_repr (computed_value metric) +:+ ".")),
     stopped_at before node_name ms_before metric_name metric ms_after after).
Proof.
  intros HM Hall Hms Hbad. unfold compute_metrics. rewrite HM.
  by apply compute_metrics_loop_stops.
Qed.

Lemma compute_metrics_stops_half_way_witness :
  compute_metrics demo_broken_metrics [] false
  = (raise (ValueError
       "Metric count returned unexpected value of type <class 'float'>."),
     [("head", [("accuracy", demo_accuracy 0); ("count", demo_bare_number 2);
                ("mAP", demo_map 4)]);
      ("seg", [("mIoU", demo_accuracy 5)])]).
Proof.
  apply (compute_metrics_stops_half_way demo_broken_metrics [] false []
           [("seg", [("mIoU", demo_accuracy 5)])] "head" "count"
           (demo_bare_number 2) [("accuracy", demo_accuracy 3)]
           [("mAP", demo_map 4)]).
  - reflexivity.
  - constructor.
  - repeat constructor.
  - reflexivity.
Defined.
